(** * QuakeFlow event comparison engine: the matcher and the metrics calculator

    A shallow embedding of
    [mcp_phasenet_comparison/src/services/event-matcher.js] (class
    [EventMatcher]) and of the metrics part of the comparison service
    (class [PhaseNetComparisonService]: [calculatePerformanceMetrics] and
    [calculateStats]).

    JavaScript numbers are IEEE 754 binary64 values: they are embedded as
    Rocq's primitive [float], whose operations are the processor's, so that
    NaN, the infinities and the signed zeros behave as in the source. *)

From Stdlib Require Import ZArith Lia Floats String.
From stdpp Require Import base decidable option list gmap sets fin_sets sorting.

Set Warnings "-inexact-float".
Set Default Proof Using "Type".

(** ** JavaScript numbers *)

Module JS.

Abbreviation number := float.

(** [x > y] *)
Definition gt (x y : number) : bool := PrimFloat.ltb y x.

(** [x < y] *)
Definition lt (x y : number) : bool := PrimFloat.ltb x y.

(** [ToBoolean] of a number: NaN, [+0] and [-0] are falsy. *)
Definition truthy (x : number) : bool :=
  negb (PrimFloat.is_nan x || PrimFloat.is_zero x).

(** [x || d] where [x] is a number. *)
Definition or_else (x d : number) : number := if truthy x then x else d.

(** [x || d] where [x] is a property that may be missing ([undefined]) or
    [null]: both are falsy. *)
Definition field_or_else (x : option number) (d : number) : number :=
  match x with
  | Some v => or_else v d
  | None => d
  end.

(** The length of an array as a number. Array lengths are below [2^32],
    where the conversion is exact. *)
Definition of_nat (n : nat) : number :=
  PrimFloat.of_uint63 (Uint63.of_Z (Z.of_nat n)).

(** [Math.min(...values)]: [lowest] starts at [+Infinity]; a NaN argument
    makes the result NaN, and [-0] is below [+0]. *)
Fixpoint Math_min_from (lowest : number) (values : list number) : number :=
  match values with
  | [] => lowest
  | x :: values' =>
      if PrimFloat.is_nan x then PrimFloat.nan
      else
        match PrimFloat.classify x, PrimFloat.classify lowest with
        | NZero, PZero => Math_min_from x values'
        | _, _ =>
            if PrimFloat.ltb x lowest then Math_min_from x values'
            else Math_min_from lowest values'
        end
  end.

Definition Math_min (values : list number) : number :=
  Math_min_from PrimFloat.infinity values.

(** [Math.max(...values)]: [highest] starts at [-Infinity]; a NaN argument
    makes the result NaN, and [+0] is above [-0]. *)
Fixpoint Math_max_from (highest : number) (values : list number) : number :=
  match values with
  | [] => highest
  | x :: values' =>
      if PrimFloat.is_nan x then PrimFloat.nan
      else
        match PrimFloat.classify x, PrimFloat.classify highest with
        | PZero, NZero => Math_max_from x values'
        | _, _ =>
            if PrimFloat.ltb highest x then Math_max_from x values'
            else Math_max_from highest values'
        end
  end.

Definition Math_max (values : list number) : number :=
  Math_max_from PrimFloat.neg_infinity values.

(** What a call does: it returns a value, or it throws a [RangeError]. *)
Inductive Completion (A : Type) : Type :=
| Normal (value : A)
| RangeError.
Global Arguments Normal {A} value.
Global Arguments RangeError {A}.

(** A statement after a call is reached when the call returns. *)
#[global] Instance Completion_bind : MBind Completion :=
  fun A B f call =>
    match call with
    | Normal value => f value
    | RangeError => RangeError
    end.

(** [f(...values)]: the elements of the array are the arguments of the call.
    An engine accepts a bounded number of arguments in a call,
    [max_arguments], and throws a [RangeError] for an array with more
    elements. *)
Definition spread_call {A B : Type} (max_arguments : nat) (f : list A -> B)
    (values : list A) : Completion B :=
  if length values <=? max_arguments then Normal (f values) else RangeError.

(** The state in which the promise of an [async] function settles. *)
Inductive Promise (A : Type) : Type :=
| Fulfilled (value : A)
| Rejected (reason : string).
Global Arguments Fulfilled {A} value.
Global Arguments Rejected {A} reason.

End JS.

(** ** Data model *)

(** A normalized event. [time] holds [new Date(event.time).getTime()], the
    epoch milliseconds of the event's time string, which is NaN for a string
    that does not parse (an invalid [Date]). [depth_km] and [magnitude] are
    [None] when the property is missing or [null]. *)
Record Event : Type := {
  event_id : string;
  time : JS.number;
  latitude : JS.number;
  longitude : JS.number;
  depth_km : option JS.number;
  magnitude : option JS.number
}.

(** The criteria object handed to [matchEvents]: a field is [None] when the
    caller's object does not have the property. *)
Record CriteriaArg : Type := {
  arg_timeWindow : option JS.number;
  arg_distanceThreshold : option JS.number;
  arg_magnitudeDiffThreshold : option JS.number;
  arg_depthDiffThreshold : option JS.number
}.

Record MatchingCriteria : Type := {
  timeWindow : JS.number;
  distanceThreshold : JS.number;
  magnitudeDiffThreshold : JS.number;
  depthDiffThreshold : JS.number
}.

Record MatchCandidate : Type := {
  referenceIndex : nat;
  detectedIndex : nat;
  referenceEvent : Event;
  detectedEvent : Event;
  timeDiff : JS.number;
  distance : JS.number;
  magnitudeDiff : option JS.number;
  depthDiff : JS.number;
  matchScore : JS.number
}.

Record Summary : Type := {
  totalReference : nat;
  totalDetected : nat;
  matchedPairs : nat;
  sum_unmatchedReference : nat;
  sum_unmatchedDetected : nat
}.

Record MatchResult : Type := {
  matches : list MatchCandidate;
  unmatchedReference : list Event;
  unmatchedDetected : list Event;
  matchingCriteria : MatchingCriteria;
  summary : Summary
}.

(** ** The event matcher *)

Module EventMatcher.

(** [this.defaultCriteria], set by the constructor. *)
Definition defaultCriteria : MatchingCriteria := {|
  timeWindow := 30.0;
  distanceThreshold := 10.0;
  magnitudeDiffThreshold := 1.0;
  depthDiffThreshold := 50.0
|}.

(** [{ ...this.defaultCriteria, ...criteria }] *)
Definition spread (d : MatchingCriteria) (c : CriteriaArg) : MatchingCriteria := {|
  timeWindow := default (timeWindow d) (arg_timeWindow c);
  distanceThreshold := default (distanceThreshold d) (arg_distanceThreshold c);
  magnitudeDiffThreshold :=
    default (magnitudeDiffThreshold d) (arg_magnitudeDiffThreshold c);
  depthDiffThreshold := default (depthDiffThreshold d) (arg_depthDiffThreshold c)
|}.

(** [array.filter((_, idx) => keep(idx))], with [i] the index of the head. *)
Fixpoint filter_index {A : Type} (keep : nat -> bool) (i : nat) (l : list A) : list A :=
  match l with
  | [] => []
  | x :: l' =>
      if keep i then x :: filter_index keep (S i) l' else filter_index keep (S i) l'
  end.

(** [calculateMatchScore] *)
Definition calculateMatchScore (timeDiff distance : JS.number)
    (magnitudeDiff : option JS.number) (depthDiff : JS.number)
    (criteria : MatchingCriteria) : JS.number :=
  let timeScore := ((timeDiff / timeWindow criteria) * 0.4)%float in
  let distanceScore := ((distance / distanceThreshold criteria) * 0.4)%float in
  let magnitudeScore :=
    match magnitudeDiff with
    | Some md => ((md / magnitudeDiffThreshold criteria) * 0.15)%float
    | None => 0%float
    end in
  let depthScore := ((depthDiff / depthDiffThreshold criteria) * 0.05)%float in
  (timeScore + distanceScore + magnitudeScore + depthScore)%float.

Section WithHaversine.

(** [haversine(start, end, { unit: 'km' })] of the npm package [haversine],
    on [start = { latitude: lat1, longitude: lon1 }] and
    [end = { latitude: lat2, longitude: lon2 }]. *)
Variable haversine : JS.number -> JS.number -> JS.number -> JS.number -> JS.number.

(** [calculateDistance] *)
Definition calculateDistance (lat1 lon1 lat2 lon2 : JS.number) : JS.number :=
  haversine lat1 lon1 lat2 lon2.

(** The state of the scan over the detected events for one reference event:
    [bestMatch] and [bestScore]. *)
Definition Best : Type := option MatchCandidate * JS.number.

(** One iteration of the inner [for] loop; each [continue] leaves the state
    as it is. *)
Definition scan_step (criteria : MatchingCriteria) (matchedDet : gset nat)
    (refIdx : nat) (refEvent : Event) (detIdx : nat) (detEvent : Event)
    (st : Best) : Best :=
  if bool_decide (detIdx ∈ matchedDet) then st else
  let timeDiff := (abs (time refEvent - time detEvent) / 1000)%float in
  if JS.gt timeDiff (timeWindow criteria) then st else
  let distance :=
    calculateDistance (latitude refEvent) (longitude refEvent)
                      (latitude detEvent) (longitude detEvent) in
  if JS.gt distance (distanceThreshold criteria) then st else
  let magnitudeDiff :=
    match magnitude refEvent, magnitude detEvent with
    | Some mr, Some md => Some (abs (mr - md))%float
    | _, _ => None
    end in
  if match magnitudeDiff with
     | Some md => JS.gt md (magnitudeDiffThreshold criteria)
     | None => false
     end
  then st else
  let refDepth := JS.field_or_else (depth_km refEvent) 10.0 in
  let detDepth := JS.field_or_else (depth_km detEvent) 10.0 in
  let depthDiff := abs (refDepth - detDepth)%float in
  if JS.gt depthDiff (depthDiffThreshold criteria) then st else
  let score := calculateMatchScore timeDiff distance magnitudeDiff depthDiff criteria in
  if JS.lt score (snd st) then
    (Some {| referenceIndex := refIdx;
             detectedIndex := detIdx;
             referenceEvent := refEvent;
             detectedEvent := detEvent;
             timeDiff := timeDiff;
             distance := distance;
             magnitudeDiff := magnitudeDiff;
             depthDiff := depthDiff;
             matchScore := score |}, score)
  else st.

(** The inner loop from index [detIdx] on, [dets] being the detected events
    from that index. *)
Fixpoint scan (criteria : MatchingCriteria) (matchedDet : gset nat)
    (refIdx : nat) (refEvent : Event) (detIdx : nat) (dets : list Event)
    (st : Best) : Best :=
  match dets with
  | [] => st
  | detEvent :: dets' =>
      scan criteria matchedDet refIdx refEvent (S detIdx) dets'
        (scan_step criteria matchedDet refIdx refEvent detIdx detEvent st)
  end.

(** The variables the outer loop updates. *)
Record Loop : Type := {
  loop_matches : list MatchCandidate;
  matchedRefIndices : gset nat;
  matchedDetIndices : gset nat
}.

Definition loop_init : Loop :=
  {| loop_matches := []; matchedRefIndices := ∅; matchedDetIndices := ∅ |}.

(** One iteration of the outer [for] loop. *)
Definition match_step (criteria : MatchingCriteria) (detEvents : list Event)
    (refIdx : nat) (refEvent : Event) (st : Loop) : Loop :=
  match fst (scan criteria (matchedDetIndices st) refIdx refEvent 0 detEvents
               (None, infinity)) with
  | Some bestMatch =>
      {| loop_matches := loop_matches st ++ [bestMatch];
         matchedRefIndices := {[ refIdx ]} ∪ matchedRefIndices st;
         matchedDetIndices := {[ detectedIndex bestMatch ]} ∪ matchedDetIndices st |}
  | None => st
  end.

(** The outer loop from index [refIdx] on. *)
Fixpoint match_loop (criteria : MatchingCriteria) (detEvents : list Event)
    (refIdx : nat) (refs : list Event) (st : Loop) : Loop :=
  match refs with
  | [] => st
  | refEvent :: refs' =>
      match_loop criteria detEvents (S refIdx) refs'
        (match_step criteria detEvents refIdx refEvent st)
  end.

(** [matchEvents]. The two [map]s that attach [timeObj] are the identity
    here, [time] being the parsed time already; the [console.log] calls are
    left out. *)
Definition matchEvents (referenceEvents detectedEvents : list Event)
    (criteria : CriteriaArg) : JS.Promise MatchResult :=
  let matchingCriteria := spread defaultCriteria criteria in
  let st := match_loop matchingCriteria detectedEvents 0 referenceEvents loop_init in
  let matches := loop_matches st in
  let unmatchedReference :=
    filter_index (fun idx => negb (bool_decide (idx ∈ matchedRefIndices st)))
      0 referenceEvents in
  let unmatchedDetected :=
    filter_index (fun idx => negb (bool_decide (idx ∈ matchedDetIndices st)))
      0 detectedEvents in
  JS.Fulfilled {|
    matches := matches;
    unmatchedReference := unmatchedReference;
    unmatchedDetected := unmatchedDetected;
    matchingCriteria := matchingCriteria;
    summary := {|
      totalReference := length referenceEvents;
      totalDetected := length detectedEvents;
      matchedPairs := length matches;
      sum_unmatchedReference := length unmatchedReference;
      sum_unmatchedDetected := length unmatchedDetected
    |}
  |}.

End WithHaversine.

End EventMatcher.

(** ** The metrics calculator *)

Module ComparisonService.

(** What [calculateStats] returns for a non-empty array. *)
Record Stats : Type := {
  mean : JS.number;
  stdDev : JS.number;
  rms : JS.number;
  min : JS.number;
  max : JS.number;
  count : nat
}.

Record ResidualStats : Type := {
  res_time : option Stats;
  res_distance : option Stats;
  res_magnitude : option Stats
}.

Record PerformanceMetrics : Type := {
  precision : JS.number;
  recall : JS.number;
  f1Score : JS.number;
  detectionRate : JS.number;
  falseAlarmRate : JS.number;
  truePositives : nat;
  falsePositives : nat;
  falseNegatives : nat;
  pm_totalReference : nat;
  pm_totalDetected : nat;
  residualStats : option ResidualStats
}.

Section WithMathPow.

(** [Math.pow], whose result the language leaves to the implementation. *)
Variable Math_pow : JS.number -> JS.number -> JS.number.

(** The number of arguments that the engine accepts in a call. *)
Variable max_arguments : nat.

(** [calculateStats]. The object literal is evaluated in the order of its
    properties: [Math.min(...values)] and then [Math.max(...values)] are
    called with the values as their arguments. *)
Definition calculateStats (values : list JS.number) : JS.Completion (option Stats) :=
  match values with
  | [] => JS.Normal None
  | _ :: _ =>
      let n := JS.of_nat (length values) in
      let mean := (fold_left (fun sum val => sum + val) values 0 / n)%float in
      let variance :=
        (fold_left (fun sum val => sum + Math_pow (val - mean) 2) values 0 / n)%float in
      let stdDev := sqrt variance in
      let rms :=
        sqrt (fold_left (fun sum val => sum + Math_pow val 2) values 0 / n)%float in
      min ← JS.spread_call max_arguments JS.Math_min values;
      max ← JS.spread_call max_arguments JS.Math_max values;
      JS.Normal (Some {| mean := mean;
                         stdDev := stdDev;
                         rms := rms;
                         min := min;
                         max := max;
                         count := length values |})
  end.

(** [calculatePerformanceMetrics]. The three counts are array lengths, kept
    as [nat] in the record and read as numbers where the code divides them.
    [matches.filter(m => m.magnitudeDiff !== null).map(m => m.magnitudeDiff)]
    is [omap magnitudeDiff matches]. A [RangeError] of [calculateStats] is
    not caught: it ends the call before the metrics are built. *)
Definition calculatePerformanceMetrics (matchingResults : MatchResult)
    : JS.Completion PerformanceMetrics :=
  let truePositives := length (matches matchingResults) in
  let falsePositives := length (unmatchedDetected matchingResults) in
  let falseNegatives := length (unmatchedReference matchingResults) in
  let precision :=
    JS.or_else
      (JS.of_nat truePositives /
       (JS.of_nat truePositives + JS.of_nat falsePositives))%float 0 in
  let recall :=
    JS.or_else
      (JS.of_nat truePositives /
       (JS.of_nat truePositives + JS.of_nat falseNegatives))%float 0 in
  let f1Score :=
    JS.or_else (2 * precision * recall / (precision + recall))%float 0 in
  let detectionRate := recall in
  let falseAlarmRate :=
    JS.or_else
      (JS.of_nat falsePositives /
       (JS.of_nat truePositives + JS.of_nat falsePositives))%float 0 in
  residualStats ←
    match matches matchingResults with
    | [] => JS.Normal None
    | _ :: _ =>
        let timeResiduals := map timeDiff (matches matchingResults) in
        let distanceResiduals := map distance (matches matchingResults) in
        let magnitudeResiduals := omap magnitudeDiff (matches matchingResults) in
        time ← calculateStats timeResiduals;
        distance ← calculateStats distanceResiduals;
        magnitude ←
          match magnitudeResiduals with
          | [] => JS.Normal None
          | _ :: _ => calculateStats magnitudeResiduals
          end;
        JS.Normal (Some {| res_time := time;
                           res_distance := distance;
                           res_magnitude := magnitude |})
    end;
  JS.Normal {| precision := precision;
               recall := recall;
               f1Score := f1Score;
               detectionRate := detectionRate;
               falseAlarmRate := falseAlarmRate;
               truePositives := truePositives;
               falsePositives := falsePositives;
               falseNegatives := falseNegatives;
               pm_totalReference := truePositives + falseNegatives;
               pm_totalDetected := truePositives + falsePositives;
               residualStats := residualStats |}.

End WithMathPow.

End ComparisonService.

(** ** The reference greedy algorithm, as the specification words it *)

Module Reference.

Import EventMatcher.

(** The hard filters, in the order in which they are applied. *)
Inductive Filter : Type := TimeFilter | DistanceFilter | MagnitudeFilter | DepthFilter.

Definition all_filters : list Filter :=
  [TimeFilter; DistanceFilter; MagnitudeFilter; DepthFilter].

(** A difference exceeds its threshold; the magnitude filter applies only
    when both magnitudes are present. *)
Definition exceeds (criteria : MatchingCriteria) (c : MatchCandidate) (f : Filter) : bool :=
  match f with
  | TimeFilter => JS.gt (timeDiff c) (timeWindow criteria)
  | DistanceFilter => JS.gt (distance c) (distanceThreshold criteria)
  | MagnitudeFilter =>
      match magnitudeDiff c with
      | Some md => JS.gt md (magnitudeDiffThreshold criteria)
      | None => false
      end
  | DepthFilter => JS.gt (depthDiff c) (depthDiffThreshold criteria)
  end.

(** A difference lies exactly on its threshold: the two numbers are equal. *)
Definition on_boundary (criteria : MatchingCriteria) (c : MatchCandidate) (f : Filter) : Prop :=
  match f with
  | TimeFilter => (timeDiff c =? timeWindow criteria)%float = true
  | DistanceFilter => (distance c =? distanceThreshold criteria)%float = true
  | MagnitudeFilter =>
      exists md, magnitudeDiff c = Some md /\
        (md =? magnitudeDiffThreshold criteria)%float = true
  | DepthFilter => (depthDiff c =? depthDiffThreshold criteria)%float = true
  end.

Definition rejected (criteria : MatchingCriteria) (c : MatchCandidate) : bool :=
  existsb (exceeds criteria c) all_filters.

(** Missing depth is treated as 10.0 km. *)
Definition depth_if_missing (e : Event) : JS.number := default 10.0%float (depth_km e).

(** The depth the code compares: a depth that is missing, zero or NaN is
    replaced by 10.0 km. *)
Definition depth_if_falsy (e : Event) : JS.number := JS.field_or_else (depth_km e) 10.0.

(** Every score may win. *)
Definition any_score (score : JS.number) : bool := true.

(** Only a score below [+Infinity] may win: this leaves out a score that is
    NaN or [+Infinity]. *)
Definition below_infinity (score : JS.number) : bool := JS.lt score infinity.

(** [c] has a minimum score among [cs]: no candidate of [cs] scores lower. *)
Definition is_minimum (cs : list MatchCandidate) (c : MatchCandidate) : bool :=
  forallb (fun c' => negb (JS.lt (matchScore c') (matchScore c))) cs.

(** The minimum-score candidate, the earliest one when several tie. *)
Definition select (cs : list MatchCandidate) : option MatchCandidate :=
  head (List.filter (is_minimum cs) cs).

(** The events of a list with their indices, from index [i]. *)
Fixpoint indexed_from {A : Type} (i : nat) (l : list A) : list (nat * A) :=
  match l with
  | [] => []
  | x :: l' => (i, x) :: indexed_from (S i) l'
  end.

Section Greedy.

Variable haversine : JS.number -> JS.number -> JS.number -> JS.number -> JS.number.
Variable depth_of : Event -> JS.number.
Variable may_win : JS.number -> bool.
Variable criteria : MatchingCriteria.
Variable detectedEvents : list Event.

(** The MatchCandidate of a pair of events: its raw differences and its
    score. *)
Definition pairing (refIdx : nat) (refEvent : Event) (detIdx : nat) (detEvent : Event)
    : MatchCandidate :=
  let timeDiff := (abs (time refEvent - time detEvent) / 1000)%float in
  let distance :=
    haversine (latitude refEvent) (longitude refEvent)
              (latitude detEvent) (longitude detEvent) in
  let magnitudeDiff :=
    match magnitude refEvent, magnitude detEvent with
    | Some mr, Some md => Some (abs (mr - md))%float
    | _, _ => None
    end in
  let depthDiff := abs (depth_of refEvent - depth_of detEvent)%float in
  {| referenceIndex := refIdx;
     detectedIndex := detIdx;
     referenceEvent := refEvent;
     detectedEvent := detEvent;
     timeDiff := timeDiff;
     distance := distance;
     magnitudeDiff := magnitudeDiff;
     depthDiff := depthDiff;
     matchScore := calculateMatchScore timeDiff distance magnitudeDiff depthDiff criteria |}.

(** The candidates of a reference event that are not yet claimed, in their
    given order. *)
Definition unclaimed (claimed : list nat) : list (nat * Event) :=
  List.filter (fun jd => negb (bool_decide (fst jd ∈ claimed)))
    (indexed_from 0 detectedEvents).

(** Those of them that survive the filters. *)
Definition survivors (claimed : list nat) (refIdx : nat) (refEvent : Event)
    : list MatchCandidate :=
  List.filter (fun c => negb (rejected criteria c) && may_win (matchScore c))
    (map (fun jd => pairing refIdx refEvent (fst jd) (snd jd)) (unclaimed claimed)).

(** The reference events from index [refIdx] on are processed in their given
    order; [committed] holds the matches made for the earlier ones. *)
Fixpoint greedy (refIdx : nat) (refs : list Event) (committed : list MatchCandidate)
    : list MatchCandidate :=
  match refs with
  | [] => committed
  | refEvent :: refs' =>
      match select (survivors (map detectedIndex committed) refIdx refEvent) with
      | Some c => greedy (S refIdx) refs' (committed ++ [c])
      | None => greedy (S refIdx) refs' committed
      end
  end.

End Greedy.

(** The partition the reference algorithm produces. *)
Definition partition (haversine : JS.number -> JS.number -> JS.number -> JS.number -> JS.number)
    (depth_of : Event -> JS.number) (may_win : JS.number -> bool)
    (referenceEvents detectedEvents : list Event) (criteria : CriteriaArg) : MatchResult :=
  let matchingCriteria := spread defaultCriteria criteria in
  let matched :=
    greedy haversine depth_of may_win matchingCriteria detectedEvents 0 referenceEvents [] in
  let unmatchedRef :=
    filter_index (fun i => negb (bool_decide (i ∈ map referenceIndex matched)))
      0 referenceEvents in
  let unmatchedDet :=
    filter_index (fun j => negb (bool_decide (j ∈ map detectedIndex matched)))
      0 detectedEvents in
  {| matches := matched;
     unmatchedReference := unmatchedRef;
     unmatchedDetected := unmatchedDet;
     matchingCriteria := matchingCriteria;
     summary := {|
       totalReference := length referenceEvents;
       totalDetected := length detectedEvents;
       matchedPairs := length matched;
       sum_unmatchedReference := length unmatchedRef;
       sum_unmatchedDetected := length unmatchedDet
     |}
  |}.

(** The algorithm as the specification states it. *)
Definition as_stated haversine := partition haversine depth_if_missing any_score.

(** The algorithm with the two provisos the code adds. *)
Definition as_coded haversine := partition haversine depth_if_falsy below_infinity.

End Reference.

(** ** The metrics, as the specification words them *)

Module Statistics.

Import ComparisonService.

(** A ratio with the zero convention: it is 0 when its denominator is zero. *)
Definition ratio (num den : JS.number) : JS.number :=
  if is_zero den then 0%float else (num / den)%float.

(** A minimum of a list of numbers: one of them, with none below it. When
    one of the values is NaN, the minimum is NaN. *)
Definition least (values : list JS.number) (m : JS.number) : Prop :=
  if existsb is_nan values then is_nan m = true
  else m ∈ values /\ forall v, v ∈ values -> JS.lt v m = false.

(** A maximum, likewise. *)
Definition greatest (values : list JS.number) (m : JS.number) : Prop :=
  if existsb is_nan values then is_nan m = true
  else m ∈ values /\ forall v, v ∈ values -> JS.lt m v = false.

Section WithSquare.

Variable Math_pow : JS.number -> JS.number -> JS.number.

Definition square (x : JS.number) : JS.number := Math_pow x 2.

(** The sum of the values, added from left to right. *)
Definition total (values : list JS.number) : JS.number :=
  fold_left (fun sum val => (sum + val)%float) values 0%float.

Definition mean_of (values : list JS.number) : JS.number :=
  (total values / JS.of_nat (length values))%float.

(** The population standard deviation: the square root of the mean of the
    squared deviations from the mean. *)
Definition deviation_of (values : list JS.number) : JS.number :=
  sqrt (total (map (fun v => square (v - mean_of values)%float) values)
        / JS.of_nat (length values))%float.

(** The root of the mean of the squares. *)
Definition rms_of (values : list JS.number) : JS.number :=
  sqrt (total (map square values) / JS.of_nat (length values))%float.

(** The statistics of a list of values. *)
Definition describes (values : list JS.number) (s : Stats) : Prop :=
  count s = length values /\ mean s = mean_of values /\ stdDev s = deviation_of values /\
  rms s = rms_of values /\ least values (min s) /\ greatest values (max s).

(** The residual statistics of a non-empty list of matched pairs: those of
    the time differences, those of the distances, and those of the magnitude
    differences of the pairs that have one, which are absent when no pair
    has one. *)
Definition residuals_of (matched : list MatchCandidate) (r : ResidualStats) : Prop :=
  (exists s, res_time r = Some s /\ describes (map timeDiff matched) s) /\
  (exists s, res_distance r = Some s /\ describes (map distance matched) s) /\
  match omap magnitudeDiff matched with
  | [] => res_magnitude r = None
  | present => exists s, res_magnitude r = Some s /\ describes present s
  end.

End WithSquare.

End Statistics.

(** ** Definitions used in the proofs *)

Abbreviation distance_function :=
  (JS.number -> JS.number -> JS.number -> JS.number -> JS.number).

(** *** The order of binary64 values

    [SFcompare] orders the values that are not NaN as the lexicographic
    order of their ranks: the class first ([-Infinity], negative, zero,
    positive, [+Infinity]), then the exponent, then the mantissa. *)
Definition rank (x : spec_float) : Z * (Z * Z) :=
  match x with
  | S754_nan => (0, (0, 0))
  | S754_zero _ => (0, (0, 0))
  | S754_infinity true => (-2, (0, 0))
  | S754_infinity false => (2, (0, 0))
  | S754_finite true m e => (-1, (- e, - Z.pos m))
  | S754_finite false m e => (1, (e, Z.pos m))
  end%Z.

Definition lex_lt (a b : Z * (Z * Z)) : Prop :=
  (a.1 < b.1 \/ (a.1 = b.1 /\ (a.2.1 < b.2.1 \/ (a.2.1 = b.2.1 /\ a.2.2 < b.2.2))))%Z.

(** [x] is not NaN. *)
Definition is_num (x : JS.number) : Prop := Prim2SF x <> S754_nan.

(** *** Signs

    The shapes of the values that are not negative, with or without
    [+Infinity], and of the positive ones. *)
Definition nonneg (x : spec_float) : Prop :=
  match x with
  | S754_zero _ | S754_finite false _ _ | S754_infinity false => True
  | _ => False
  end.

Definition finite_nonneg (x : spec_float) : Prop :=
  match x with
  | S754_zero _ | S754_finite false _ _ => True
  | _ => False
  end.

Definition is_positive (x : spec_float) : Prop :=
  match x with
  | S754_finite false _ _ | S754_infinity false => True
  | _ => False
  end.

Definition finite_positive (x : spec_float) : Prop :=
  match x with
  | S754_finite false _ _ => True
  | _ => False
  end.

(** A rounded value is a zero, a finite value or an infinity of the sign that
    was asked for. *)
Definition rounded (s : bool) (x : spec_float) : Prop :=
  match x with
  | S754_zero s' | S754_infinity s' | S754_finite s' _ _ => s' = s
  | S754_nan => False
  end.

(** A positive normal value whose exponent lies in a range: its mantissa has
    53 binary digits. *)
Definition normal_in (lo hi : Z) (x : spec_float) : Prop :=
  exists m e, x = S754_finite false m e /\ Z.pos (digits2_pos m) = 53%Z /\ (lo <= e <= hi)%Z.

(** The length of a JavaScript array is below [2^32]. *)
Definition array_sized {A} (l : list A) : Prop := (Z.of_nat (length l) < 2 ^ 32)%Z.

(** The two tests of [Math.min] and [Math.max] on the signs of zeros. *)
Definition below_zero_sign (x lowest : JS.number) : bool :=
  match classify x, classify lowest with
  | NZero, PZero => true
  | _, _ => false
  end.

Definition above_zero_sign (x highest : JS.number) : bool :=
  match classify x, classify highest with
  | PZero, NZero => true
  | _, _ => false
  end.

(** An absolute difference and its positive threshold: a number that is not
    negative and a number above 0, which are not both infinite. *)
Definition measured_against (x t : JS.number) : Prop :=
  (0 <=? x)%float = true /\ (0 <? t)%float = true /\
  ((x <? infinity)%float = true \/ (t <? infinity)%float = true).

(** *** What the metrics calculator returns when it returns *)

Definition returned_stats (Math_pow : JS.number -> JS.number -> JS.number)
    (values : list JS.number) : ComparisonService.Stats :=
  let n := JS.of_nat (length values) in
  let mean := (fold_left (fun sum val => sum + val) values 0 / n)%float in
  {| ComparisonService.mean := mean;
     ComparisonService.stdDev :=
       sqrt (fold_left (fun sum val => sum + Math_pow (val - mean) 2) values 0 / n)%float;
     ComparisonService.rms :=
       sqrt (fold_left (fun sum val => sum + Math_pow val 2) values 0 / n)%float;
     ComparisonService.min := JS.Math_min values;
     ComparisonService.max := JS.Math_max values;
     ComparisonService.count := length values |}.

Definition returned_residuals (Math_pow : JS.number -> JS.number -> JS.number)
    (matched : list MatchCandidate) : option ComparisonService.ResidualStats :=
  match matched with
  | [] => None
  | _ :: _ =>
      Some {| ComparisonService.res_time := Some (returned_stats Math_pow (map timeDiff matched));
              ComparisonService.res_distance :=
                Some (returned_stats Math_pow (map distance matched));
              ComparisonService.res_magnitude :=
                match omap magnitudeDiff matched with
                | [] => None
                | present => Some (returned_stats Math_pow present)
                end |}
  end.

Definition returned_metrics (Math_pow : JS.number -> JS.number -> JS.number)
    (matchingResults : MatchResult) : ComparisonService.PerformanceMetrics :=
  let truePositives := length (matches matchingResults) in
  let falsePositives := length (unmatchedDetected matchingResults) in
  let falseNegatives := length (unmatchedReference matchingResults) in
  let precision :=
    JS.or_else
      (JS.of_nat truePositives /
       (JS.of_nat truePositives + JS.of_nat falsePositives))%float 0 in
  let recall :=
    JS.or_else
      (JS.of_nat truePositives /
       (JS.of_nat truePositives + JS.of_nat falseNegatives))%float 0 in
  {| ComparisonService.precision := precision;
     ComparisonService.recall := recall;
     ComparisonService.f1Score :=
       JS.or_else (2 * precision * recall / (precision + recall))%float 0;
     ComparisonService.detectionRate := recall;
     ComparisonService.falseAlarmRate :=
       JS.or_else
         (JS.of_nat falsePositives /
          (JS.of_nat truePositives + JS.of_nat falsePositives))%float 0;
     ComparisonService.truePositives := truePositives;
     ComparisonService.falsePositives := falsePositives;
     ComparisonService.falseNegatives := falseNegatives;
     ComparisonService.pm_totalReference := truePositives + falseNegatives;
     ComparisonService.pm_totalDetected := truePositives + falsePositives;
     ComparisonService.residualStats := returned_residuals Math_pow (matches matchingResults) |}.

(** *** The scan as a fold *)

(** What the scan does with a candidate that passed the filters. *)
Definition keep_best (st : EventMatcher.Best) (c : MatchCandidate) : EventMatcher.Best :=
  if JS.lt (matchScore c) (snd st) then (Some c, matchScore c) else st.

(** The two index sets of the outer loop hold the indices of the matches
    made so far. *)
Definition consistent (st : EventMatcher.Loop) : Prop :=
  EventMatcher.matchedDetIndices st =
    list_to_set (map detectedIndex (EventMatcher.loop_matches st)) /\
  EventMatcher.matchedRefIndices st =
    list_to_set (map referenceIndex (EventMatcher.loop_matches st)).

(** The matches made before reference index [i]: no detected index and no
    reference index occurs twice, and every index is in range. *)
Definition well_formed (dets : list Event) (i : nat) (committed : list MatchCandidate) : Prop :=
  NoDup (map detectedIndex committed) /\
  NoDup (map referenceIndex committed) /\
  forall m, m ∈ committed -> detectedIndex m < length dets /\ referenceIndex m < i.

(** Two distance functions agree on every pair of a reference event and a
    detected event. *)
Definition agree_on (hav1 hav2 : distance_function) (refs dets : list Event) : Prop :=
  forall r d, r ∈ refs -> d ∈ dets ->
    hav1 (latitude r) (longitude r) (latitude d) (longitude d) =
    hav2 (latitude r) (longitude r) (latitude d) (longitude d).

(** *** The algorithm as stated and the algorithm as coded *)

(** An event whose depth is missing or is a number other than zero. *)
Definition plain_depth (e : Event) : Prop :=
  forall z, depth_km e = Some z -> JS.truthy z = true.

(** The pairs of the two catalogs that pass the filters score below
    [+Infinity]. *)
Definition scores_below_infinity (haversine : distance_function) (criteria : MatchingCriteria)
    (dets refs : list Event) : Prop :=
  forall i r j d, r ∈ refs -> d ∈ dets ->
    Reference.rejected criteria
      (Reference.pairing haversine Reference.depth_if_missing criteria i r j d) = false ->
    Reference.below_infinity
      (matchScore (Reference.pairing haversine Reference.depth_if_missing criteria i r j d))
    = true.

(** *** What a comparison measures *)

(** The event with its [depth_km] property replaced. *)
Definition with_depth (e : Event) (depth : option JS.number) : Event :=
  {| event_id := event_id e; time := time e; latitude := latitude e;
     longitude := longitude e; depth_km := depth; magnitude := magnitude e |}.



(** The pairs of a result, as pairs of event identifiers. *)
Definition matched_ids (res : MatchResult) : list (string * string) :=
  map (fun m => (event_id (referenceEvent m), event_id (detectedEvent m))) (matches res).

(** *** Inputs of the examples

    The events of the examples lie at one point, latitude 35 and longitude
    139, where [haversine] returns 0. *)
Module Examples.

Definition epoch : JS.number := 1700000000000%float.

Definition quake : Event :=
  {| event_id := "quake"; time := epoch; latitude := 35; longitude := 139;
     depth_km := Some 10%float; magnitude := Some 4.2%float |}.

(** An event [seconds] after [epoch]. *)
Definition after (id : string) (seconds : JS.number) : Event :=
  {| event_id := id; time := (epoch + seconds * 1000)%float; latitude := 35;
     longitude := 139; depth_km := Some 10%float; magnitude := None |}.

(** An event whose time string does not parse. *)
Definition unparseable : Event :=
  {| event_id := "unparseable"; time := nan; latitude := 35; longitude := 139;
     depth_km := Some 10%float; magnitude := Some 4.2%float |}.

(** An event whose depth is NaN. *)
Definition undepthed : Event := with_depth quake (Some nan).

Definition surface : Event := with_depth quake (Some 0%float).
Definition deep : Event := with_depth quake (Some 55%float).

Definition no_criteria : CriteriaArg :=
  {| arg_timeWindow := None; arg_distanceThreshold := None;
     arg_magnitudeDiffThreshold := None; arg_depthDiffThreshold := None |}.

Definition zero_window : CriteriaArg :=
  {| arg_timeWindow := Some 0%float; arg_distanceThreshold := None;
     arg_magnitudeDiffThreshold := None; arg_depthDiffThreshold := None |}.

Definition negative_window : CriteriaArg :=
  {| arg_timeWindow := Some (-1)%float; arg_distanceThreshold := None;
     arg_magnitudeDiffThreshold := None; arg_depthDiffThreshold := None |}.

(** Two catalogs of two events each. *)
Definition first_catalog : list Event := [after "A" 0; after "B" 12].
Definition second_catalog : list Event := [after "X" 10; after "Y" 40].

(** A distance function that is 0 everywhere: it agrees with [haversine] on
    events that lie at one point. *)
Definition same_point : distance_function := fun _ _ _ _ => 0%float.

(** Two reference events and three candidates, the last of which is far from
    both in time, and the partition of the two catalogs. *)
Definition two_references : list Event := [after "A" 0; after "B" 100].
Definition three_candidates : list Event := [after "X" 10; after "Y" 110; after "Z" 1000].
Definition two_of_three : MatchResult :=
  Reference.as_coded same_point two_references three_candidates no_criteria.

(** A [Math.pow] that multiplies its first argument by itself, as fits the
    exponent 2. *)
Definition square_pow : JS.number -> JS.number -> JS.number := fun x _ => (x * x)%float.

(** The number of arguments that an engine accepts in a call; Node.js takes
    some hundred thousand with the stack it starts with. *)
Definition argument_limit : nat := N.to_nat 125632.

(** A result of [n] matches, all of them the pair of [quake] with itself. *)
Definition many_matches (n : nat) : MatchResult :=
  {| matches :=
       replicate n (Reference.pairing same_point Reference.depth_if_falsy
                      EventMatcher.defaultCriteria 0 quake 0 quake);
     unmatchedReference := [];
     unmatchedDetected := [];
     matchingCriteria := EventMatcher.defaultCriteria;
     summary := {| totalReference := n; totalDetected := n; matchedPairs := n;
                   sum_unmatchedReference := 0; sum_unmatchedDetected := 0 |} |}.

Definition at_the_point (e : Event) : Prop :=
  latitude e = 35%float /\ longitude e = 139%float.

End Examples.

(** * The other methods of the matcher, and the tool handler

    [findMultipleMatches], [analyzeMatchingQuality], the matcher's own
    [calculateStats], [filterMatchesByQuality] and [generateMatchingSummary]
    of class [EventMatcher], and the criteria that the [match_events] tool
    handler of the server hands to [matchEvents]. *)

(** ** More of the language *)

Module JSLib.

(** The number of a non-negative integer below [2^63]. *)
Definition of_Z (z : Z) : JS.number := PrimFloat.of_uint63 (Uint63.of_Z z).

(** [Math.floor]: a value whose exponent is not negative is an integer; the
    others have a mantissa below [2^53], whose quotient by the power of two
    is the integer part of the absolute value. *)
Definition Math_floor (x : JS.number) : JS.number :=
  match Prim2SF x with
  | S754_finite s m e =>
      if (0 <=? e)%Z then x
      else
        let q := (Z.pos m / 2 ^ (- e))%Z in
        if s then
          if (Z.pos m mod 2 ^ (- e) =? 0)%Z then (- of_Z q)%float
          else (- of_Z (q + 1))%float
        else of_Z q
  | _ => x
  end.

(** The array index that a number used as a property key denotes: the
    number is an integer from 0 to [2^32 - 2]. A positive value whose
    exponent is not negative is at least [2^52]. *)
Definition to_index (x : JS.number) : option nat :=
  match Prim2SF x with
  | S754_zero _ => Some 0
  | S754_finite false m e =>
      if (0 <=? e)%Z then None
      else if (Z.pos m mod 2 ^ (- e) =? 0)%Z then
        let v := (Z.pos m / 2 ^ (- e))%Z in
        if (v <? 2 ^ 32 - 1)%Z then Some (Z.to_nat v) else None
      else None
  | _ => None
  end.

(** [array[x]], which is [undefined] when [x] is not an index of the array. *)
Definition at_number {A : Type} (array : list A) (x : JS.number) : option A :=
  i ← to_index x; array !! i.

(** [ToNumber] of an array element that may be [undefined]. *)
Definition operand (x : option JS.number) : JS.number := default nan x.

End JSLib.

(** ** Event objects

    A property that may be missing ([undefined]), [null] or a value.
    [findMultipleMatches] tells a [magnitude] that is [null] from one that is
    missing: it tests [!== null] only. *)
Inductive Nullable (A : Type) : Type :=
| Undefined
| Null
| Value (x : A).
Global Arguments Undefined {A}.
Global Arguments Null {A}.
Global Arguments Value {A} x.

(** An event object with its [magnitude] property as it is; the other
    properties are those of [Event]. *)
Record EventObject : Type := {
  obj_event_id : string;
  obj_time : JS.number;
  obj_latitude : JS.number;
  obj_longitude : JS.number;
  obj_depth_km : option JS.number;
  obj_magnitude : Nullable JS.number
}.

(** ** [findMultipleMatches] *)

Module MultipleMatches.

Import EventMatcher.

(** An element of [candidateMatches]. *)
Record CandidateMatch : Type := {
  detectedIndex : nat;
  detectedEvent : EventObject;
  timeDiff : JS.number;
  distance : JS.number;
  magnitudeDiff : option JS.number;
  depthDiff : JS.number;
  matchScore : JS.number
}.

(** [p !== null] *)
Definition not_null {A : Type} (p : Nullable A) : bool :=
  match p with
  | Null => false
  | _ => true
  end.

(** [ToNumber] of a property: [undefined] is NaN and [null] is 0. *)
Definition to_number (p : Nullable JS.number) : JS.number :=
  match p with
  | Undefined => nan
  | Null => 0%float
  | Value x => x
  end.

Section WithBuiltins.

Variable haversine : JS.number -> JS.number -> JS.number -> JS.number -> JS.number.

(** [Array.prototype.sort] with a comparator: the language fixes its result
    for a consistent comparator only. *)
Variable Array_sort : forall A : Type, (A -> A -> JS.number) -> list A -> list A.

(** One iteration of the [for] loop: the candidate it pushes, or [None] when
    it ends in [continue]. *)
Definition candidate (criteria : MatchingCriteria) (referenceEvent : EventObject)
    (detIdx : nat) (detEvent : EventObject) : option CandidateMatch :=
  let timeDiff := (abs (obj_time referenceEvent - obj_time detEvent) / 1000)%float in
  if JS.gt timeDiff (timeWindow criteria) then None else
  let distance :=
    calculateDistance haversine (obj_latitude referenceEvent) (obj_longitude referenceEvent)
                      (obj_latitude detEvent) (obj_longitude detEvent) in
  if JS.gt distance (distanceThreshold criteria) then None else
  let magnitudeDiff :=
    if not_null (obj_magnitude referenceEvent) && not_null (obj_magnitude detEvent)
    then Some (abs (to_number (obj_magnitude referenceEvent)
                    - to_number (obj_magnitude detEvent)))%float
    else None in
  if match magnitudeDiff with
     | Some md => JS.gt md (magnitudeDiffThreshold criteria)
     | None => false
     end
  then None else
  let refDepth := JS.field_or_else (obj_depth_km referenceEvent) 10.0 in
  let detDepth := JS.field_or_else (obj_depth_km detEvent) 10.0 in
  let depthDiff := abs (refDepth - detDepth)%float in
  if JS.gt depthDiff (depthDiffThreshold criteria) then None else
  let score := calculateMatchScore timeDiff distance magnitudeDiff depthDiff criteria in
  Some {| detectedIndex := detIdx;
          detectedEvent := detEvent;
          timeDiff := timeDiff;
          distance := distance;
          magnitudeDiff := magnitudeDiff;
          depthDiff := depthDiff;
          matchScore := score |}.

(** The [for] loop from index [detIdx] on, [dets] being the detected events
    from that index. *)
Fixpoint collect (criteria : MatchingCriteria) (referenceEvent : EventObject)
    (detIdx : nat) (dets : list EventObject) (candidateMatches : list CandidateMatch)
    : list CandidateMatch :=
  match dets with
  | [] => candidateMatches
  | detEvent :: dets' =>
      collect criteria referenceEvent (S detIdx) dets'
        match candidate criteria referenceEvent detIdx detEvent with
        | Some c => candidateMatches ++ [c]
        | None => candidateMatches
        end
  end.

(** [findMultipleMatches]. [criteria] and [maxMatches] are [None] when the
    caller leaves them out; [maxMatches] is a count, for which
    [slice(0, maxMatches)] keeps that many elements from the start. *)
Definition findMultipleMatches (referenceEvent : EventObject)
    (detectedEvents : list EventObject) (criteria : option CriteriaArg)
    (maxMatches : option nat) : list CandidateMatch :=
  let matchingCriteria :=
    match criteria with
    | Some c => spread defaultCriteria c
    | None => defaultCriteria
    end in
  let candidateMatches := collect matchingCriteria referenceEvent 0 detectedEvents [] in
  take (default 3 maxMatches)
    (Array_sort _ (fun a b => (matchScore a - matchScore b)%float) candidateMatches).

End WithBuiltins.

End MultipleMatches.

(** ** The quality of a matching *)

Module MatchQuality.

(** What the matcher's [calculateStats] returns for a non-empty array. The
    fields read from [sorted] are [None] when the element read is
    [undefined]. *)
Record Stats : Type := {
  count : nat;
  mean : JS.number;
  stdDev : JS.number;
  min : option JS.number;
  max : option JS.number;
  median : option JS.number;
  p25 : option JS.number;
  p75 : option JS.number
}.

(** What [analyzeMatchingQuality] returns; [scoreStats] is [None] for an
    empty array, where the object has no such property. *)
Record Quality : Type := {
  averageScore : JS.number;
  scoreStats : option Stats;
  timeStats : option Stats;
  distanceStats : option Stats;
  magnitudeStats : option Stats
}.

Record Performance : Type := {
  precision : JS.number;
  recall : JS.number;
  matchingRate : JS.number
}.

Record MatchingSummary : Type := {
  ms_summary : Summary;
  ms_matchingCriteria : MatchingCriteria;
  quality : Quality;
  performance : Performance
}.

(** [filterMatchesByQuality]; [maxScore] is [None] when the caller leaves it
    out. *)
Definition filterMatchesByQuality (matches : list MatchCandidate)
    (maxScore : option JS.number) : list MatchCandidate :=
  List.filter (fun m => (matchScore m <=? default 1.0 maxScore)%float) matches.

Section WithBuiltins.

Variable Math_pow : JS.number -> JS.number -> JS.number.
Variable Array_sort : forall A : Type, (A -> A -> JS.number) -> list A -> list A.

(** [calculateStats] of the matcher. [sorted.length % 2 === 0] is the parity
    of the length. *)
Definition calculateStats (values : list JS.number) : option Stats :=
  match values with
  | [] => None
  | _ :: _ =>
      let sorted := Array_sort _ (fun a b => (a - b)%float) values in
      let n := JS.of_nat (length values) in
      let mean := (fold_left (fun sum val => sum + val) values 0 / n)%float in
      let variance :=
        (fold_left (fun sum val => sum + Math_pow (val - mean) 2) values 0 / n)%float in
      let stdDev := sqrt variance in
      let len := JS.of_nat (length sorted) in
      Some {| count := length values;
              mean := mean;
              stdDev := stdDev;
              min := sorted !! 0;
              max := JSLib.at_number sorted (len - 1)%float;
              median :=
                if Nat.even (length sorted)
                then Some ((JSLib.operand (JSLib.at_number sorted (len / 2 - 1)%float)
                            + JSLib.operand (JSLib.at_number sorted (len / 2)%float)) / 2)%float
                else JSLib.at_number sorted (JSLib.Math_floor (len / 2)%float);
              p25 := JSLib.at_number sorted (JSLib.Math_floor (len * 0.25)%float);
              p75 := JSLib.at_number sorted (JSLib.Math_floor (len * 0.75)%float) |}
  end.

(** [analyzeMatchingQuality] *)
Definition analyzeMatchingQuality (matches : list MatchCandidate) : Quality :=
  match matches with
  | [] =>
      {| averageScore := 0;
         scoreStats := None;
         timeStats := None;
         distanceStats := None;
         magnitudeStats := None |}
  | _ :: _ =>
      let scores := map matchScore matches in
      let timeResiduals := map timeDiff matches in
      let distanceResiduals := map distance matches in
      let magnitudeResiduals := omap magnitudeDiff matches in
      {| averageScore :=
           (fold_left (fun sum s => sum + s) scores 0 / JS.of_nat (length scores))%float;
         scoreStats := calculateStats scores;
         timeStats := calculateStats timeResiduals;
         distanceStats := calculateStats distanceResiduals;
         magnitudeStats :=
           match magnitudeResiduals with
           | [] => None
           | _ :: _ => calculateStats magnitudeResiduals
           end |}
  end.

(** [generateMatchingSummary] *)
Definition generateMatchingSummary (matchingResults : MatchResult) : MatchingSummary :=
  let matches := matches matchingResults in
  let summary := summary matchingResults in
  let matchingCriteria := matchingCriteria matchingResults in
  let quality := analyzeMatchingQuality matches in
  {| ms_summary := summary;
     ms_matchingCriteria := matchingCriteria;
     quality := quality;
     performance :=
       {| precision :=
            (JS.of_nat (matchedPairs summary)
             / (JS.of_nat (matchedPairs summary)
                + JS.of_nat (sum_unmatchedDetected summary)))%float;
          recall :=
            (JS.of_nat (matchedPairs summary)
             / (JS.of_nat (matchedPairs summary)
                + JS.of_nat (sum_unmatchedReference summary)))%float;
          matchingRate :=
            (JS.of_nat (matchedPairs summary) / JS.of_nat (totalReference summary))%float |}
  |}.

End WithBuiltins.

End MatchQuality.

(** ** The [match_events] tool *)

Module Server.

Import EventMatcher.

(** The thresholds among the arguments of the tool, [None] when the
    argument is left out. *)
Record MatchEventsArgs : Type := {
  time_window : option JS.number;
  distance_threshold : option JS.number;
  magnitude_diff_threshold : option JS.number
}.

(** The criteria object that [handleMatchEvents] builds. *)
Definition criteria_of (args : MatchEventsArgs) : CriteriaArg :=
  {| arg_timeWindow := Some (JS.field_or_else (time_window args) 30.0);
     arg_distanceThreshold := Some (JS.field_or_else (distance_threshold args) 10.0);
     arg_magnitudeDiffThreshold :=
       Some (JS.field_or_else (magnitude_diff_threshold args) 1.0);
     arg_depthDiffThreshold := None |}.

(** The call of [matchEvents] that [handleMatchEvents] makes once the two
    catalogs are read. *)
Definition handleMatchEvents_matching
    (haversine : JS.number -> JS.number -> JS.number -> JS.number -> JS.number)
    (referenceEvents detectedEvents : list Event) (args : MatchEventsArgs)
    : JS.Promise MatchResult :=
  matchEvents haversine referenceEvents detectedEvents (criteria_of args).

End Server.

(** A positive value that is [n / 2^j] exactly, in normal form. *)
Definition dyadic (j n : Z) (x : spec_float) : Prop :=
  exists m e, x = S754_finite false m e /\ Z.pos (digits2_pos m) = 53%Z /\
    (e + j <= 0)%Z /\ Z.pos m = (n * 2 ^ (- (e + j)))%Z.

(** A number that is neither NaN nor an infinity. *)
Definition finite_number (x : JS.number) : Prop :=
  match Prim2SF x with
  | S754_zero _ | S754_finite _ _ _ => True
  | _ => False
  end.

(** The integer of which a finite value is the multiple by [2^-1074]. *)
Definition scaled (x : spec_float) : Z :=
  match x with
  | S754_finite s m e => cond_Zopp s (Z.pos m * 2 ^ (e + 1074))
  | _ => 0
  end%Z.

(** A value of the sign [s] that is not a zero. *)
Definition strictly (s : bool) (x : spec_float) : Prop :=
  match x with
  | S754_finite s' _ _ | S754_infinity s' => s' = s
  | _ => False
  end.

(** A zero or a finite value, in the form that the binary64 format gives
    it. *)
Definition finite_valid (x : spec_float) : Prop :=
  match x with
  | S754_zero _ => True
  | S754_finite _ m e =>
      (-1074 <= e /\ Z.pos m < 2 ^ 53 /\ (e = -1074 \/ 2 ^ 52 <= Z.pos m))%Z
  | _ => False
  end.

(** *** Sorting

    A comparator is consistent for the elements of an array when it never
    returns NaN and [a =CF b] (the result is 0), [a <CF b] (it is negative)
    and [a >CF b] (it is positive) behave as an equivalence and two strict
    orders, as the language requires of it. *)
Definition consistent_comparator {A : Type} (cmp : A -> A -> JS.number) (l : list A) : Prop :=
  forall a b c, a ∈ l -> b ∈ l -> c ∈ l ->
    is_num (cmp a b) /\
    (cmp a a =? 0)%float = true /\
    ((cmp a b =? 0)%float = true -> (cmp b a =? 0)%float = true) /\
    ((cmp a b =? 0)%float = true -> (cmp b c =? 0)%float = true ->
       (cmp a c =? 0)%float = true) /\
    ((cmp a b <? 0)%float = true -> (cmp b c <? 0)%float = true ->
       (cmp a c <? 0)%float = true) /\
    ((0 <? cmp a b)%float = true -> (0 <? cmp b c)%float = true ->
       (0 <? cmp a c)%float = true).

(** What the language says of [Array.prototype.sort]: the sorted array holds
    the elements of the array, and for a consistent comparator no element
    comes after one that the comparator puts after it. *)
Definition sort_permutes (Array_sort : forall A : Type, (A -> A -> JS.number) -> list A -> list A)
    : Prop :=
  forall (A : Type) (cmp : A -> A -> JS.number) (l : list A), Array_sort A cmp l ≡ₚ l.

Definition sort_orders (Array_sort : forall A : Type, (A -> A -> JS.number) -> list A -> list A)
    : Prop :=
  forall (A : Type) (cmp : A -> A -> JS.number) (l : list A),
    consistent_comparator cmp l ->
    StronglySorted (fun a b => (cmp b a <? 0)%float = false) (Array_sort A cmp l).

(** A sort that can be run: the insertion sort, which is stable. *)
Module Insertion.

Fixpoint insert {A : Type} (cmp : A -> A -> JS.number) (x : A) (sorted : list A) : list A :=
  match sorted with
  | [] => [x]
  | y :: sorted' =>
      if (cmp y x <? 0)%float then y :: insert cmp x sorted' else x :: sorted
  end.

Fixpoint sort (A : Type) (cmp : A -> A -> JS.number) (l : list A) : list A :=
  match l with
  | [] => []
  | x :: l' => insert cmp x (sort A cmp l')
  end.

End Insertion.

(** The sorted copy that the matcher's [calculateStats] reads. *)
Definition sorted_copy (Array_sort : forall A : Type, (A -> A -> JS.number) -> list A -> list A)
    (values : list JS.number) : list JS.number :=
  Array_sort _ (fun a b => (a - b)%float) values.

(** The mean of the two middle elements of a sorted array of even length. *)
Definition middle_mean (sorted : list JS.number) : option JS.number :=
  a ← sorted !! (length sorted / 2 - 1);
  b ← sorted !! (length sorted / 2);
  Some ((a + b) / 2)%float.

(** *** The candidates of [findMultipleMatches] *)

(** No difference of the candidate exceeds its threshold. *)
Definition within (criteria : MatchingCriteria) (c : MultipleMatches.CandidateMatch) : Prop :=
  JS.gt (MultipleMatches.timeDiff c) (timeWindow criteria) = false /\
  JS.gt (MultipleMatches.distance c) (distanceThreshold criteria) = false /\
  (forall md, MultipleMatches.magnitudeDiff c = Some md ->
              JS.gt md (magnitudeDiffThreshold criteria) = false) /\
  JS.gt (MultipleMatches.depthDiff c) (depthDiffThreshold criteria) = false.

(** The criteria that [findMultipleMatches] uses. *)
Definition criteria_used (criteria : option CriteriaArg) : MatchingCriteria :=
  match criteria with
  | Some c => EventMatcher.spread EventMatcher.defaultCriteria c
  | None => EventMatcher.defaultCriteria
  end.

(** The candidates that the loop of [findMultipleMatches] pushes for the
    detected events from index [j] on. *)
Definition candidates_from (haversine : distance_function) (criteria : MatchingCriteria)
    (referenceEvent : EventObject) (j : nat) (dets : list EventObject)
    : list MultipleMatches.CandidateMatch :=
  omap (fun jd => MultipleMatches.candidate haversine criteria referenceEvent (fst jd) (snd jd))
    (Reference.indexed_from j dets).

(** The event object of an event whose magnitude is a number or [null]. *)
Definition as_object (e : Event) : EventObject :=
  {| obj_event_id := event_id e;
     obj_time := time e;
     obj_latitude := latitude e;
     obj_longitude := longitude e;
     obj_depth_km := depth_km e;
     obj_magnitude := match magnitude e with Some m => Value m | None => Null end |}.

(** The candidate of [findMultipleMatches] that a MatchCandidate of
    [matchEvents] corresponds to. *)
Definition as_candidate (m : MatchCandidate) : MultipleMatches.CandidateMatch :=
  {| MultipleMatches.detectedIndex := detectedIndex m;
     MultipleMatches.detectedEvent := as_object (detectedEvent m);
     MultipleMatches.timeDiff := timeDiff m;
     MultipleMatches.distance := distance m;
     MultipleMatches.magnitudeDiff := magnitudeDiff m;
     MultipleMatches.depthDiff := depthDiff m;
     MultipleMatches.matchScore := matchScore m |}.

(** *** Inputs of the examples of the other methods *)
Module Samples.

Definition five_values : list JS.number := [3; 1; 2; 5; 4]%float.

(** An event object without [magnitude] property. *)
Definition no_magnitude : EventObject :=
  {| obj_event_id := "bare"; obj_time := Examples.epoch; obj_latitude := 35;
     obj_longitude := 139; obj_depth_km := Some 10%float; obj_magnitude := Undefined |}.

(** The candidate that [findMultipleMatches] returns for it against
    [Examples.quake]. *)
Definition nan_candidate : MultipleMatches.CandidateMatch :=
  {| MultipleMatches.detectedIndex := 0;
     MultipleMatches.detectedEvent := as_object Examples.quake;
     MultipleMatches.timeDiff := 0;
     MultipleMatches.distance := 0;
     MultipleMatches.magnitudeDiff := Some nan;
     MultipleMatches.depthDiff := 0;
     MultipleMatches.matchScore := nan |}.

End Samples.

(** A distance function that returns no negative number. *)
Definition never_negative (haversine : distance_function) : Prop :=
  forall lat1 lon1 lat2 lon2, (haversine lat1 lon1 lat2 lon2 <? 0)%float = false.

(** * The CSV loader of the comparison service

    [loadFromCSV] and [standardizeEvent] of class
    [PhaseNetComparisonService]. *)

(** ** Strings *)

Module Text.

(** A string is the sequence of its UTF-16 code units. *)
Abbreviation JSString := (list N).

(** The string of an ASCII literal. *)
Definition lit (s : string) : JSString :=
  map Ascii.N_of_ascii (list_ascii_of_string s).

(** The code units that [trim] strips: white space (TAB, VT, FF, SP, NBSP,
    the space separators U+1680, U+2000 to U+200A, U+202F, U+205F and
    U+3000, and U+FEFF) and the line terminators (LF, CR, U+2028, U+2029). *)
Definition is_white_space (c : N) : bool :=
  ((9 <=? c) && (c <=? 13) || (c =? 32) || (c =? 160) || (c =? 5760)
   || (8192 <=? c) && (c <=? 8202) || (c =? 8232) || (c =? 8233)
   || (c =? 8239) || (c =? 8287) || (c =? 12288) || (c =? 65279))%N.

(** [String.prototype.trimStart] *)
Fixpoint trimStart (s : JSString) : JSString :=
  match s with
  | [] => []
  | c :: s' => if is_white_space c then trimStart s' else s
  end.

(** [String.prototype.trim] *)
Definition trim (s : JSString) : JSString :=
  reverse (trimStart (reverse (trimStart s))).

(** [s.split(separator)] for a separator of one code unit: the pieces
    between the separators, of which there is always at least one. *)
Fixpoint split (separator : N) (s : JSString) : list JSString :=
  match s with
  | [] => [[]]
  | c :: s' =>
      if (c =? separator)%N then [] :: split separator s'
      else
        match split separator s' with
        | piece :: pieces => (c :: piece) :: pieces
        | [] => [[c]]
        end
  end.

(** [s.includes(c)] for a string [c] of one code unit *)
Definition includes (c : N) (s : JSString) : bool := existsb (N.eqb c) s.

Definition line_feed : N := 10.
Definition carriage_return : N := 13.
Definition comma : N := 44.
Definition letter_T : N := 84.

End Text.

(** ** [standardizeEvent] and [loadFromCSV] *)

Module Loader.

Import Text.

(** The keys of [columnMapping], in the order of the object literal. *)
Inductive StandardName : Type :=
| Time | Latitude | Longitude | Depth_km | Magnitude | Event_id.

Definition columnMapping (standardName : StandardName) : list JSString :=
  match standardName with
  | Time => [lit "time"; lit "origin_time"; lit "datetime"; lit "event_time"]
  | Latitude => [lit "latitude"; lit "lat"; lit "event_latitude"]
  | Longitude => [lit "longitude"; lit "lon"; lit "lng"; lit "event_longitude"]
  | Depth_km => [lit "depth_km"; lit "depth"; lit "depth(km)"; lit "event_depth"]
  | Magnitude => [lit "magnitude"; lit "mag"; lit "event_magnitude"]
  | Event_id => [lit "event_id"; lit "id"; lit "idx"; lit "event_idx"]
  end.

(** The [row] object that [loadFromCSV] builds: its own properties, whose
    values are strings. A property set to [undefined] reads like a property
    that is not there, and is not kept. None of the names that
    [standardizeEvent] reads is a property of [Object.prototype], so that
    it reads own properties only. *)
Abbreviation Row := (gmap JSString JSString).

(** The event that [standardizeEvent] returns. [magnitude] is [None] when it
    is [null], [event_id] when the event has no such property. *)
Record StandardEvent : Type := {
  time : JSString;
  latitude : JS.number;
  longitude : JS.number;
  depth_km : JS.number;
  magnitude : option JS.number;
  event_id : option JSString
}.

(** The loop over [possibleNames] with its [break]: the value of the first
    name whose property is not [undefined], [null] or the empty string. *)
Fixpoint first_given (row : Row) (possibleNames : list JSString) : option JSString :=
  match possibleNames with
  | [] => None
  | name :: rest =>
      match row !! name with
      | Some (c :: v) => Some (c :: v)
      | _ => first_given row rest
      end
  end.

(** [row[header] = value], where [value] is a string or [undefined]. The
    name [__proto__] is the accessor of [Object.prototype], whose setter
    does nothing with such a value. *)
Definition set_property (header : JSString) (value : option JSString) (row : Row) : Row :=
  if bool_decide (header = lit "__proto__") then row
  else partial_alter (fun _ => value) header row.

(** [headers.forEach((header, index) => { row[header] = values[index]; })]
    from [index] on. *)
Fixpoint set_columns (values : list JSString) (index : nat) (headers : list JSString)
    (row : Row) : Row :=
  match headers with
  | [] => row
  | header :: rest =>
      set_columns values (S index) rest (set_property header (values !! index) row)
  end.

Section WithBuiltins.

Variable parseFloat : JSString -> JS.number.

(** [new Date(s).getTime()] for a string [s]: NaN when the string is not
    read as a date. *)
Variable Date_parse : JSString -> JS.number.

(** [toISOString] of the date of a time value that is not NaN. *)
Variable toISOString : JS.number -> JSString.

(** [standardizeEvent]. The conversions in its [try] block do not throw:
    [toISOString] is called on a valid date only. *)
Definition standardizeEvent (row : Row) : option StandardEvent :=
  let event := fun standardName => first_given row (columnMapping standardName) in
  match event Time, event Latitude, event Longitude with
  | Some event_time, Some event_latitude, Some event_longitude =>
      Some {| latitude := parseFloat event_latitude;
              longitude := parseFloat event_longitude;
              depth_km :=
                match event Depth_km with
                | Some event_depth_km => parseFloat event_depth_km
                | None => 10.0%float
                end;
              magnitude := parseFloat <$> event Magnitude;
              time :=
                if includes letter_T event_time then event_time
                else
                  let date := Date_parse event_time in
                  if PrimFloat.is_nan date then event_time else toISOString date;
              event_id := event Event_id |}
  | _, _, _ => None
  end.

(** The values of a line, and the row that they make under the headers. *)
Definition cells (line : JSString) : list JSString := map trim (split comma line).

Definition row_of (headers : list JSString) (line : JSString) : Row :=
  set_columns (cells line) 0 headers ∅.

(** [loadFromCSV], from the outcome of [fs.readFile(filePath, 'utf-8')]. An
    error of the [try] block, the one that it throws itself included, is
    caught and thrown again under a longer message. *)
Definition loadFromCSV (file : JS.Promise JSString) : JS.Promise (list StandardEvent) :=
  match file with
  | JS.Rejected message => JS.Rejected (String.append "Error reading CSV file: " message)
  | JS.Fulfilled content =>
      let lines := split line_feed (trim content) in
      if length lines <? 2 then
        JS.Rejected
          (String.append "Error reading CSV file: "
             "CSV file must have at least a header and one data row")
      else
        let headers := cells (hd [] lines) in
        JS.Fulfilled (omap (fun line => standardizeEvent (row_of headers line)) (tail lines))
  end.

End WithBuiltins.

End Loader.

(** The header names of a file. *)
Definition headers_of (content : Text.JSString) : list Text.JSString :=
  Loader.cells (hd [] (Text.split Text.line_feed (Text.trim content))).

(** One of the names is a header. *)
Definition has_column (headers names : list Text.JSString) : bool :=
  existsb (fun name => bool_decide (name ∈ headers)) names.

(** Every line feed with a carriage return before it, as in a file with
    Windows line endings. *)
Definition with_carriage_returns (s : Text.JSString) : Text.JSString :=
  flat_map (fun c => if (c =? Text.line_feed)%N then [Text.carriage_return; Text.line_feed]
                     else [c]) s.

(** A function that replaces white space by white space and keeps the
    other code units. *)
Definition keeps_white (f : N -> list N) : Prop :=
  forall c, if Text.is_white_space c
            then Forall (fun c' => Text.is_white_space c' = true) (f c)
            else f c = [c].

(** Builtins for the examples: [parseFloat] on strings of decimal digits
    (NaN on the others), an engine that reads no string as a date, and the
    ISO string of the time value 0. *)
Module CsvSamples.

Definition digit (c : N) : option Z :=
  if ((48 <=? c) && (c <=? 57))%N then Some (Z.of_N c - 48)%Z else None.

Definition parse_digits (s : Text.JSString) : JS.number :=
  match s with
  | [] => nan
  | _ :: _ =>
      match fold_left (fun n c => n ← n; d ← digit c; Some (10 * n + d)%Z) s (Some 0%Z) with
      | Some n => if (n <? 2 ^ 53)%Z then JSLib.of_Z n else nan
      | None => nan
      end
  end.

Definition no_date (s : Text.JSString) : JS.number := nan.

Definition epoch_string (t : JS.number) : Text.JSString := Text.lit "1970-01-01T00:00:00.000Z".

(** A file of two events with the columns for time, latitude and longitude
    only. *)
Definition three_columns : Text.JSString :=
  Text.lit "time,lat,lon" ++ [Text.line_feed] ++
  Text.lit "2024-01-01T00:00:00Z,35,139" ++ [Text.line_feed] ++
  Text.lit "2024-01-02T00:00:00Z,36,140" ++ [Text.line_feed].

Definition three_columns_events : list Loader.StandardEvent :=
  [ {| Loader.time := Text.lit "2024-01-01T00:00:00Z"; Loader.latitude := 35;
       Loader.longitude := 139; Loader.depth_km := 10; Loader.magnitude := None;
       Loader.event_id := None |};
    {| Loader.time := Text.lit "2024-01-02T00:00:00Z"; Loader.latitude := 36;
       Loader.longitude := 140; Loader.depth_km := 10; Loader.magnitude := None;
       Loader.event_id := None |} ].

End CsvSamples.

(** * The catalog downloader: [parseGeoJsonEvents]

    The features are those of a GeoJSON feed of earthquakes: the
    identifiers, the type of the magnitude, the place and the address are
    strings, the time, the magnitude and the coordinates are numbers, and
    each of them may be [null] or missing; a geometry that is there has an
    array of coordinates. *)

Module Catalog.

Import Text.

(** What a call throws: an [Error] with its message, a [TypeError] or a
    [RangeError], whose messages the engine words. *)
Inductive Thrown : Type :=
| Error (message : string)
| TypeError
| RangeError.

Inductive Outcome (A : Type) : Type :=
| Returns (value : A)
| Throws (thrown : Thrown).
Global Arguments Returns {A} value.
Global Arguments Throws {A} thrown.

(** [feature.properties] *)
Record Properties : Type := {
  props_ids : Nullable JSString;
  props_code : Nullable JSString;
  props_time : Nullable JS.number;
  props_mag : Nullable JS.number;
  props_magType : Nullable JSString;
  props_place : Nullable JSString;
  props_url : Nullable JSString
}.

(** A feature. [feature_properties] and [feature_coordinates], which is
    [feature.geometry.coordinates], are [None] when the properties,
    respectively the geometry, are [null] or missing; a coordinate is [None]
    when it is [null]. *)
Record Feature : Type := {
  feature_id : Nullable JSString;
  feature_properties : option Properties;
  feature_coordinates : option (list (option JS.number))
}.

(** The argument of [parseGeoJsonEvents]: [features] is [None] when
    [data.features] is falsy or no array. *)
Record GeoJson : Type := {
  features : option (list Feature)
}.

(** An event of the catalog. *)
Record CatalogEvent : Type := {
  event_id : Nullable JSString;
  time : JSString;
  latitude : Nullable JS.number;
  longitude : Nullable JS.number;
  depth_km : Nullable JS.number;
  magnitude : Nullable JS.number;
  magnitude_type : Nullable JSString;
  location : Nullable JSString;
  source : JSString;
  url : Nullable JSString
}.

(** [ToBoolean] *)
Definition string_truthy (s : Nullable JSString) : bool :=
  match s with
  | Value (_ :: _) => true
  | _ => false
  end.

Definition number_truthy (x : Nullable JS.number) : bool :=
  match x with
  | Value v => JS.truthy v
  | _ => false
  end.

(** [a || b] on strings *)
Definition string_or_else (a b : Nullable JSString) : Nullable JSString :=
  if string_truthy a then a else b.

(** [coords[i]] *)
Definition coordinate (coords : list (option JS.number)) (i : nat) : Nullable JS.number :=
  match coords !! i with
  | Some (Some x) => Value x
  | Some None => Null
  | None => Undefined
  end.

(** [TimeClip]: a time value is finite and at most [8.64e15] away from 0. *)
Definition date_valid (t : JS.number) : bool :=
  PrimFloat.is_finite t && (abs t <=? 8.64e15)%float.

(** The integral part of a number, and the time value that [TimeClip] makes
    of a valid one. *)
Definition truncate (t : JS.number) : JS.number :=
  if (t <? 0)%float then (- JSLib.Math_floor (- t))%float else JSLib.Math_floor t.

Definition time_value (t : JS.number) : JS.number := (truncate t + 0)%float.

Section WithBuiltins.

(** [toISOString] of the date of a time value that is not NaN. *)
Variable toISOString : JS.number -> JSString.

(** [new Date(value).toISOString()] for a value that is a number, [null]
    (the number 0) or [undefined] (NaN): a [RangeError] when the date is
    invalid. *)
Definition iso_string (value : Nullable JS.number) : Outcome JSString :=
  match value with
  | Undefined => Throws RangeError
  | Null => Returns (toISOString 0%float)
  | Value t => if date_valid t then Returns (toISOString (time_value t)) else Throws RangeError
  end.

(** The callback of [map]. Reading [coordinates] of a geometry, or [ids] of
    properties, that are [null] or missing is a [TypeError]. *)
Definition event_of (feature : Feature) : Outcome CatalogEvent :=
  match feature_coordinates feature with
  | None => Throws TypeError
  | Some coords =>
      match feature_properties feature with
      | None => Throws TypeError
      | Some props =>
          match iso_string (props_time props) with
          | Throws thrown => Throws thrown
          | Returns time =>
              Returns {| event_id :=
                           string_or_else (string_or_else (props_ids props) (props_code props))
                             (feature_id feature);
                         time := time;
                         latitude := coordinate coords 1;
                         longitude := coordinate coords 0;
                         depth_km := coordinate coords 2;
                         magnitude := props_mag props;
                         magnitude_type := props_magType props;
                         location := props_place props;
                         source := lit "USGS";
                         url := props_url props |}
          end
      end
  end.

(** [features.map(...)]: the first call that throws ends it. *)
Fixpoint map_features (features : list Feature) : Outcome (list CatalogEvent) :=
  match features with
  | [] => Returns []
  | feature :: rest =>
      match event_of feature with
      | Throws thrown => Throws thrown
      | Returns event =>
          match map_features rest with
          | Throws thrown => Throws thrown
          | Returns events => Returns (event :: events)
          end
      end
  end.

(** The callback of [filter] *)
Definition located (event : CatalogEvent) : bool :=
  number_truthy (latitude event) && number_truthy (longitude event)
  && string_truthy (Value (time event)) && number_truthy (magnitude event).

Definition parseGeoJsonEvents (data : GeoJson) : Outcome (list CatalogEvent) :=
  match features data with
  | None => Throws (Error "Invalid GeoJSON format: missing features array")
  | Some features =>
      match map_features features with
      | Throws thrown => Throws thrown
      | Returns events => Returns (List.filter located events)
      end
  end.

End WithBuiltins.

End Catalog.

(** The value is a number that is neither zero nor NaN. *)
Definition nonzero_number (x : Nullable JS.number) : Prop :=
  exists v, x = Value v /\ JS.truthy v = true.

(** The time of the properties makes a valid date. *)
Definition timed (props : Catalog.Properties) : Prop :=
  match Catalog.props_time props with
  | Undefined => False
  | Null => True
  | Value t => Catalog.date_valid t = true
  end.

(** The feature has properties, with such a time, and a geometry. *)
Definition well_formed_feature (feature : Catalog.Feature) : Prop :=
  Catalog.feature_coordinates feature <> None /\
  exists props, Catalog.feature_properties feature = Some props /\ timed props.

Module GeoSamples.

Definition quake_properties (mag : Nullable JS.number) : Catalog.Properties :=
  {| Catalog.props_ids := Value (Text.lit ",us7000abcd,");
     Catalog.props_code := Value (Text.lit "7000abcd");
     Catalog.props_time := Value 1700000000123%float;
     Catalog.props_mag := mag;
     Catalog.props_magType := Value (Text.lit "mb");
     Catalog.props_place := Undefined;
     Catalog.props_url := Undefined |}.

Definition quake_at (longitude latitude : JS.number) (mag : Nullable JS.number)
    : Catalog.Feature :=
  {| Catalog.feature_id := Value (Text.lit "us7000abcd");
     Catalog.feature_properties := Some (quake_properties mag);
     Catalog.feature_coordinates := Some [Some longitude; Some latitude; Some 10%float] |}.

(** A quake in Japan, one on the equator and one of magnitude 0. *)
Definition feed : Catalog.GeoJson :=
  {| Catalog.features :=
       Some [quake_at 139 35 (Value 4.5%float); quake_at 100 0 (Value 5%float);
             quake_at 140 36 (Value 0%float)] |}.

(** A feature without time and without magnitude. *)
Definition untimed : Catalog.Feature :=
  {| Catalog.feature_id := Value (Text.lit "us7000efgh");
     Catalog.feature_properties :=
       Some {| Catalog.props_ids := Undefined;
               Catalog.props_code := Undefined;
               Catalog.props_time := Undefined;
               Catalog.props_mag := Null;
               Catalog.props_magType := Undefined;
               Catalog.props_place := Undefined;
               Catalog.props_url := Undefined |};
     Catalog.feature_coordinates := Some [Some 139%float; Some 35%float; None] |}.

Definition feed_events : list Catalog.CatalogEvent :=
  [ {| Catalog.event_id := Value (Text.lit ",us7000abcd,");
       Catalog.time := CsvSamples.epoch_string 0;
       Catalog.latitude := Value 35%float;
       Catalog.longitude := Value 139%float;
       Catalog.depth_km := Value 10%float;
       Catalog.magnitude := Value 4.5%float;
       Catalog.magnitude_type := Value (Text.lit "mb");
       Catalog.location := Undefined;
       Catalog.source := Text.lit "USGS";
       Catalog.url := Undefined |} ].

End GeoSamples.

(** * Facts about binary64 values *)

Section FloatOrder.

Lemma SFltb_rank (x y : spec_float) :
  x <> S754_nan -> y <> S754_nan ->
  SFltb x y = true <-> lex_lt (rank x) (rank y).
Proof.
  intros Hx Hy. unfold SFltb, lex_lt.
  destruct x as [[]|[]| |[] m e], y as [[]|[]| |[] m' e']; try congruence;
    simpl; try (split; [ (discriminate || lia) | (intros; (reflexivity || lia)) ]).
  - destruct (Z.compare_spec e e'); change (Pos.compare_cont Eq m m') with (Pos.compare m m');
      try destruct (Pos.compare_spec m m'); simpl; split; (discriminate || lia || reflexivity).
  - destruct (Z.compare_spec e e'); change (Pos.compare_cont Eq m m') with (Pos.compare m m');
      try destruct (Pos.compare_spec m m'); simpl; split; (discriminate || lia || reflexivity).
Qed.

Lemma SFcompare_refl (x : spec_float) : x <> S754_nan -> SFcompare x x = Some Eq.
Proof.
  destruct x as [[]|[]| |[] m e]; try done; intros _; simpl;
    by rewrite Z.compare_refl, Pos.compare_cont_refl.
Qed.

Lemma Prim2SF_infinity : Prim2SF infinity = S754_infinity false.
Proof. reflexivity. Qed.

Lemma is_nan_spec (x : float) : is_nan x = true <-> Prim2SF x = S754_nan.
Proof.
  unfold is_nan. rewrite FloatAxioms.eqb_spec. unfold SFeqb. split.
  - intros H. destruct (Prim2SF x) eqn:E; try done; by rewrite SFcompare_refl in H.
  - by intros ->.
Qed.

Lemma is_nan_false (x : float) : is_nan x = false <-> is_num x.
Proof. unfold is_num. rewrite <- is_nan_spec. by destruct (is_nan x). Qed.

Lemma ltb_is_num (x y : float) : (x <? y)%float = true -> is_num x /\ is_num y.
Proof.
  rewrite FloatAxioms.ltb_spec. unfold is_num, SFltb.
  destruct (Prim2SF x), (Prim2SF y); simpl; intros; split; congruence.
Qed.

Lemma ltb_rank (x y : float) :
  is_num x -> is_num y ->
  (x <? y)%float = true <-> lex_lt (rank (Prim2SF x)) (rank (Prim2SF y)).
Proof. intros. rewrite FloatAxioms.ltb_spec. by apply SFltb_rank. Qed.

Lemma ltb_false_rank (x y : float) :
  is_num x -> is_num y ->
  (x <? y)%float = false <-> ~ lex_lt (rank (Prim2SF x)) (rank (Prim2SF y)).
Proof.
  intros Hx Hy. rewrite <- (ltb_rank x y Hx Hy). by destruct (x <? y)%float.
Qed.

Ltac rank_order :=
  unfold lex_lt in *;
  repeat match goal with
         | |- context [rank ?s] => destruct (rank s) as [? [? ?]]
         | H : context [rank ?s] |- _ => destruct (rank s) as [? [? ?]]
         end; simpl in *; lia.

Lemma ltb_irrefl (x : float) : (x <? x)%float = false.
Proof.
  destruct (x <? x)%float eqn:E; [|done].
  destruct (ltb_is_num _ _ E) as [Hx _].
  apply (ltb_rank x x Hx Hx) in E. rank_order.
Qed.

Lemma ltb_trans (x y z : float) :
  (x <? y)%float = true -> (y <? z)%float = true -> (x <? z)%float = true.
Proof.
  intros Hxy Hyz.
  destruct (ltb_is_num _ _ Hxy) as [Hx Hy], (ltb_is_num _ _ Hyz) as [_ Hz].
  apply ltb_rank in Hxy, Hyz; try done. apply ltb_rank; try done. rank_order.
Qed.

Lemma ltb_asym (x y : float) : (x <? y)%float = true -> (y <? x)%float = false.
Proof.
  intros Hxy. destruct (y <? x)%float eqn:E; [|done].
  by rewrite <- (ltb_irrefl x), <- (ltb_trans x y x).
Qed.

(** [x < y <= z] gives [x < z], [y <= z] being read off [z < y] when [z] is
    not NaN. *)
Lemma ltb_nlt_trans (x y z : float) :
  (x <? y)%float = true -> (z <? y)%float = false -> is_num z -> (x <? z)%float = true.
Proof.
  intros Hxy Hzy Hz. destruct (ltb_is_num _ _ Hxy) as [Hx Hy].
  apply ltb_rank in Hxy; try done. apply ltb_false_rank in Hzy; try done.
  apply ltb_rank; try done. rank_order.
Qed.

(** [x <= y < z] gives [x < z]. *)
Lemma nlt_ltb_trans (x y z : float) :
  (y <? x)%float = false -> (y <? z)%float = true -> is_num x -> (x <? z)%float = true.
Proof.
  intros Hyx Hyz Hx. destruct (ltb_is_num _ _ Hyz) as [Hy Hz].
  apply ltb_rank in Hyz; try done. apply ltb_false_rank in Hyx; try done.
  apply ltb_rank; try done. rank_order.
Qed.

(** A value that is not below [+Infinity] is NaN or [+Infinity]: it is below
    nothing. *)
Lemma not_below_infinity (s b : float) :
  (s <? infinity)%float = false -> (s <? b)%float = false.
Proof.
  rewrite !FloatAxioms.ltb_spec, Prim2SF_infinity. unfold SFltb.
  by destruct (Prim2SF s) as [[]|[]| |[] ? ?], (Prim2SF b) as [[]|[]| |[] ? ?].
Qed.

(** Two equal numbers: neither is below the other. *)
Lemma eqb_not_ltb (x y : float) : (x =? y)%float = true -> (y <? x)%float = false.
Proof.
  rewrite FloatAxioms.eqb_spec, FloatAxioms.ltb_spec. unfold SFeqb, SFltb.
  destruct (Prim2SF x) as [[]|[]| |[] m e], (Prim2SF y) as [[]|[]| |[] m' e']; simpl; try done.
  - change (Pos.compare_cont Eq m m') with (Pos.compare m m').
    change (Pos.compare_cont Eq m' m) with (Pos.compare m' m).
    destruct (Z.compare_spec e e'), (Z.compare_spec e' e); try lia; try done;
      destruct (Pos.compare_spec m m'), (Pos.compare_spec m' m); try lia; done.
  - change (Pos.compare_cont Eq m m') with (Pos.compare m m').
    change (Pos.compare_cont Eq m' m) with (Pos.compare m' m).
    destruct (Z.compare_spec e e'), (Z.compare_spec e' e); try lia; try done;
      destruct (Pos.compare_spec m m'), (Pos.compare_spec m' m); try lia; done.
Qed.

(** NaN propagates through the arithmetic operations. *)
Lemma add_is_num (x y : float) : is_num (x + y) -> is_num x /\ is_num y.
Proof.
  unfold is_num. rewrite add_spec.
  destruct (Prim2SF x), (Prim2SF y); simpl; intros H; split; congruence.
Qed.

Lemma sub_is_num (x y : float) : is_num (x - y) -> is_num x /\ is_num y.
Proof.
  unfold is_num. rewrite sub_spec.
  destruct (Prim2SF x), (Prim2SF y); simpl; intros H; split; congruence.
Qed.

Lemma mul_is_num (x y : float) : is_num (x * y) -> is_num x /\ is_num y.
Proof.
  unfold is_num. rewrite mul_spec.
  destruct (Prim2SF x), (Prim2SF y); simpl; intros H; split; congruence.
Qed.

Lemma div_is_num (x y : float) : is_num (x / y) -> is_num x /\ is_num y.
Proof.
  unfold is_num. rewrite div_spec.
  destruct (Prim2SF x), (Prim2SF y); simpl; intros H; split; congruence.
Qed.

Lemma abs_is_num (x : float) : is_num (abs x) -> is_num x.
Proof.
  unfold is_num. rewrite abs_spec. destruct (Prim2SF x); simpl; congruence.
Qed.

End FloatOrder.

(** ** Signs of rounded values *)

Section Rounding.

Lemma shr_1_nonneg (mrs : shr_record) : (0 <= shr_m mrs -> 0 <= shr_m (shr_1 mrs))%Z.
Proof. destruct mrs as [[|[p|p|]|p] r s]; simpl; lia. Qed.

Lemma iter_pos_shr_1_nonneg (n : positive) (mrs : shr_record) :
  (0 <= shr_m mrs -> 0 <= shr_m (SpecFloat.iter_pos shr_1 n mrs))%Z.
Proof.
  revert mrs. induction n as [n IH|n IH|]; intros mrs H; simpl.
  - by apply IH, IH, shr_1_nonneg.
  - by apply IH, IH.
  - by apply shr_1_nonneg.
Qed.

Lemma shr_record_of_loc_m (m : Z) (l : location) : shr_m (shr_record_of_loc m l) = m.
Proof. by destruct l as [|[]]. Qed.

Lemma shr_fexp_nonneg (m e : Z) (l : location) :
  (0 <= m -> 0 <= shr_m (fst (shr_fexp prec emax m e l)))%Z.
Proof.
  intros H. unfold shr_fexp, shr. destruct (_ - e)%Z; simpl; rewrite ?shr_record_of_loc_m; try done.
  apply iter_pos_shr_1_nonneg. by rewrite shr_record_of_loc_m.
Qed.

Lemma round_nearest_even_nonneg (m : Z) (l : location) :
  (0 <= m -> 0 <= round_nearest_even m l)%Z.
Proof. intros H. destruct l as [|[]]; simpl; try done; [destruct (Z.even m)|]; lia. Qed.

Lemma binary_round_aux_rounded (s : bool) (m e : Z) (l : location) :
  (0 <= m)%Z -> rounded s (binary_round_aux prec emax s m e l).
Proof.
  intros H. unfold binary_round_aux.
  pose proof (shr_fexp_nonneg m e l H) as H1.
  destruct (shr_fexp prec emax m e l) as [mrs' e']. simpl in H1.
  pose proof (shr_fexp_nonneg _ e' loc_Exact
                (round_nearest_even_nonneg _ (loc_of_shr_record mrs') H1)) as H2.
  destruct (shr_fexp prec emax _ e' loc_Exact) as [mrs'' e'']. simpl in H2.
  destruct (shr_m mrs''); simpl; [done| |lia]. by destruct (_ <=? _)%Z.
Qed.

Lemma binary_round_rounded (s : bool) (m : positive) (e : Z) :
  rounded s (binary_round prec emax s m e).
Proof.
  unfold binary_round. destruct (shl_align _ _ _) as [mz ez].
  by apply binary_round_aux_rounded.
Qed.

Lemma SFdiv_nonneg (x y : spec_float) :
  nonneg x -> is_positive y -> finite_nonneg x \/ finite_positive y ->
  nonneg (SFdiv prec emax x y).
Proof.
  destruct x as [sx|[]| |[] mx ex], y as [sy|[]| |[] my ey]; try done;
    intros _ _ Hf; simpl; try done; try (by destruct Hf).
  unfold SFdiv_core_binary.
  set (m' := match _ with Z.pos _ => Z.shiftl (Z.pos mx) _ | Z0 => Z.pos mx | Z.neg _ => 0%Z end).
  assert (0 <= m')%Z as Hm'.
  { subst m'. destruct (_ - _)%Z; try done. by apply Z.shiftl_nonneg. }
  pose proof (Z.div_pos m' (Z.pos my) Hm' eq_refl) as Hq.
  unfold Z.div in Hq. destruct (Z.div_eucl m' (Z.pos my)) as [q r]. simpl in Hq.
  pose proof (binary_round_aux_rounded false q
    (Z.min (fexp prec emax (Z.pos (digits2_pos mx) + ex - (Z.pos (digits2_pos my) + ey)))
       (ex - ey)) (new_location (Z.pos my) r) Hq) as H.
  simpl in *. destruct (binary_round_aux _ _ _ _ _ _) as [s|s| |s ? ?]; simpl in *; by subst.
Qed.

Lemma SFmul_nonneg (x y : spec_float) :
  nonneg x -> finite_positive y -> nonneg (SFmul prec emax x y).
Proof.
  destruct x as [sx|[]| |[] mx ex], y as [sy|sy| |[] my ey]; try done; intros _ _; simpl.
  pose proof (binary_round_aux_rounded false (Z.pos (mx * my)) (ex + ey) loc_Exact
                (Pos2Z.is_nonneg _)) as H.
  destruct (binary_round_aux _ _ _ _ _ _) as [s|s| |s ? ?]; simpl in *; by subst.
Qed.

Lemma SFadd_nonneg (x y : spec_float) :
  nonneg x -> nonneg y -> nonneg (SFadd prec emax x y).
Proof.
  destruct x as [[]|[]| |[] mx ex], y as [[]|[]| |[] my ey]; try done; intros _ _; simpl.
  pose proof (binary_round_rounded false
    (fst (shl_align mx ex (Z.min ex ey)) + fst (shl_align my ey (Z.min ex ey))) (Z.min ex ey)) as H.
  destruct (binary_round _ _ _ _ _) as [s|s| |s ? ?]; simpl in *; by subst.
Qed.

End Rounding.

Lemma leb_zero_nonneg (x : float) : (0 <=? x)%float = true <-> nonneg (Prim2SF x).
Proof.
  rewrite FloatAxioms.leb_spec. change (Prim2SF 0) with (S754_zero false).
  by destruct (Prim2SF x) as [[]|[]| |[] ? ?].
Qed.

Lemma ltb_infinity_finite (x : float) :
  (x <? infinity)%float = true -> nonneg (Prim2SF x) -> finite_nonneg (Prim2SF x).
Proof.
  rewrite FloatAxioms.ltb_spec, Prim2SF_infinity.
  by destruct (Prim2SF x) as [[]|[]| |[] ? ?].
Qed.

Lemma ltb_zero_positive (x : float) : (0 <? x)%float = true <-> is_positive (Prim2SF x).
Proof.
  rewrite FloatAxioms.ltb_spec. change (Prim2SF 0) with (S754_zero false).
  by destruct (Prim2SF x) as [[]|[]| |[] ? ?].
Qed.

Lemma div_nonneg (x t : float) : measured_against x t -> nonneg (Prim2SF (x / t)).
Proof.
  intros (Hx%leb_zero_nonneg & Ht%ltb_zero_positive & Hf).
  rewrite div_spec. apply SFdiv_nonneg; [done|done|].
  destruct Hf as [Hf|Hf]; [left; by apply ltb_infinity_finite|right].
  rewrite FloatAxioms.ltb_spec, Prim2SF_infinity in Hf.
  by destruct (Prim2SF t) as [[]|[]| |[] ? ?].
Qed.

Lemma mul_nonneg (x w : float) :
  nonneg (Prim2SF x) -> finite_positive (Prim2SF w) -> nonneg (Prim2SF (x * w)).
Proof. intros Hx Hw. rewrite mul_spec. by apply SFmul_nonneg. Qed.

Lemma add_nonneg (x y : float) :
  nonneg (Prim2SF x) -> nonneg (Prim2SF y) -> nonneg (Prim2SF (x + y)).
Proof. intros Hx Hy. rewrite add_spec. by apply SFadd_nonneg. Qed.

(** ** Normal values

    Away from the smallest and the largest exponents, the operations on
    positive normal values return positive normal values, whose exponents
    are bounded here. *)

Section Normal.

Local Open Scope Z_scope.

Lemma digits2_pos_bounds (p : positive) :
  2 ^ (Z.pos (digits2_pos p) - 1) <= Z.pos p < 2 ^ Z.pos (digits2_pos p).
Proof.
  induction p as [p IH|p IH|]; simpl digits2_pos.
  - rewrite Pos2Z.inj_succ, Z.pow_succ_r by lia.
    replace (Z.succ (Z.pos (digits2_pos p)) - 1) with (Z.succ (Z.pos (digits2_pos p) - 1)) by lia.
    rewrite Z.pow_succ_r by lia. lia.
  - rewrite Pos2Z.inj_succ, Z.pow_succ_r by lia.
    replace (Z.succ (Z.pos (digits2_pos p)) - 1) with (Z.succ (Z.pos (digits2_pos p) - 1)) by lia.
    rewrite Z.pow_succ_r by lia. lia.
  - simpl. lia.
Qed.

Lemma digits2_pos_unique (p : positive) (d : Z) :
  2 ^ (d - 1) <= Z.pos p < 2 ^ d -> 0 < d -> Z.pos (digits2_pos p) = d.
Proof.
  intros [Hlo Hhi] Hd. pose proof (digits2_pos_bounds p) as [Hlo' Hhi'].
  destruct (Z.lt_trichotomy (Z.pos (digits2_pos p)) d) as [H|[H|H]]; [|done|].
  - assert (2 ^ Z.pos (digits2_pos p) <= 2 ^ (d - 1)) by (apply Z.pow_le_mono_r; lia). lia.
  - assert (2 ^ d <= 2 ^ (Z.pos (digits2_pos p) - 1)) by (apply Z.pow_le_mono_r; lia). lia.
Qed.

Lemma shr_1_m (mrs : shr_record) : 0 <= shr_m mrs -> shr_m (shr_1 mrs) = shr_m mrs / 2.
Proof.
  destruct mrs as [[|[p|p|]|p] r s]; simpl; intros H; try done.
  - rewrite Pos2Z.inj_xI. apply Z.div_unique with (r := 1); lia.
  - rewrite Pos2Z.inj_xO. apply Z.div_unique with (r := 0); lia.
Qed.

Lemma iter_pos_shr_1_m (n : positive) (mrs : shr_record) :
  0 <= shr_m mrs -> shr_m (SpecFloat.iter_pos shr_1 n mrs) = shr_m mrs / 2 ^ Z.pos n.
Proof.
  revert mrs. induction n as [n IH|n IH|]; intros mrs H; simpl SpecFloat.iter_pos.
  - rewrite IH, IH, shr_1_m; try done.
    + rewrite !Z.div_div by lia. f_equal.
      rewrite (Pos2Z.inj_xI n), Z.add_1_r, Z.pow_succ_r, Z.pow_twice_r by lia. ring.
    + by apply shr_1_nonneg.
    + by apply iter_pos_shr_1_nonneg, shr_1_nonneg.
  - rewrite IH, IH; try done.
    + rewrite !Z.div_div by lia. f_equal.
      rewrite (Pos2Z.inj_xO n), Z.pow_twice_r. ring.
    + by apply iter_pos_shr_1_nonneg.
  - rewrite shr_1_m by done. by rewrite Z.pow_1_r.
Qed.

Lemma fexp_normal (e : Z) : -1021 <= e -> fexp prec emax e = e - 53.
Proof. intros H. unfold fexp, emin. change prec with 53. change emax with 1024. lia. Qed.

Lemma shr_fexp_normal (m : positive) (e : Z) (l : location) :
  53 <= Z.pos (digits2_pos m) -> -1021 <= Z.pos (digits2_pos m) + e ->
  exists mrs,
    shr_fexp prec emax (Z.pos m) e l = (mrs, e + (Z.pos (digits2_pos m) - 53)) /\
    shr_m mrs = Z.pos m / 2 ^ (Z.pos (digits2_pos m) - 53).
Proof.
  intros Hd He. unfold shr_fexp. simpl Zdigits2. rewrite fexp_normal by done.
  replace (Z.pos (digits2_pos m) + e - 53 - e) with (Z.pos (digits2_pos m) - 53) by lia.
  destruct (Z.pos (digits2_pos m) - 53) as [|k|k] eqn:E; [| |lia]; simpl shr.
  - eexists. split; [by rewrite Z.add_0_r|].
    by rewrite shr_record_of_loc_m, Z.pow_0_r, Z.div_1_r.
  - eexists. split; [done|].
    rewrite iter_pos_shr_1_m; by rewrite shr_record_of_loc_m.
Qed.

Lemma round_nearest_even_bounds (m : Z) (l : location) :
  m <= round_nearest_even m l <= m + 1.
Proof. destruct l as [|[]]; simpl; try lia. destruct (Z.even m); lia. Qed.

(** Rounding a positive mantissa of at least 53 digits, away from the
    smallest and the largest exponents, gives a normal value. *)
Lemma binary_round_aux_normal (s : bool) (m : positive) (e : Z) (l : location) :
  53 <= Z.pos (digits2_pos m) ->
  -1021 <= Z.pos (digits2_pos m) + e -> Z.pos (digits2_pos m) + e <= 1022 ->
  exists m' e',
    binary_round_aux prec emax s (Z.pos m) e l = S754_finite s m' e' /\
    Z.pos (digits2_pos m') = 53 /\
    e + (Z.pos (digits2_pos m) - 53) <= e' <= e + (Z.pos (digits2_pos m) - 53) + 1.
Proof.
  intros Hd Hlo Hhi. unfold binary_round_aux.
  destruct (shr_fexp_normal m e l Hd Hlo) as (mrs & -> & Hm1).
  set (d := Z.pos (digits2_pos m)) in *.
  set (e1 := e + (d - 53)).
  pose proof (digits2_pos_bounds m) as [Hb1 Hb2]. fold d in Hb1, Hb2.
  assert (0 < 2 ^ (d - 53)) as HP by (apply Z.pow_pos_nonneg; lia).
  assert (2 ^ (d - 1) = 2 ^ 52 * 2 ^ (d - 53)) as E1.
  { rewrite <- Z.pow_add_r by lia. f_equal. lia. }
  assert (2 ^ d = 2 ^ 53 * 2 ^ (d - 53)) as E2.
  { rewrite <- Z.pow_add_r by lia. f_equal. lia. }
  assert (2 ^ 52 <= shr_m mrs < 2 ^ 53) as [Hm1lo Hm1hi].
  { rewrite Hm1. split.
    - apply Z.div_le_lower_bound; lia.
    - apply Z.div_lt_upper_bound; lia. }
  pose proof (round_nearest_even_bounds (shr_m mrs) (loc_of_shr_record mrs)) as [Hr1 Hr2].
  destruct (round_nearest_even (shr_m mrs) (loc_of_shr_record mrs)) as [|m2|m2] eqn:Em2;
    [lia| |lia].
  assert (Z.pos (digits2_pos m2) = 53 \/ (Z.pos (digits2_pos m2) = 54 /\ Z.pos m2 = 2 ^ 53))
    as Hd2.
  { destruct (Z.eq_dec (Z.pos m2) (2 ^ 53)) as [E|E].
    - right. split; [|done]. apply digits2_pos_unique; lia.
    - left. apply digits2_pos_unique; lia. }
  destruct (shr_fexp_normal m2 e1 loc_Exact) as (mrs2 & -> & Hm3); [lia|subst e1; lia|].
  assert (2 ^ 52 <= shr_m mrs2 < 2 ^ 53) as [Hm3lo Hm3hi].
  { rewrite Hm3. pose proof (digits2_pos_bounds m2) as [_ Hb3].
    destruct Hd2 as [E|[E E']]; rewrite E in *.
    - rewrite Z.sub_diag, Z.pow_0_r, Z.div_1_r. lia.
    - rewrite E'. change (54 - 53) with 1. rewrite Z.pow_1_r.
      change (2 ^ 53 / 2) with (2 ^ 52). lia. }
  destruct (shr_m mrs2) as [|m3|m3] eqn:Em3; [lia| |lia].
  rewrite (proj2 (Z.leb_le _ _)).
  - exists m3, (e1 + (Z.pos (digits2_pos m2) - 53)). split_and!; [done| |subst e1; lia..].
    apply digits2_pos_unique; lia.
  - change (emax - prec) with 971. subst e1. lia.
Qed.

Lemma digits2_pos_ge (p : positive) (a : Z) :
  0 <= a -> 2 ^ a <= Z.pos p -> a + 1 <= Z.pos (digits2_pos p).
Proof.
  intros Ha H. pose proof (digits2_pos_bounds p) as [_ Hhi].
  assert (a < Z.pos (digits2_pos p)); [|lia].
  apply (Z.pow_lt_mono_r_iff 2); lia.
Qed.

Lemma digits2_pos_le (p : positive) (b : Z) :
  0 <= b -> Z.pos p < 2 ^ b -> Z.pos (digits2_pos p) <= b.
Proof.
  intros Hb H. pose proof (digits2_pos_bounds p) as [Hlo _].
  assert (Z.pos (digits2_pos p) - 1 < b); [|lia].
  apply (Z.pow_lt_mono_r_iff 2); lia.
Qed.

Lemma normal_bounds (m : positive) :
  Z.pos (digits2_pos m) = 53 -> 2 ^ 52 <= Z.pos m < 2 ^ 53.
Proof. intros H. pose proof (digits2_pos_bounds m) as Hb. by rewrite H in Hb. Qed.

Lemma SFmul_normal (lx hx ly hy : Z) (x y : spec_float) :
  normal_in lx hx x -> normal_in ly hy y ->
  -1000 <= lx + ly -> hx + hy <= 900 ->
  normal_in (lx + ly + 52) (hx + hy + 54) (SFmul prec emax x y).
Proof.
  intros (mx & ex & -> & Hdx & Hex) (my & ey & -> & Hdy & Hey) Hlo Hhi. simpl.
  apply normal_bounds in Hdx as [Hx1 Hx2], Hdy as [Hy1 Hy2].
  assert (2 ^ 104 <= Z.pos (mx * my) < 2 ^ 106) as [Hm1 Hm2].
  { rewrite Pos2Z.inj_mul. change (2 ^ 104) with (2 ^ 52 * 2 ^ 52).
    change (2 ^ 106) with (2 ^ 53 * 2 ^ 53). nia. }
  apply digits2_pos_ge in Hm1; [|lia]. apply digits2_pos_le in Hm2; [|lia].
  destruct (binary_round_aux_normal false (mx * my) (ex + ey) loc_Exact)
    as (m' & e' & -> & Hd' & He'); [lia..|].
  exists m', e'. split_and!; [done|done|lia..].
Qed.

Lemma SFdiv_normal (lx hx ly hy : Z) (x y : spec_float) :
  normal_in lx hx x -> normal_in ly hy y ->
  -900 <= lx - hy -> hx - ly <= 900 ->
  normal_in (lx - hy - 53) (hx - ly - 51) (SFdiv prec emax x y).
Proof.
  intros (mx & ex & -> & Hdx & Hex) (my & ey & -> & Hdy & Hey) Hlo Hhi. simpl.
  unfold SFdiv_core_binary. simpl Zdigits2. rewrite Hdx, Hdy.
  replace (53 + ex - (53 + ey)) with (ex - ey) by lia.
  rewrite fexp_normal, Z.min_l by lia.
  replace (ex - ey - (ex - ey - 53)) with 53 by lia. cbv iota.
  rewrite Z.shiftl_mul_pow2 by lia.
  apply normal_bounds in Hdx as [Hx1 Hx2], Hdy as [Hy1 Hy2].
  pose proof (Z_div_mod (Z.pos mx * 2 ^ 53) (Z.pos my) eq_refl) as Hqr.
  destruct (Z.div_eucl (Z.pos mx * 2 ^ 53) (Z.pos my)) as [q r]. destruct Hqr as [Hq Hr].
  assert (2 ^ 52 <= q < 2 ^ 54) as [Hq1 Hq2].
  { change (2 ^ 54) with (2 * 2 ^ 53). split; nia. }
  destruct q as [|q|q]; [lia| |lia].
  apply digits2_pos_ge in Hq1; [|lia]. apply digits2_pos_le in Hq2; [|lia].
  destruct (binary_round_aux_normal false q (ex - ey - 53) (new_location (Z.pos my) r))
    as (m' & e' & -> & Hd' & He'); [lia..|].
  exists m', e'. split_and!; [done|done|lia..].
Qed.

Lemma Pos_iter_xO (m d : positive) : Z.pos (Pos.iter xO m d) = Z.pos m * 2 ^ Z.pos d.
Proof.
  induction d as [|d IH] using Pos.peano_ind.
  - simpl. lia.
  - rewrite Pos.iter_succ, Pos2Z.inj_xO, IH, Pos2Z.inj_succ, Z.pow_succ_r by lia. ring.
Qed.

Lemma shl_align_id (m : positive) (e e' : Z) : e <= e' -> shl_align m e e' = (m, e).
Proof. intros H. unfold shl_align. destruct (e' - e) eqn:E; try done. lia. Qed.

Lemma shl_align_shift (m : positive) (e e' : Z) :
  e' <= e ->
  exists m', shl_align m e e' = (m', if Z.eq_dec e' e then e else e') /\
    Z.pos m' = Z.pos m * 2 ^ (e - e').
Proof.
  intros H. unfold shl_align. destruct (e' - e) as [|d|d] eqn:E; [| lia |].
  - exists m. assert (e' = e) as -> by lia. rewrite Z.sub_diag, Z.pow_0_r.
    destruct (Z.eq_dec e e); [|done]. split; [done|lia].
  - exists (Pos.iter xO m d). destruct (Z.eq_dec e' e); [lia|]. split; [done|].
    rewrite Pos_iter_xO. f_equal. f_equal. lia.
Qed.

Lemma SFadd_normal (lx hx ly hy : Z) (x y : spec_float) :
  normal_in lx hx x -> normal_in ly hy y ->
  -900 <= lx -> -900 <= ly -> hx <= 900 -> hy <= 900 ->
  normal_in (Z.max lx ly) (Z.max hx hy + 2) (SFadd prec emax x y).
Proof.
  intros (mx & ex & -> & Hdx & Hex) (my & ey & -> & Hdy & Hey) Hlx Hly Hhx Hhy. simpl.
  apply normal_bounds in Hdx as [Hx1 Hx2], Hdy as [Hy1 Hy2].
  set (ez := Z.min ex ey).
  destruct (shl_align_shift mx ex ez) as (ax & -> & Hax); [lia|].
  destruct (shl_align_shift my ey ez) as (ay & -> & Hay); [lia|].
  simpl fst. change (Z.pos ax + Z.pos ay) with (Z.pos (ax + ay)). simpl binary_normalize.
  set (D := Z.max ex ey - ez).
  assert (0 <= D) as HD by lia.
  assert (0 < 2 ^ (ex - ez) /\ 0 < 2 ^ (ey - ez)) as [Hpx Hpy]
    by (split; apply Z.pow_pos_nonneg; lia).
  assert (2 ^ (52 + D) <= Z.pos (ax + ay) < 2 ^ (54 + D)) as [Hs1 Hs2].
  { rewrite Pos2Z.inj_add, Hax, Hay.
    replace (54 + D) with (1 + (53 + D)) by lia.
    rewrite !Z.pow_add_r, Z.pow_1_r by lia.
    destruct (Z.le_ge_cases ex ey) as [Hle|Hle].
    - assert (ex - ez = 0) as -> by lia. assert (ey - ez = D) as -> by lia.
      rewrite Z.pow_0_r. assert (1 <= 2 ^ D) by lia. nia.
    - assert (ey - ez = 0) as -> by lia. assert (ex - ez = D) as -> by lia.
      rewrite Z.pow_0_r. assert (1 <= 2 ^ D) by lia. nia. }
  apply digits2_pos_ge in Hs1; [|lia]. apply digits2_pos_le in Hs2; [|lia].
  unfold binary_round.
  rewrite shl_align_id by (rewrite fexp_normal; lia).
  destruct (binary_round_aux_normal false (ax + ay) ez loc_Exact)
    as (m' & e' & -> & Hd' & He'); [lia..|].
  exists m', e'. split_and!; [done|done|lia..].
Qed.

Lemma binary_round_normal (p : positive) :
  Z.pos (digits2_pos p) <= 53 ->
  normal_in (-52) 1 (binary_round prec emax false p 0).
Proof.
  intros Hd. unfold binary_round. rewrite Z.add_0_r, fexp_normal by lia.
  destruct (shl_align_shift p 0 (Z.pos (digits2_pos p) - 53)) as (m & -> & Hm); [lia|].
  set (e := if Z.eq_dec _ _ then _ else _).
  assert (e = Z.pos (digits2_pos p) - 53) as -> by (subst e; destruct (Z.eq_dec _ _); lia).
  pose proof (digits2_pos_bounds p) as [Hb1 Hb2].
  assert (Z.pos (digits2_pos m) = 53) as Hdm.
  { apply digits2_pos_unique; [|lia]. rewrite Hm.
    replace (0 - (Z.pos (digits2_pos p) - 53)) with (53 - Z.pos (digits2_pos p)) by lia.
    assert (0 < 2 ^ (53 - Z.pos (digits2_pos p))) by (apply Z.pow_pos_nonneg; lia).
    assert (2 ^ (53 - 1) =
            2 ^ (Z.pos (digits2_pos p) - 1) * 2 ^ (53 - Z.pos (digits2_pos p))) as ->.
    { rewrite <- Z.pow_add_r by lia. f_equal. lia. }
    assert (2 ^ 53 = 2 ^ Z.pos (digits2_pos p) * 2 ^ (53 - Z.pos (digits2_pos p))) as ->.
    { rewrite <- Z.pow_add_r by lia. f_equal. lia. }
    nia. }
  destruct (binary_round_aux_normal false m (Z.pos (digits2_pos p) - 53) loc_Exact)
    as (m' & e' & -> & Hd' & He'); [lia..|].
  exists m', e'. split_and!; [done|done|lia..].
Qed.

Lemma of_nat_normal (n : nat) :
  (0 < n)%nat -> Z.of_nat n < 2 ^ 53 -> normal_in (-52) 1 (Prim2SF (JS.of_nat n)).
Proof.
  intros Hn Hlt. unfold JS.of_nat. rewrite of_uint63_spec, Uint63.of_Z_spec.
  rewrite Z.mod_small.
  - destruct (Z.of_nat n) as [|p|p] eqn:E; [lia| |lia]. simpl.
    apply binary_round_normal, digits2_pos_le; lia.
  - split; [lia|]. change Uint63.wB with (2 ^ 63). 
    assert (2 ^ 53 < 2 ^ 63) by (apply Z.pow_lt_mono_r; lia). lia.
Qed.

End Normal.

Lemma normal_not_zero (lo hi : Z) (x : float) :
  normal_in lo hi (Prim2SF x) -> is_nan x = false /\ is_zero x = false.
Proof.
  intros (m & e & H & _). split.
  - apply is_nan_false. unfold is_num. by rewrite H.
  - unfold is_zero. rewrite FloatAxioms.eqb_spec, H. done.
Qed.

Lemma or_else_normal (lo hi : Z) (x d : float) :
  normal_in lo hi (Prim2SF x) -> JS.or_else x d = x.
Proof.
  intros [Hn Hz]%normal_not_zero. unfold JS.or_else, JS.truthy. by rewrite Hn, Hz.
Qed.

Lemma ratio_normal (lo hi : Z) (num den : float) :
  normal_in lo hi (Prim2SF den) -> Statistics.ratio num den = (num / den)%float.
Proof. intros [_ Hz]%normal_not_zero. unfold Statistics.ratio. by rewrite Hz. Qed.

Lemma div_normal (lx hx ly hy : Z) (x y : float) :
  normal_in lx hx (Prim2SF x) -> normal_in ly hy (Prim2SF y) ->
  (-900 <= lx - hy)%Z -> (hx - ly <= 900)%Z ->
  normal_in (lx - hy - 53) (hx - ly - 51) (Prim2SF (x / y)).
Proof. intros. rewrite div_spec. by apply SFdiv_normal. Qed.

Lemma mul_normal (lx hx ly hy : Z) (x y : float) :
  normal_in lx hx (Prim2SF x) -> normal_in ly hy (Prim2SF y) ->
  (-1000 <= lx + ly)%Z -> (hx + hy <= 900)%Z ->
  normal_in (lx + ly + 52) (hx + hy + 54) (Prim2SF (x * y)).
Proof. intros. rewrite mul_spec. by apply SFmul_normal. Qed.

Lemma add_normal (lx hx ly hy : Z) (x y : float) :
  normal_in lx hx (Prim2SF x) -> normal_in ly hy (Prim2SF y) ->
  (-900 <= lx)%Z -> (-900 <= ly)%Z -> (hx <= 900)%Z -> (hy <= 900)%Z ->
  normal_in (Z.max lx ly) (Z.max hx hy + 2) (Prim2SF (x + y)).
Proof. intros. rewrite add_spec. by apply SFadd_normal. Qed.

Lemma zero_div_normal (lo hi : Z) (y : float) :
  normal_in lo hi (Prim2SF y) -> (0 / y)%float = 0%float.
Proof.
  intros (m & e & H & _). apply Prim2SF_inj. rewrite div_spec, H. reflexivity.
Qed.

Lemma normal_in_weaken (lo hi lo' hi' : Z) (x : spec_float) :
  normal_in lo hi x -> (lo' <= lo)%Z -> (hi <= hi')%Z -> normal_in lo' hi' x.
Proof. intros (m & e & ? & ? & ?) ? ?. exists m, e. split_and!; [done..|lia|lia]. Qed.

Lemma add_zero_l (lo hi : Z) (y : float) :
  normal_in lo hi (Prim2SF y) -> (0 + y)%float = y.
Proof. intros (m & e & H & _). apply Prim2SF_inj. rewrite add_spec, H. reflexivity. Qed.

Lemma add_zero_r (lo hi : Z) (x : float) :
  normal_in lo hi (Prim2SF x) -> (x + 0)%float = x.
Proof. intros (m & e & H & _). apply Prim2SF_inj. rewrite add_spec, H. reflexivity. Qed.

(** The sum of two counts that are not both 0 is a positive normal value. *)
Lemma sum_of_counts (a b : nat) :
  (Z.of_nat a < 2 ^ 53)%Z -> (Z.of_nat b < 2 ^ 53)%Z -> 0 < a + b ->
  normal_in (-52) 3 (Prim2SF (JS.of_nat a + JS.of_nat b)).
Proof.
  intros Ha Hb Hab.
  destruct (decide (a = 0)) as [->|Ha0].
  - pose proof (of_nat_normal b ltac:(lia) Hb) as Hnb.
    change (JS.of_nat 0) with 0%float. rewrite (add_zero_l _ _ _ Hnb).
    apply (normal_in_weaken _ _ _ _ _ Hnb); lia.
  - pose proof (of_nat_normal a ltac:(lia) Ha) as Hna.
    destruct (decide (b = 0)) as [->|Hb0].
    + change (JS.of_nat 0) with 0%float. rewrite (add_zero_r _ _ _ Hna).
      apply (normal_in_weaken _ _ _ _ _ Hna); lia.
    + pose proof (of_nat_normal b ltac:(lia) Hb) as Hnb.
      apply (add_normal _ _ _ _ _ _ Hna Hnb); lia.
Qed.

(** The ratio of one of two counts to their sum: the code's [n / (a + b) || 0]
    is the ratio with the zero convention, and it is 0 when [n] is 0 and a
    positive normal value otherwise. *)
Lemma ratio_of_counts (n a b : nat) :
  n = a \/ n = b -> (Z.of_nat a < 2 ^ 53)%Z -> (Z.of_nat b < 2 ^ 53)%Z ->
  let den := (JS.of_nat a + JS.of_nat b)%float in
  let q := JS.or_else (JS.of_nat n / den)%float 0 in
  q = Statistics.ratio (JS.of_nat n) den /\
  (n = 0 -> q = 0%float) /\
  (0 < n -> normal_in (-108) 2 (Prim2SF q)).
Proof.
  intros Hn Ha Hb. simpl.
  destruct (decide (a + b = 0)) as [Hab|Hab].
  { assert (a = 0) as -> by lia. assert (b = 0) as -> by lia.
    assert (n = 0) as -> by lia. split_and!; [done|done|lia]. }
  pose proof (sum_of_counts a b Ha Hb ltac:(lia)) as Hden.
  rewrite (ratio_normal _ _ _ _ Hden).
  destruct (decide (n = 0)) as [->|Hn0].
  - change (JS.of_nat 0) with 0%float. rewrite (zero_div_normal _ _ _ Hden).
    split_and!; [done|done|lia].
  - pose proof (of_nat_normal n ltac:(lia) ltac:(lia)) as Hnum.
    pose proof (div_normal _ _ _ _ _ _ Hnum Hden ltac:(lia) ltac:(lia)) as Hq.
    rewrite (or_else_normal _ _ _ _ Hq). split_and!; [done|lia|].
    intros _. apply (normal_in_weaken _ _ _ _ _ Hq); lia.
Qed.

Lemma or_else_not_nan (x : float) : is_nan (JS.or_else x 0) = false.
Proof.
  unfold JS.or_else, JS.truthy. destruct (is_nan x) eqn:E; simpl; [done|].
  by destruct (is_zero x).
Qed.

Lemma two_normal : normal_in (-51) (-51) (Prim2SF 2).
Proof. exists 4503599627370496%positive, (-51)%Z. by split_and!. Qed.

(** The F1 score of a precision and a recall that are both 0 or both
    positive normal values, as they are for the ratios of counts. *)
Lemma f1_of_ratios (p r : float) :
  (p = 0%float /\ r = 0%float) \/
  (normal_in (-108) 2 (Prim2SF p) /\ normal_in (-108) 2 (Prim2SF r)) ->
  JS.or_else (2 * p * r / (p + r))%float 0 = Statistics.ratio (2 * p * r)%float (p + r)%float.
Proof.
  intros [[-> ->]|[Hp Hr]]; [done|].
  pose proof (mul_normal _ _ _ _ _ _ two_normal Hp ltac:(lia) ltac:(lia)) as H2p.
  pose proof (mul_normal _ _ _ _ _ _ H2p Hr ltac:(lia) ltac:(lia)) as Hnum.
  pose proof (add_normal _ _ _ _ _ _ Hp Hr ltac:(lia) ltac:(lia) ltac:(lia) ltac:(lia)) as Hden.
  pose proof (div_normal _ _ _ _ _ _ Hnum Hden ltac:(lia) ltac:(lia)) as Hq.
  by rewrite (or_else_normal _ _ _ _ Hq), (ratio_normal _ _ _ _ Hden).
Qed.

(** ** [Math.min] and [Math.max] *)

Lemma classify_zero (x : float) (s : bool) :
  classify x = (if s then NZero else PZero) -> Prim2SF x = S754_zero s.
Proof.
  rewrite classify_spec. unfold SF64classify, SFclassify.
  destruct (Prim2SF x) as [[]|[]| |[] m e], s; try done; by destruct (_ =? _)%Z.
Qed.

Lemma ltb_zero_sign (x y z : float) (s s' : bool) :
  Prim2SF x = S754_zero s -> Prim2SF y = S754_zero s' -> (x <? z)%float = (y <? z)%float.
Proof.
  intros Hx Hy. rewrite !FloatAxioms.ltb_spec, Hx, Hy. by destruct (Prim2SF z) as [[]|[]| |[] ? ?].
Qed.

Lemma Math_min_from_cons (lowest x : JS.number) (values : list JS.number) :
  JS.Math_min_from lowest (x :: values) =
  if is_nan x then nan
  else if below_zero_sign x lowest || (x <? lowest)%float
       then JS.Math_min_from x values else JS.Math_min_from lowest values.
Proof.
  simpl. unfold below_zero_sign. destruct (is_nan x); [done|].
  by destruct (classify x), (classify lowest), (x <? lowest)%float.
Qed.

Lemma below_zero_sign_spec (x lowest : JS.number) :
  below_zero_sign x lowest = true ->
  Prim2SF x = S754_zero true /\ Prim2SF lowest = S754_zero false.
Proof.
  unfold below_zero_sign. intros H.
  destruct (classify x) eqn:Ex, (classify lowest) eqn:El; try done.
  split; [by apply (classify_zero x true)|by apply (classify_zero lowest false)].
Qed.

(** [Math.min] of numbers: the result is the start value or one of the
    values, and neither the start value nor a value is below it. *)
Lemma Math_min_from_spec (values : list JS.number) (lowest : JS.number) :
  Forall is_num values -> is_num lowest ->
  (JS.Math_min_from lowest values = lowest \/ JS.Math_min_from lowest values ∈ values) /\
  is_num (JS.Math_min_from lowest values) /\
  JS.lt lowest (JS.Math_min_from lowest values) = false /\
  forall v, v ∈ values -> JS.lt v (JS.Math_min_from lowest values) = false.
Proof.
  unfold JS.lt. revert lowest. induction values as [|x vs IH]; intros lowest Hvs Hl.
  - simpl. split_and!; [by left|done|apply ltb_irrefl|].
    intros v Hv. by apply elem_of_nil in Hv.
  - apply Forall_cons in Hvs as [Hx Hvs].
    rewrite Math_min_from_cons, (proj2 (is_nan_false x) Hx).
    destruct (below_zero_sign x lowest) eqn:Ez; simpl.
    { apply below_zero_sign_spec in Ez as [Ex El].
      destruct (IH x Hvs Hx) as (Hr & Hn & Hlow & Hall). split_and!.
      - destruct Hr as [Hr|Hr]; right; [rewrite Hr; left|by right].
      - done.
      - by rewrite <- (ltb_zero_sign x lowest _ _ _ Ex El).
      - intros v [->|Hv]%elem_of_cons; [done|by apply Hall]. }
    destruct (x <? lowest)%float eqn:E.
    + destruct (IH x Hvs Hx) as (Hr & Hn & Hlow & Hall). split_and!.
      * destruct Hr as [Hr|Hr]; right; [rewrite Hr; left|by right].
      * done.
      * destruct (lowest <? JS.Math_min_from x vs)%float eqn:E'; [|done].
        by rewrite (ltb_trans _ _ _ E E') in Hlow.
      * intros v [->|Hv]%elem_of_cons; [done|by apply Hall].
    + destruct (IH lowest Hvs Hl) as (Hr & Hn & Hlow & Hall). split_and!.
      * destruct Hr as [Hr|Hr]; [left; exact Hr|right; apply list_elem_of_further; exact Hr].
      * done.
      * done.
      * intros v [->|Hv]%elem_of_cons; [|by apply Hall].
        destruct (x <? JS.Math_min_from lowest vs)%float eqn:E'; [|done].
        by rewrite (ltb_nlt_trans _ _ _ E' Hlow Hl) in E.
Qed.

Lemma Math_max_from_cons (highest x : JS.number) (values : list JS.number) :
  JS.Math_max_from highest (x :: values) =
  if is_nan x then nan
  else if above_zero_sign x highest || (highest <? x)%float
       then JS.Math_max_from x values else JS.Math_max_from highest values.
Proof.
  simpl. unfold above_zero_sign. destruct (is_nan x); [done|].
  by destruct (classify x), (classify highest), (highest <? x)%float.
Qed.

Lemma above_zero_sign_spec (x highest : JS.number) :
  above_zero_sign x highest = true ->
  Prim2SF x = S754_zero false /\ Prim2SF highest = S754_zero true.
Proof.
  unfold above_zero_sign. intros H.
  destruct (classify x) eqn:Ex, (classify highest) eqn:El; try done.
  split; [by apply (classify_zero x false)|by apply (classify_zero highest true)].
Qed.

Lemma ltb_zero_sign_r (x y z : float) (s s' : bool) :
  Prim2SF x = S754_zero s -> Prim2SF y = S754_zero s' -> (z <? x)%float = (z <? y)%float.
Proof.
  intros Hx Hy. rewrite !FloatAxioms.ltb_spec, Hx, Hy. by destruct (Prim2SF z) as [[]|[]| |[] ? ?].
Qed.

(** [Math.max] of numbers: the result is the start value or one of the
    values, and it is below neither the start value nor a value. *)
Lemma Math_max_from_spec (values : list JS.number) (highest : JS.number) :
  Forall is_num values -> is_num highest ->
  (JS.Math_max_from highest values = highest \/ JS.Math_max_from highest values ∈ values) /\
  is_num (JS.Math_max_from highest values) /\
  JS.lt (JS.Math_max_from highest values) highest = false /\
  forall v, v ∈ values -> JS.lt (JS.Math_max_from highest values) v = false.
Proof.
  unfold JS.lt. revert highest. induction values as [|x vs IH]; intros highest Hvs Hl.
  - simpl. split_and!; [by left|done|apply ltb_irrefl|].
    intros v Hv. by apply elem_of_nil in Hv.
  - apply Forall_cons in Hvs as [Hx Hvs].
    rewrite Math_max_from_cons, (proj2 (is_nan_false x) Hx).
    destruct (above_zero_sign x highest) eqn:Ez; simpl.
    { apply above_zero_sign_spec in Ez as [Ex El].
      destruct (IH x Hvs Hx) as (Hr & Hn & Hlow & Hall). split_and!.
      - destruct Hr as [Hr|Hr]; right; [rewrite Hr; left|by right].
      - done.
      - by rewrite <- (ltb_zero_sign_r x highest _ _ _ Ex El).
      - intros v [->|Hv]%elem_of_cons; [done|by apply Hall]. }
    destruct (highest <? x)%float eqn:E.
    + destruct (IH x Hvs Hx) as (Hr & Hn & Hlow & Hall). split_and!.
      * destruct Hr as [Hr|Hr]; right; [rewrite Hr; left|by right].
      * done.
      * destruct (JS.Math_max_from x vs <? highest)%float eqn:E'; [|done].
        by rewrite (ltb_trans _ _ _ E' E) in Hlow.
      * intros v [->|Hv]%elem_of_cons; [done|by apply Hall].
    + destruct (IH highest Hvs Hl) as (Hr & Hn & Hlow & Hall). split_and!.
      * destruct Hr as [Hr|Hr]; [left; exact Hr|right; apply list_elem_of_further; exact Hr].
      * done.
      * done.
      * intros v [->|Hv]%elem_of_cons; [|by apply Hall].
        destruct (JS.Math_max_from highest vs <? x)%float eqn:E'; [|done].
        by rewrite (nlt_ltb_trans _ _ _ Hlow E' Hl) in E.
Qed.

Lemma not_below_infinity_eq (v : float) :
  is_num v -> (v <? infinity)%float = false -> v = infinity.
Proof.
  unfold is_num. rewrite FloatAxioms.ltb_spec, Prim2SF_infinity. intros Hn H.
  apply Prim2SF_inj. rewrite Prim2SF_infinity.
  by destruct (Prim2SF v) as [[]|[]| |[] ? ?].
Qed.

Lemma not_above_neg_infinity_eq (v : float) :
  is_num v -> (neg_infinity <? v)%float = false -> v = neg_infinity.
Proof.
  unfold is_num. rewrite FloatAxioms.ltb_spec. change (Prim2SF neg_infinity) with (S754_infinity true).
  intros Hn H. apply Prim2SF_inj. change (Prim2SF neg_infinity) with (S754_infinity true).
  by destruct (Prim2SF v) as [[]|[]| |[] ? ?].
Qed.

(** [Math.min] of a non-empty array of numbers is one of them, and none of
    them is below it. *)
Lemma Math_min_spec (values : list JS.number) :
  values <> [] -> Forall is_num values ->
  JS.Math_min values ∈ values /\ forall v, v ∈ values -> JS.lt v (JS.Math_min values) = false.
Proof.
  intros Hne Hnum. unfold JS.Math_min.
  destruct (Math_min_from_spec values infinity Hnum) as (Hr & _ & _ & Hall); [done|].
  split; [|done]. destruct Hr as [Hr|Hr]; [|done].
  destruct values as [|v vs]; [done|]. clear Hne.
  rewrite Hr in *. assert (v = infinity) as ->; [|left].
  apply not_below_infinity_eq; [by apply Forall_inv in Hnum|apply Hall; left].
Qed.

(** [Math.max] of a non-empty array of numbers is one of them, and it is
    below none of them. *)
Lemma Math_max_spec (values : list JS.number) :
  values <> [] -> Forall is_num values ->
  JS.Math_max values ∈ values /\ forall v, v ∈ values -> JS.lt (JS.Math_max values) v = false.
Proof.
  intros Hne Hnum. unfold JS.Math_max.
  destruct (Math_max_from_spec values neg_infinity Hnum) as (Hr & _ & _ & Hall); [done|].
  split; [|done]. destruct Hr as [Hr|Hr]; [|done].
  destruct values as [|v vs]; [done|]. clear Hne.
  rewrite Hr in *. assert (v = neg_infinity) as ->; [|left].
  apply not_above_neg_infinity_eq; [by apply Forall_inv in Hnum|apply Hall; left].
Qed.

(** * The matcher and the reference algorithm *)

Import EventMatcher Reference.

(** ** Lists *)

Lemma omap_length_le {A B : Type} (f : A -> option B) (l : list A) :
  length (omap f l) <= length l.
Proof.
  induction l as [|x l IH]; [done|]. rewrite length_cons.
  change (omap f (x :: l)) with
    (match f x with Some y => y :: omap f l | None => omap f l end).
  destruct (f x); [rewrite length_cons|]; lia.
Qed.

Lemma filter_none {A} (P : A -> bool) (l : list A) :
  (forall x, x ∈ l -> P x = false) -> List.filter P l = [].
Proof.
  induction l as [|x l IH]; intros H; [done|]. simpl.
  rewrite (H x) by left. apply IH. intros y Hy. apply H. by right.
Qed.

Lemma indexed_from_elem_of {A} (l : list A) (k j : nat) (x : A) :
  (j, x) ∈ indexed_from k l <-> (k <= j /\ l !! (j - k) = Some x).
Proof.
  revert k. induction l as [|y l IH]; intros k; simpl.
  - rewrite elem_of_nil. split; [done|by intros [_ ?]].
  - rewrite elem_of_cons, IH. split.
    + intros [[= -> ->]|[Hk Hl]].
      * by rewrite Nat.sub_diag.
      * split; [lia|]. by replace (j - k) with (S (j - S k)) by lia.
    + intros [Hk Hl]. destruct (decide (j = k)) as [->|Hne].
      * rewrite Nat.sub_diag in Hl. left. simpl in Hl. congruence.
      * right. split; [lia|]. by replace (j - k) with (S (j - S k)) in Hl by lia.
Qed.

Lemma filter_index_ext_from {A} (f g : nat -> bool) (l : list A) (k : nat) :
  (forall i, k <= i -> f i = g i) -> filter_index f k l = filter_index g k l.
Proof.
  revert k. induction l as [|x l IH]; intros k H; [done|].
  simpl. rewrite (H k), (IH (S k)); [done| |lia]. intros i Hi. apply H. lia.
Qed.

Lemma filter_index_ext {A} (f g : nat -> bool) (l : list A) (k : nat) :
  (forall i, f i = g i) -> filter_index f k l = filter_index g k l.
Proof. intros H. apply filter_index_ext_from. intros i _. apply H. Qed.

(** Filtering out the indices of [idxs] drops as many elements as [idxs]
    has, when these are distinct indices of the list. *)
Lemma filter_index_length {A} (l : list A) (k : nat) (idxs : list nat) :
  NoDup idxs ->
  (forall j, j ∈ idxs -> k <= j < k + length l) ->
  length (filter_index (fun j => negb (bool_decide (j ∈ idxs))) k l) + length idxs = length l.
Proof.
  revert k idxs. induction l as [|x l IH]; intros k idxs Hnd Hin.
  - destruct idxs as [|j idxs]; [done|].
    assert (k <= j < k + 0) by (apply Hin; left). lia.
  - simpl. destruct (bool_decide (k ∈ idxs)) eqn:E; simpl.
    + apply bool_decide_eq_true in E.
      destruct (proj1 (elem_of_Permutation _ _) E) as [idxs' Hp].
      rewrite Hp in Hnd. apply NoDup_cons in Hnd as [Hk Hnd].
      rewrite (filter_index_ext_from _ (fun j => negb (bool_decide (j ∈ idxs')))).
      * rewrite Hp. simpl. rewrite <- (IH (S k) idxs'); [lia|done|].
        intros j Hj. assert (j <> k) by (intros ->; done).
        assert (k <= j < k + S (length l)); [|lia].
        apply Hin. rewrite Hp. by right.
      * intros i Hi. f_equal. apply bool_decide_ext. rewrite Hp.
        rewrite elem_of_cons. split; [intros [->|?]; [lia|done]|by right].
    + apply bool_decide_eq_false in E.
      rewrite <- (IH (S k) idxs); [lia|done|].
      intros j Hj. assert (j <> k) by (intros ->; done).
      specialize (Hin j Hj). simpl in Hin. lia.
Qed.

(** ** The selection of the best candidate *)

Lemma is_minimum_true (cs : list MatchCandidate) (m : MatchCandidate) :
  is_minimum cs m = true <-> forall c, c ∈ cs -> JS.lt (matchScore c) (matchScore m) = false.
Proof.
  unfold is_minimum. rewrite forallb_forall. split; intros H c Hc.
  - apply list_elem_of_In, H in Hc. by destruct (JS.lt _ _).
  - apply list_elem_of_In, H in Hc. by rewrite Hc.
Qed.

Lemma select_elem_of (cs : list MatchCandidate) (m : MatchCandidate) :
  select cs = Some m -> m ∈ cs.
Proof.
  unfold select. intros H%head_Some_elem_of%list_elem_of_In%filter_In.
  apply list_elem_of_In. by destruct H.
Qed.

(** [select] returns a candidate that no candidate beats and that beats
    every candidate before it. *)
Lemma select_split (cs pre post : list MatchCandidate) (m : MatchCandidate) :
  cs = pre ++ m :: post ->
  (forall e, e ∈ pre -> JS.lt (matchScore m) (matchScore e) = true) ->
  (forall c, c ∈ cs -> JS.lt (matchScore c) (matchScore m) = false) ->
  select cs = Some m.
Proof.
  intros Hsplit Hpre Hmin. unfold select.
  rewrite Hsplit at 2. rewrite List.filter_app, filter_none; simpl.
  - apply is_minimum_true in Hmin. by rewrite Hmin.
  - intros e He. destruct (is_minimum cs e) eqn:E; [|done].
    rewrite is_minimum_true in E. rewrite <- (E m), Hpre; [done..|].
    rewrite Hsplit. set_solver.
Qed.

(** The running best of the scan, started on [b], ends on the earliest
    minimum of [b :: cs]. *)
Lemma keep_best_split (cs : list MatchCandidate) (b : MatchCandidate) :
  Forall (fun c => is_num (matchScore c)) (b :: cs) ->
  exists m pre post,
    fold_left keep_best cs (Some b, matchScore b) = (Some m, matchScore m) /\
    b :: cs = pre ++ m :: post /\
    (forall e, e ∈ pre -> JS.lt (matchScore m) (matchScore e) = true) /\
    (forall c, c ∈ b :: cs -> JS.lt (matchScore c) (matchScore m) = false).
Proof.
  revert b. induction cs as [|c cs IH]; intros b Hnum.
  - exists b, [], []. simpl.
    split_and!; try done; try (intros e He; by apply elem_of_nil in He).
    intros c Hc. apply list_elem_of_singleton in Hc as ->. apply ltb_irrefl.
  - apply Forall_cons in Hnum as [Hb Hnum]. pose proof Hnum as Hnum'.
    apply Forall_cons in Hnum' as [Hc Hcs].
    simpl. unfold keep_best at 2. simpl.
    destruct (JS.lt (matchScore c) (matchScore b)) eqn:E.
    + destruct (IH c Hnum) as (m & pre & post & Hfold & Hsplit & Hpre & Hmin).
      assert (Hmb : JS.lt (matchScore m) (matchScore b) = true).
      { apply (nlt_ltb_trans _ (matchScore c)); try done.
        - apply Hmin. left.
        - assert (Hm : m ∈ c :: cs) by (rewrite Hsplit; set_solver).
          by eapply Forall_forall in Hm; [|exact Hnum]. }
      exists m, (b :: pre), post. split_and!; try done.
      * simpl. by rewrite Hsplit.
      * intros e [->|He]%elem_of_cons; [done|by apply Hpre].
      * intros x [->|Hx]%elem_of_cons; [by apply ltb_asym|by apply Hmin].
    + destruct (IH b (Forall_cons_2 (fun c => is_num (matchScore c)) _ _ Hb Hcs))
        as (m & pre & post & Hfold & Hsplit & Hpre & Hmin).
      exists m. destruct pre as [|b' pre].
      * simpl in Hsplit. injection Hsplit as <- <-.
        exists [], (c :: cs).
        split_and!; try done; try (intros e He; by apply elem_of_nil in He).
        intros x [->|[->|Hx]%elem_of_cons]%elem_of_cons; [apply ltb_irrefl|done|].
        apply Hmin. by right.
      * simpl in Hsplit. injection Hsplit as <- Hsplit.
        assert (Hmb : JS.lt (matchScore m) (matchScore b) = true) by (apply Hpre; left).
        exists (b :: c :: pre), post. split_and!; try done.
        -- simpl. by rewrite Hsplit.
        -- intros e [->|[->|He]%elem_of_cons]%elem_of_cons; [done| |apply Hpre; by right].
           by apply (ltb_nlt_trans _ (matchScore b)).
        -- intros x [->|[->|Hx]%elem_of_cons]%elem_of_cons.
           ++ by apply ltb_asym.
           ++ apply ltb_asym. by apply (ltb_nlt_trans _ (matchScore b)).
           ++ apply Hmin. by right.
Qed.

Lemma below_infinity_is_num (s : JS.number) : below_infinity s = true -> is_num s.
Proof. intros H. by apply ltb_is_num in H as [? _]. Qed.

(** The scan over candidates whose scores are below [+Infinity] ends on the
    candidate that [select] returns. *)
Lemma fold_keep_best_select (cs : list MatchCandidate) :
  Forall (fun c => below_infinity (matchScore c) = true) cs ->
  fold_left keep_best cs (None, infinity) =
  match select cs with
  | Some m => (Some m, matchScore m)
  | None => (None, infinity)
  end.
Proof.
  destruct cs as [|b cs]; [done|]. intros Hall. simpl.
  unfold keep_best at 2. simpl.
  pose proof (Forall_inv Hall) as Hb. simpl in Hb. unfold below_infinity in Hb. rewrite Hb.
  destruct (keep_best_split cs b) as (m & pre & post & Hfold & Hsplit & Hpre & Hmin).
  { eapply Forall_impl; [exact Hall|]. intros c Hc. by apply below_infinity_is_num. }
  by rewrite Hfold, (select_split _ _ _ _ Hsplit Hpre Hmin).
Qed.

(** Among candidates whose scores are numbers, [select] finds one as soon as
    there is one. *)
Lemma select_is_Some (cs : list MatchCandidate) :
  cs <> [] -> Forall (fun c => is_num (matchScore c)) cs -> is_Some (select cs).
Proof.
  destruct cs as [|b cs]; [done|]. intros _ Hnum.
  destruct (keep_best_split cs b Hnum) as (m & pre & post & _ & Hsplit & Hpre & Hmin).
  exists m. by eapply select_split.
Qed.

(** ** The inner loop *)

Section Scan.

Variable haversine : distance_function.
Variable criteria : MatchingCriteria.

(** One iteration of the inner loop: a claimed candidate and a rejected one
    leave the state as it is, any other is compared with the best so far. *)
Lemma scan_step_spec (S : gset nat) (i : nat) (r : Event) (j : nat) (d : Event) (st : Best) :
  scan_step haversine criteria S i r j d st =
  if bool_decide (j ∈ S) then st
  else
    let c := pairing haversine depth_if_falsy criteria i r j d in
    if rejected criteria c then st else keep_best st c.
Proof.
  unfold scan_step, rejected, keep_best, pairing, calculateDistance, depth_if_falsy. simpl.
  destruct (bool_decide (j ∈ S)); [done|].
  destruct (JS.gt _ (timeWindow criteria)); [done|].
  destruct (JS.gt _ (distanceThreshold criteria)); [done|]. simpl.
  destruct (magnitude r), (magnitude d); simpl;
    repeat match goal with
           | |- context [if JS.gt ?a ?b then _ else _] => destruct (JS.gt a b); simpl; try done
           end.
Qed.

Lemma keep_best_not_below (st : Best) (c : MatchCandidate) :
  below_infinity (matchScore c) = false -> keep_best st c = st.
Proof. intros H. unfold keep_best. by rewrite (not_below_infinity _ _ H). Qed.

Lemma scan_fold (S : gset nat) (claimed : list nat) (i : nat) (r : Event)
    (dets : list Event) (k : nat) (st : Best) :
  (forall j, j ∈ S <-> j ∈ claimed) ->
  scan haversine criteria S i r k dets st =
  fold_left keep_best
    (List.filter (fun c => negb (rejected criteria c) && below_infinity (matchScore c))
       (map (fun jd => pairing haversine depth_if_falsy criteria i r (fst jd) (snd jd))
          (List.filter (fun jd => negb (bool_decide (fst jd ∈ claimed)))
             (indexed_from k dets)))) st.
Proof.
  intros HS. revert k st. induction dets as [|d dets IH]; intros k st; [done|].
  simpl. rewrite IH, scan_step_spec.
  rewrite (bool_decide_ext _ _ (HS k)).
  destruct (bool_decide (k ∈ claimed)); simpl; [done|].
  destruct (rejected criteria _); simpl; [done|].
  destruct (below_infinity _) eqn:E; simpl; [done|].
  by rewrite keep_best_not_below.
Qed.

Lemma survivors_elem_of (may_win : JS.number -> bool) (depth_of : Event -> JS.number)
    (claimed : list nat) (dets : list Event) (i : nat) (r : Event) (m : MatchCandidate) :
  m ∈ survivors haversine depth_of may_win criteria dets claimed i r <->
  exists j d, dets !! j = Some d /\ (j ∉ claimed) /\
    m = pairing haversine depth_of criteria i r j d /\
    rejected criteria m = false /\ may_win (matchScore m) = true.
Proof.
  unfold survivors, unclaimed.
  rewrite list_elem_of_In, filter_In, <- list_elem_of_In, list_elem_of_fmap. split.
  - intros [([j d] & -> & Hjd) Hok]. simpl in *.
    apply list_elem_of_In, filter_In in Hjd as [Hjd%list_elem_of_In Hj]. simpl in Hj.
    apply indexed_from_elem_of in Hjd as [_ Hjd]. rewrite Nat.sub_0_r in Hjd.
    apply andb_prop in Hok as [Hrej Hwin].
    exists j, d. split_and!; try done.
    + apply negb_true_iff, bool_decide_eq_false in Hj. done.
    + by apply negb_true_iff in Hrej.
  - intros (j & d & Hjd & Hj & -> & Hrej & Hwin). split.
    + exists (j, d). split; [done|].
      apply list_elem_of_In, filter_In. split.
      * apply list_elem_of_In, indexed_from_elem_of. rewrite Nat.sub_0_r. split; [lia|done].
      * simpl. by apply negb_true_iff, bool_decide_eq_false.
    + by rewrite Hrej, Hwin.
Qed.

Lemma survivors_below (claimed : list nat) (dets : list Event) (i : nat) (r : Event) :
  Forall (fun c => below_infinity (matchScore c) = true)
    (survivors haversine depth_if_falsy below_infinity criteria dets claimed i r).
Proof.
  apply Forall_forall. intros c Hc.
  by apply survivors_elem_of in Hc as (_ & _ & _ & _ & _ & _ & Hc).
Qed.

(** The inner loop commits the candidate that [select] picks among the
    survivors. *)
Lemma scan_select (S : gset nat) (claimed : list nat) (i : nat) (r : Event)
    (dets : list Event) :
  (forall j, j ∈ S <-> j ∈ claimed) ->
  fst (scan haversine criteria S i r 0 dets (None, infinity)) =
  select (survivors haversine depth_if_falsy below_infinity criteria dets claimed i r).
Proof.
  intros HS. rewrite (scan_fold S claimed) by done.
  fold (unclaimed dets claimed).
  fold (survivors haversine depth_if_falsy below_infinity criteria dets claimed i r).
  rewrite fold_keep_best_select by apply survivors_below.
  by destruct (select _).
Qed.

(** ** The outer loop *)

Lemma match_step_spec (dets : list Event) (i : nat) (r : Event) (st : Loop) :
  consistent st ->
  loop_matches (match_step haversine criteria dets i r st) =
    match select (survivors haversine depth_if_falsy below_infinity criteria dets
                    (map detectedIndex (loop_matches st)) i r) with
    | Some c => loop_matches st ++ [c]
    | None => loop_matches st
    end /\
  consistent (match_step haversine criteria dets i r st).
Proof.
  intros [Hdet Href]. unfold match_step.
  rewrite (scan_select _ (map detectedIndex (loop_matches st))).
  2:{ intros j. rewrite Hdet. apply elem_of_list_to_set. }
  destruct (select _) as [m|] eqn:Hsel; [|done].
  split; [done|]. unfold consistent. simpl.
  rewrite !map_app, !list_to_set_app_L. simpl.
  rewrite Hdet, Href, !(right_id_L ∅ (∪)).
  apply select_elem_of, survivors_elem_of in Hsel as (j & d & _ & _ & -> & _).
  simpl. split; apply (comm_L (∪)).
Qed.

Lemma match_loop_greedy (dets refs : list Event) (i : nat) (st : Loop) :
  consistent st ->
  loop_matches (match_loop haversine criteria dets i refs st) =
    greedy haversine depth_if_falsy below_infinity criteria dets i refs (loop_matches st) /\
  consistent (match_loop haversine criteria dets i refs st).
Proof.
  revert i st. induction refs as [|r refs IH]; intros i st Hst; [done|].
  simpl. destruct (match_step_spec dets i r st Hst) as [Hm Hc].
  destruct (IH (S i) _ Hc) as [IHm IHc]. split; [|done].
  rewrite IHm, Hm. by destruct (select _).
Qed.

End Scan.

(** The matcher computes the partition of the reference algorithm, with the
    depth read as the code reads it and a score winning only below
    [+Infinity]. *)
Lemma matchEvents_as_coded (haversine : distance_function) (refs dets : list Event)
    (criteria : CriteriaArg) :
  matchEvents haversine refs dets criteria =
  JS.Fulfilled (as_coded haversine refs dets criteria).
Proof.
  unfold matchEvents, as_coded, partition.
  destruct (match_loop_greedy haversine (spread defaultCriteria criteria) dets refs 0 loop_init)
    as [Hm [Hdet Href]]; [done|].
  simpl in Hm. rewrite <- Hm.
  set (st := match_loop _ _ _ _ _ _) in *.
  rewrite (filter_index_ext _
             (fun i => negb (bool_decide (i ∈ map referenceIndex (loop_matches st))))).
  2:{ intros i. f_equal. apply bool_decide_ext. rewrite Href. apply elem_of_list_to_set. }
  rewrite (filter_index_ext (fun idx => negb (bool_decide (idx ∈ matchedDetIndices st)))
             (fun i => negb (bool_decide (i ∈ map detectedIndex (loop_matches st))))).
  2:{ intros i. f_equal. apply bool_decide_ext. rewrite Hdet. apply elem_of_list_to_set. }
  done.
Qed.

(** ** The reference algorithm *)

Section Greedy.

Variable haversine : distance_function.
Variable depth_of : Event -> JS.number.
Variable may_win : JS.number -> bool.
Variable criteria : MatchingCriteria.
Variable dets : list Event.

Lemma well_formed_commit (i : nat) (r : Event) (committed : list MatchCandidate)
    (c : MatchCandidate) :
  well_formed dets i committed ->
  select (survivors haversine depth_of may_win criteria dets
            (map detectedIndex committed) i r) = Some c ->
  well_formed dets (S i) (committed ++ [c]).
Proof.
  intros (Hd & Hr & Hin) Hsel.
  apply select_elem_of, survivors_elem_of in Hsel as (j & d & Hjd & Hj & -> & _).
  unfold well_formed. rewrite !map_app. simpl. split_and!.
  - apply NoDup_app. split_and!; [done| |apply NoDup_singleton].
    intros x Hx ->%list_elem_of_singleton. done.
  - apply NoDup_app. split_and!; [done| |apply NoDup_singleton].
    intros x Hx ->%list_elem_of_singleton.
    apply list_elem_of_fmap in Hx as (m & Hm & Hx). apply Hin in Hx. lia.
  - intros m [Hm| ->%list_elem_of_singleton]%elem_of_app.
    + apply Hin in Hm. lia.
    + simpl. split; [|lia]. by apply lookup_lt_Some in Hjd.
Qed.

Lemma well_formed_skip (i : nat) (committed : list MatchCandidate) :
  well_formed dets i committed -> well_formed dets (S i) committed.
Proof.
  intros (Hd & Hr & Hin). split_and!; try done. intros m Hm. apply Hin in Hm. lia.
Qed.

Lemma greedy_well_formed (refs : list Event) (i : nat) (committed : list MatchCandidate) :
  well_formed dets i committed ->
  well_formed dets (i + length refs)
    (greedy haversine depth_of may_win criteria dets i refs committed).
Proof.
  revert i committed. induction refs as [|r refs IH]; intros i committed Hwf; simpl.
  - by rewrite Nat.add_0_r.
  - replace (i + S (length refs)) with (S i + length refs) by lia.
    destruct (select _) as [c|] eqn:Hsel; apply IH.
    + by eapply well_formed_commit.
    + by apply well_formed_skip.
Qed.

(** A match of the result was committed before or is a survivor of one of
    the reference events. *)
Lemma greedy_elem_of (refs : list Event) (i : nat) (committed : list MatchCandidate)
    (m : MatchCandidate) :
  m ∈ greedy haversine depth_of may_win criteria dets i refs committed ->
  m ∈ committed \/
  exists k r claimed, refs !! k = Some r /\
    m ∈ survivors haversine depth_of may_win criteria dets claimed (i + k) r.
Proof.
  revert i committed. induction refs as [|r refs IH]; intros i committed; simpl; [by left|].
  destruct (select _) as [c|] eqn:Hsel; intros [Hm|(k & r' & cl & Hk & Hs)]%IH.
  - apply elem_of_app in Hm as [Hm| ->%list_elem_of_singleton]; [by left|].
    right. exists 0, r, (map detectedIndex committed). rewrite Nat.add_0_r.
    split; [done|]. by apply select_elem_of.
  - right. exists (S k), r', cl. by replace (i + S k) with (S i + k) by lia.
  - by left.
  - right. exists (S k), r', cl. by replace (i + S k) with (S i + k) by lia.
Qed.

End Greedy.

(** No index occurs twice among the matches, and the matches and the
    unmatched events add up to the catalogs. *)
Lemma partition_counts (haversine : distance_function) (depth_of : Event -> JS.number)
    (may_win : JS.number -> bool) (refs dets : list Event) (c : CriteriaArg) :
  let res := partition haversine depth_of may_win refs dets c in
  NoDup (map detectedIndex (matches res)) /\
  NoDup (map referenceIndex (matches res)) /\
  length (matches res) + length (unmatchedReference res) = length refs /\
  length (matches res) + length (unmatchedDetected res) = length dets.
Proof.
  simpl.
  destruct (greedy_well_formed haversine depth_of may_win (spread defaultCriteria c)
              dets refs 0 []) as (Hd & Hr & Hin).
  { split_and!; [apply NoDup_nil_2..|]. intros m Hm. by apply elem_of_nil in Hm. }
  set (ms := greedy _ _ _ _ _ _ _ _) in *. split_and!; try done.
  - rewrite <- (filter_index_length refs 0 (map referenceIndex ms));
      [rewrite length_map; lia|done|].
    intros j (m & -> & Hm)%list_elem_of_fmap. apply Hin in Hm. simpl in *. lia.
  - rewrite <- (filter_index_length dets 0 (map detectedIndex ms));
      [rewrite length_map; lia|done|].
    intros j (m & -> & Hm)%list_elem_of_fmap. apply Hin in Hm. simpl in *. lia.
Qed.

(** Every committed pair is the pairing of a reference event and a detected
    event of the input, rejected by no filter, with a score that may win. *)
Lemma partition_sound (haversine : distance_function) (depth_of : Event -> JS.number)
    (may_win : JS.number -> bool) (refs dets : list Event) (c : CriteriaArg)
    (m : MatchCandidate) :
  m ∈ matches (partition haversine depth_of may_win refs dets c) ->
  exists i r j d, refs !! i = Some r /\ dets !! j = Some d /\
    m = pairing haversine depth_of (spread defaultCriteria c) i r j d /\
    rejected (spread defaultCriteria c) m = false /\ may_win (matchScore m) = true.
Proof.
  simpl. intros [Hm|(k & r & cl & Hk & Hs)]%greedy_elem_of; [by apply elem_of_nil in Hm|].
  apply survivors_elem_of in Hs as (j & d & Hd & _ & Hp & Hrej & Hwin).
  by exists k, r, j, d.
Qed.

Lemma rejected_false (criteria : MatchingCriteria) (m : MatchCandidate) :
  rejected criteria m = false <-> forall f, exceeds criteria m f = false.
Proof.
  unfold rejected, all_filters. cbn [existsb]. split.
  - intros H f. repeat (apply orb_false_elim in H as [? H]). by destruct f.
  - intros H. by rewrite !H.
Qed.

(** ** The distance function *)

Section Agree.

Variables hav1 hav2 : distance_function.
Variable depth_of : Event -> JS.number.
Variable may_win : JS.number -> bool.
Variable criteria : MatchingCriteria.
Variable dets : list Event.

Lemma survivors_agree (claimed : list nat) (i : nat) (r : Event) :
  agree_on hav1 hav2 [r] dets ->
  survivors hav1 depth_of may_win criteria dets claimed i r =
  survivors hav2 depth_of may_win criteria dets claimed i r.
Proof.
  intros H. unfold survivors. f_equal. apply map_ext_in. intros [j d] Hjd. simpl.
  apply filter_In in Hjd as [Hjd%list_elem_of_In _].
  apply indexed_from_elem_of in Hjd as [_ Hjd]. apply list_elem_of_lookup_2 in Hjd.
  unfold pairing. by rewrite (H r d); [|left|].
Qed.

Lemma greedy_agree (refs : list Event) (i : nat) (committed : list MatchCandidate) :
  agree_on hav1 hav2 refs dets ->
  greedy hav1 depth_of may_win criteria dets i refs committed =
  greedy hav2 depth_of may_win criteria dets i refs committed.
Proof.
  revert i committed. induction refs as [|r refs IH]; intros i committed H; [done|].
  simpl. rewrite survivors_agree.
  - destruct (select _); apply IH; intros r' d' Hr Hd; apply H; (done || by right).
  - intros r' d' ->%list_elem_of_singleton Hd. apply H; [left|done].
Qed.

End Agree.

Lemma partition_agree (hav1 hav2 : distance_function) (depth_of : Event -> JS.number)
    (may_win : JS.number -> bool) (refs dets : list Event) (c : CriteriaArg) :
  agree_on hav1 hav2 refs dets ->
  partition hav1 depth_of may_win refs dets c = partition hav2 depth_of may_win refs dets c.
Proof. intros H. unfold partition. by rewrite (greedy_agree hav1 hav2). Qed.

Lemma agree_on_same_point (hav : distance_function) (refs dets : list Event) :
  (hav 35 139 35 139 = 0)%float ->
  Forall Examples.at_the_point refs -> Forall Examples.at_the_point dets ->
  agree_on hav Examples.same_point refs dets.
Proof.
  intros H Hr Hd r d Hr' Hd'.
  eapply Forall_forall in Hr as [-> ->]; [|done].
  eapply Forall_forall in Hd as [-> ->]; [|done]. done.
Qed.

(** ** The algorithm as stated *)

Section Proper.

Variable haversine : distance_function.
Variable criteria : MatchingCriteria.
Variable dets : list Event.

Lemma depth_if_falsy_plain (e : Event) :
  plain_depth e -> depth_if_falsy e = depth_if_missing e.
Proof.
  unfold plain_depth, depth_if_falsy, depth_if_missing, JS.field_or_else, JS.or_else.
  destruct (depth_km e) as [z|]; [|done]. intros H. by rewrite (H z).
Qed.

Lemma survivors_proper (claimed : list nat) (i : nat) (r : Event) :
  plain_depth r -> Forall plain_depth dets -> scores_below_infinity haversine criteria dets [r] ->
  survivors haversine depth_if_falsy below_infinity criteria dets claimed i r =
  survivors haversine depth_if_missing any_score criteria dets claimed i r.
Proof.
  intros Hr Hd Hs. unfold survivors.
  rewrite (map_ext_in _ (fun jd => pairing haversine depth_if_missing criteria i r jd.1 jd.2)).
  - apply filter_ext_in. intros c Hc. apply in_map_iff in Hc as ([j d] & <- & Hjd). simpl.
    apply filter_In in Hjd as [Hjd%list_elem_of_In _].
    apply indexed_from_elem_of in Hjd as [_ Hjd]. apply list_elem_of_lookup_2 in Hjd.
    destruct (rejected criteria _) eqn:E; [done|]. simpl. unfold any_score.
    apply (Hs i r j d); [left|done|done].
  - intros [j d] Hjd. simpl.
    apply filter_In in Hjd as [Hjd%list_elem_of_In _].
    apply indexed_from_elem_of in Hjd as [_ Hjd]. apply list_elem_of_lookup_2 in Hjd.
    unfold pairing. rewrite (depth_if_falsy_plain r Hr).
    rewrite (depth_if_falsy_plain d); [done|]. by eapply Forall_forall in Hd.
Qed.

Lemma greedy_proper (refs : list Event) (i : nat) (committed : list MatchCandidate) :
  Forall plain_depth refs -> Forall plain_depth dets -> scores_below_infinity haversine criteria dets refs ->
  greedy haversine depth_if_falsy below_infinity criteria dets i refs committed =
  greedy haversine depth_if_missing any_score criteria dets i refs committed.
Proof.
  revert i committed. induction refs as [|r refs IH]; intros i committed Hr Hd Hs; [done|].
  apply Forall_cons in Hr as [Hr Hrs]. simpl. rewrite survivors_proper; try done.
  - destruct (select _); apply IH; try done;
      intros i' r' j' d' Hr' Hd'; apply (Hs i' r' j' d'); (done || by right).
  - intros i' r' j' d' ->%list_elem_of_singleton Hd'. apply (Hs i' r j' d'); [left|done].
Qed.
End Proper.

(** On catalogs without a depth of zero or NaN, and when the pairs that pass
    the filters score below [+Infinity], the matcher returns the partition of
    the algorithm as the specification states it. *)
Lemma matchEvents_as_stated (haversine : distance_function) (refs dets : list Event)
    (c : CriteriaArg) :
  Forall plain_depth refs -> Forall plain_depth dets ->
  scores_below_infinity haversine (spread defaultCriteria c) dets refs ->
  matchEvents haversine refs dets c = JS.Fulfilled (as_stated haversine refs dets c).
Proof.
  intros Hr Hd Hs. rewrite matchEvents_as_coded. unfold as_coded, as_stated, partition.
  by rewrite greedy_proper.
Qed.

(** * Properties of the specification *)

Import Examples.

(** ** C1: the matcher and the reference greedy algorithm *)

(** C1, as amended. For every pair of event lists, every criteria value and
    every distance function, the matcher returns the partition of the
    reference greedy algorithm: the reference events are processed in their
    given order; a candidate not yet claimed is rejected iff its time
    difference exceeds [timeWindow], or its distance exceeds
    [distanceThreshold], or both magnitudes are present and their difference
    exceeds [magnitudeDiffThreshold], or its depth difference exceeds
    [depthDiffThreshold], a depth that is missing, zero or NaN being read as
    10.0 km; among the survivors whose score is below [+Infinity] the one of
    minimum score is committed, the earliest one on a tie; when there is
    none, the reference event stays unmatched and no candidate is consumed. *)
Theorem C1_matcher_is_greedy_reference (haversine : distance_function)
    (referenceEvents detectedEvents : list Event) (criteria : CriteriaArg) :
  matchEvents haversine referenceEvents detectedEvents criteria =
  JS.Fulfilled (Reference.as_coded haversine referenceEvents detectedEvents criteria).
Proof. apply matchEvents_as_coded. Qed.

(** C1, as stated, fails on two inputs, whatever the distance function when
    it is 0 between two events at the point of the examples. With a
    [timeWindow] of 0, an event compared with itself passes every filter, but
    its score is NaN (0 / 0) and the matcher leaves it unmatched, where the
    algorithm as stated commits it. With a reference depth of 0 and a
    candidate depth of 55 km, the matcher compares 10 km with 55 km and
    commits the pair, where the algorithm as stated rejects it (55 > 50). *)
Lemma C1_counterexample :
  (forall haversine : distance_function, (haversine 35 139 35 139 = 0)%float ->
     matchEvents haversine [quake] [quake] zero_window <>
       JS.Fulfilled (Reference.as_stated haversine [quake] [quake] zero_window) /\
     matches (Reference.as_coded haversine [quake] [quake] zero_window) = [] /\
     length (matches (Reference.as_stated haversine [quake] [quake] zero_window)) = 1) /\
  (forall haversine : distance_function, (haversine 35 139 35 139 = 0)%float ->
     matchEvents haversine [surface] [deep] no_criteria <>
       JS.Fulfilled (Reference.as_stated haversine [surface] [deep] no_criteria) /\
     length (matches (Reference.as_coded haversine [surface] [deep] no_criteria)) = 1 /\
     matches (Reference.as_stated haversine [surface] [deep] no_criteria) = []).
Proof.
  split; intros haversine H; rewrite matchEvents_as_coded; unfold as_coded, as_stated;
    rewrite !(partition_agree haversine same_point)
      by (apply agree_on_same_point; [done|repeat constructor..]).
  - split_and!; [|by vm_compute..]. intros E. vm_compute in E. discriminate E.
  - split_and!; [|by vm_compute..]. intros E. vm_compute in E. discriminate E.
Qed.

(** ** C2: at most one match per event, and the counts *)

(** C2. For every matcher output, no detected index and no reference index
    occurs in two matched pairs, the matches and the unmatched reference
    events add up to the reference events, and the matches and the unmatched
    detected events add up to the detected events. *)
Theorem C2_at_most_one_match (haversine : distance_function)
    (referenceEvents detectedEvents : list Event) (criteria : CriteriaArg) :
  exists res,
    matchEvents haversine referenceEvents detectedEvents criteria = JS.Fulfilled res /\
    NoDup (map detectedIndex (matches res)) /\
    NoDup (map referenceIndex (matches res)) /\
    length (matches res) + length (unmatchedReference res) = length referenceEvents /\
    length (matches res) + length (unmatchedDetected res) = length detectedEvents /\
    matchedPairs (summary res) + sum_unmatchedReference (summary res) =
      totalReference (summary res) /\
    matchedPairs (summary res) + sum_unmatchedDetected (summary res) =
      totalDetected (summary res).
Proof.
  eexists. split; [apply matchEvents_as_coded|].
  destruct (partition_counts haversine depth_if_falsy below_infinity
              referenceEvents detectedEvents criteria) as (Hd & Hr & Href & Hdet).
  by split_and!.
Qed.

(** ** The calls that spread an array *)

Import ComparisonService Statistics.

Lemma bind_normal {A B : Type} (x : A) (f : A -> JS.Completion B) :
  JS.Normal x ≫= f = f x.
Proof. done. Qed.

Lemma Math_min_from_nan (values : list JS.number) (lowest : JS.number) :
  existsb is_nan values = true -> is_nan (JS.Math_min_from lowest values) = true.
Proof.
  revert lowest. induction values as [|x vs IH]; intros lowest H; [done|].
  rewrite Math_min_from_cons. cbn [existsb] in H.
  destruct (is_nan x) eqn:Ex; [done|]. cbn [orb] in H.
  case_match; by apply IH.
Qed.

Lemma Math_max_from_nan (values : list JS.number) (highest : JS.number) :
  existsb is_nan values = true -> is_nan (JS.Math_max_from highest values) = true.
Proof.
  revert highest. induction values as [|x vs IH]; intros highest H; [done|].
  rewrite Math_max_from_cons. cbn [existsb] in H.
  destruct (is_nan x) eqn:Ex; [done|]. cbn [orb] in H.
  case_match; by apply IH.
Qed.

Lemma no_nan_is_num (values : list JS.number) :
  existsb is_nan values = false -> Forall is_num values.
Proof.
  induction values as [|x vs IH]; [constructor|]. simpl.
  intros [Hx Hvs]%orb_false_iff. constructor; [by apply is_nan_false|by apply IH].
Qed.

(** [Math.min] returns a minimum of its arguments, and [Math.max] a
    maximum. *)
Lemma Math_min_least (values : list JS.number) :
  values <> [] -> least values (JS.Math_min values).
Proof.
  intros Hne. unfold least. destruct (existsb is_nan values) eqn:E.
  - by apply Math_min_from_nan.
  - by apply Math_min_spec, no_nan_is_num.
Qed.

Lemma Math_max_greatest (values : list JS.number) :
  values <> [] -> greatest values (JS.Math_max values).
Proof.
  intros Hne. unfold greatest. destruct (existsb is_nan values) eqn:E.
  - by apply Math_max_from_nan.
  - by apply Math_max_spec, no_nan_is_num.
Qed.

Lemma fold_left_add_map {A} (f : A -> JS.number) (l : list A) (a : JS.number) :
  fold_left (fun sum x => (sum + f x)%float) l a =
  fold_left (fun sum val => (sum + val)%float) (map f l) a.
Proof. revert a. induction l as [|x l IH]; intros a; [done|]. simpl. apply IH. Qed.

Section SpreadCalls.

Variable Math_pow : JS.number -> JS.number -> JS.number.
Variable max_arguments : nat.

Lemma spread_call_within {A B : Type} (f : list A -> B) (values : list A) :
  length values <= max_arguments ->
  JS.spread_call max_arguments f values = JS.Normal (f values).
Proof. intros H. unfold JS.spread_call. by rewrite (proj2 (Nat.leb_le _ _) H). Qed.

Lemma spread_call_beyond {A B : Type} (f : list A -> B) (values : list A) :
  max_arguments < length values -> JS.spread_call max_arguments f values = JS.RangeError.
Proof. intros H. unfold JS.spread_call. by rewrite (proj2 (Nat.leb_gt _ _) H). Qed.

(** [calculateStats] returns for an array that the engine takes as the
    arguments of a call, and throws for a longer one. *)
Lemma calculateStats_within (values : list JS.number) :
  values <> [] -> length values <= max_arguments ->
  calculateStats Math_pow max_arguments values =
  JS.Normal (Some (returned_stats Math_pow values)).
Proof.
  destruct values as [|v vs]; [done|]. intros _ Hlen. unfold calculateStats.
  by rewrite !spread_call_within.
Qed.

Lemma calculateStats_beyond (values : list JS.number) :
  max_arguments < length values ->
  calculateStats Math_pow max_arguments values = JS.RangeError.
Proof.
  destruct values as [|v vs]; [simpl; lia|]. intros Hlen. unfold calculateStats.
  by rewrite (spread_call_beyond JS.Math_min).
Qed.

(** What [calculateStats] returns is the statistics of the values. *)
Lemma returned_stats_describes (values : list JS.number) :
  values <> [] -> describes Math_pow values (returned_stats Math_pow values).
Proof.
  intros Hne. unfold describes, returned_stats, mean_of, deviation_of, rms_of, total, square.
  cbn [count mean stdDev rms min max].
  split_and!; try done.
  - by rewrite (fold_left_add_map (fun val => Math_pow (val - _) 2)).
  - by rewrite (fold_left_add_map (fun val => Math_pow val 2)).
  - by apply Math_min_least.
  - by apply Math_max_greatest.
Qed.

(** [calculatePerformanceMetrics] returns when the engine takes the matches
    as the arguments of a call, and throws when there are more. *)
Lemma calculatePerformanceMetrics_within (matchingResults : MatchResult) :
  length (matches matchingResults) <= max_arguments ->
  calculatePerformanceMetrics Math_pow max_arguments matchingResults =
  JS.Normal (returned_metrics Math_pow matchingResults).
Proof.
  intros Hlen. unfold calculatePerformanceMetrics, returned_metrics, returned_residuals.
  destruct (matches matchingResults) as [|m ms] eqn:E; [done|].
  rewrite (calculateStats_within (map timeDiff (m :: ms))), bind_normal;
    [|done|by rewrite length_map].
  rewrite (calculateStats_within (map distance (m :: ms))), bind_normal;
    [|done|by rewrite length_map].
  pose proof (omap_length_le magnitudeDiff (m :: ms)) as Hmag.
  destruct (omap magnitudeDiff (m :: ms)) as [|g gs] eqn:Eg; [done|].
  rewrite (calculateStats_within (g :: gs)); [done|done|lia].
Qed.

Lemma calculatePerformanceMetrics_beyond (matchingResults : MatchResult) :
  max_arguments < length (matches matchingResults) ->
  calculatePerformanceMetrics Math_pow max_arguments matchingResults = JS.RangeError.
Proof.
  intros Hlen. unfold calculatePerformanceMetrics.
  destruct (matches matchingResults) as [|m ms] eqn:E; [simpl in Hlen; lia|].
  rewrite (calculateStats_beyond (map timeDiff (m :: ms))); [done|].
  by rewrite length_map.
Qed.

End SpreadCalls.

Lemma many_matches_throws (Math_pow : JS.number -> JS.number -> JS.number)
    (max_arguments : nat) :
  calculatePerformanceMetrics Math_pow max_arguments (many_matches (S max_arguments)) =
  JS.RangeError.
Proof.
  apply calculatePerformanceMetrics_beyond. unfold many_matches.
  cbn [matches]. rewrite length_replicate. lia.
Qed.

(** ** C3: the performance metrics *)

Section PerformanceMetrics.

Variable Math_pow : JS.number -> JS.number -> JS.number.
Variable max_arguments : nat.

(** C3, as amended. For every matching result whose three arrays have the
    length of a JavaScript array and whose matches the engine takes as the
    arguments of a call, the metrics calculator returns the three counts as
    the lengths of the arrays, and precision, recall, F1 score, detection
    rate and false-alarm rate as the ratios TP/(TP+FP), TP/(TP+FN),
    2PR/(P+R), recall and FP/(TP+FP), where a ratio is 0 when its
    denominator is zero; none of them is NaN. For a result with more
    matches it returns nothing: it throws a [RangeError]. *)
Theorem C3_performance_metrics (matchingResults : MatchResult) :
  array_sized (matches matchingResults) ->
  array_sized (unmatchedDetected matchingResults) ->
  array_sized (unmatchedReference matchingResults) ->
  let TP := length (matches matchingResults) in
  let FP := length (unmatchedDetected matchingResults) in
  let FN := length (unmatchedReference matchingResults) in
  (TP <= max_arguments ->
   exists metrics,
     calculatePerformanceMetrics Math_pow max_arguments matchingResults = JS.Normal metrics /\
     truePositives metrics = TP /\ falsePositives metrics = FP /\
     falseNegatives metrics = FN /\
     precision metrics = ratio (JS.of_nat TP) (JS.of_nat TP + JS.of_nat FP)%float /\
     recall metrics = ratio (JS.of_nat TP) (JS.of_nat TP + JS.of_nat FN)%float /\
     f1Score metrics =
       ratio (2 * precision metrics * recall metrics)%float
             (precision metrics + recall metrics)%float /\
     detectionRate metrics = recall metrics /\
     falseAlarmRate metrics = ratio (JS.of_nat FP) (JS.of_nat TP + JS.of_nat FP)%float /\
     is_nan (precision metrics) = false /\ is_nan (recall metrics) = false /\
     is_nan (f1Score metrics) = false /\ is_nan (falseAlarmRate metrics) = false) /\
  (max_arguments < TP ->
   calculatePerformanceMetrics Math_pow max_arguments matchingResults = JS.RangeError).
Proof.
  unfold array_sized. intros Htp Hfp Hfn. cbv zeta.
  split; [|apply calculatePerformanceMetrics_beyond]. intros Hwithin.
  exists (returned_metrics Math_pow matchingResults).
  split; [by apply calculatePerformanceMetrics_within|].
  unfold returned_metrics.
  cbn [truePositives falsePositives falseNegatives precision recall f1Score detectionRate
       falseAlarmRate].
  set (TP := length (matches matchingResults)) in *.
  set (FP := length (unmatchedDetected matchingResults)) in *.
  set (FN := length (unmatchedReference matchingResults)) in *.
  assert (2 ^ 32 < 2 ^ 53)%Z as Hbig by done.
  destruct (ratio_of_counts TP TP FP) as (Hp & Hp0 & Hpn); [by left|lia|lia|].
  destruct (ratio_of_counts TP TP FN) as (Hr & Hr0 & Hrn); [by left|lia|lia|].
  destruct (ratio_of_counts FP TP FP) as (Hf & _ & _); [by right|lia|lia|].
  split_and!; try done; try apply or_else_not_nan.
  apply f1_of_ratios. destruct (decide (TP = 0)) as [E|E].
  - left. split; [by apply Hp0|by apply Hr0].
  - right. split; [apply Hpn|apply Hrn]; lia.
Qed.

End PerformanceMetrics.

Lemma C3_witness :
  let TP := length (matches two_of_three) in
  let FP := length (unmatchedDetected two_of_three) in
  let FN := length (unmatchedReference two_of_three) in
  exists metrics,
    calculatePerformanceMetrics square_pow argument_limit two_of_three = JS.Normal metrics /\
    truePositives metrics = TP /\ falsePositives metrics = FP /\
    falseNegatives metrics = FN /\
    precision metrics = ratio (JS.of_nat TP) (JS.of_nat TP + JS.of_nat FP)%float /\
    recall metrics = ratio (JS.of_nat TP) (JS.of_nat TP + JS.of_nat FN)%float /\
    f1Score metrics =
      ratio (2 * precision metrics * recall metrics)%float
            (precision metrics + recall metrics)%float /\
    detectionRate metrics = recall metrics /\
    falseAlarmRate metrics = ratio (JS.of_nat FP) (JS.of_nat TP + JS.of_nat FP)%float /\
    is_nan (precision metrics) = false /\ is_nan (recall metrics) = false /\
    is_nan (f1Score metrics) = false /\ is_nan (falseAlarmRate metrics) = false.
Proof.
  assert (array_sized (matches two_of_three)) as Hm by reflexivity.
  assert (array_sized (unmatchedDetected two_of_three)) as Hd by reflexivity.
  assert (array_sized (unmatchedReference two_of_three)) as Hr by reflexivity.
  destruct (C3_performance_metrics square_pow argument_limit two_of_three Hm Hd Hr)
    as [Hwithin _].
  apply Hwithin, Nat.leb_le. by vm_compute.
Defined.

(** C3, as stated, fails: for a matching result with one match more than the
    engine takes arguments, whatever that number is, the metrics calculator
    returns no metrics. *)
Lemma C3_counterexample :
  array_sized (matches (many_matches (S argument_limit))) /\
  calculatePerformanceMetrics square_pow argument_limit (many_matches (S argument_limit)) =
    JS.RangeError /\
  forall (Math_pow : JS.number -> JS.number -> JS.number) (max_arguments : nat),
    calculatePerformanceMetrics Math_pow max_arguments (many_matches (S max_arguments)) =
    JS.RangeError.
Proof.
  split_and!.
  - unfold array_sized, many_matches, argument_limit. cbn [matches].
    rewrite length_replicate. lia.
  - apply many_matches_throws.
  - apply many_matches_throws.
Qed.

(** Two reference events and three candidates of which one matches neither:
    two matches, no unmatched reference event, one unmatched candidate, a
    precision of 2/3 and a recall of 1. *)
Lemma two_of_three_example :
  matched_ids two_of_three = [("A", "X"); ("B", "Y")]%string /\
  unmatchedReference two_of_three = [] /\
  map event_id (unmatchedDetected two_of_three) = ["Z"%string] /\
  exists metrics,
    calculatePerformanceMetrics square_pow argument_limit two_of_three = JS.Normal metrics /\
    precision metrics = (2 / 3)%float /\ recall metrics = 1%float /\
    f1Score metrics = 0.8%float.
Proof.
  split_and!; [by vm_compute..|].
  eexists. split; [apply calculatePerformanceMetrics_within, Nat.leb_le; by vm_compute|].
  by vm_compute.
Qed.

(** ** C4: events with values that are not numbers *)

Lemma score_is_num (td dist : JS.number) (md : option JS.number) (dd : JS.number)
    (criteria : MatchingCriteria) :
  is_num (calculateMatchScore td dist md dd criteria) ->
  is_num td /\ is_num dist /\ is_num dd /\ forall m, md = Some m -> is_num m.
Proof.
  unfold calculateMatchScore. intros H.
  apply add_is_num in H as [H Hdd]. apply add_is_num in H as [H Hmd].
  apply add_is_num in H as [Htd Hdist].
  apply mul_is_num in Htd as [Htd _]. apply div_is_num in Htd as [Htd _].
  apply mul_is_num in Hdist as [Hdist _]. apply div_is_num in Hdist as [Hdist _].
  apply mul_is_num in Hdd as [Hdd _]. apply div_is_num in Hdd as [Hdd _].
  split_and!; try done. intros m ->.
  apply mul_is_num in Hmd as [Hmd _]. by apply div_is_num in Hmd as [Hmd _].
Qed.

(** A pairing whose score is a number is made of numbers. *)
Lemma pairing_is_num (haversine : distance_function) (depth_of : Event -> JS.number)
    (criteria : MatchingCriteria) (i : nat) (r : Event) (j : nat) (d : Event) :
  let m := pairing haversine depth_of criteria i r j d in
  is_num (matchScore m) ->
  is_num (time r) /\ is_num (time d) /\ is_num (timeDiff m) /\ is_num (distance m) /\
  is_num (depthDiff m) /\ forall md, magnitudeDiff m = Some md -> is_num md.
Proof.
  simpl. intros (Htd & Hdist & Hdd & Hmd)%score_is_num. split_and!; try done.
  - apply div_is_num in Htd as [Htd _]. by apply abs_is_num, sub_is_num in Htd as [? _].
  - apply div_is_num in Htd as [Htd _]. by apply abs_is_num, sub_is_num in Htd as [_ ?].
Qed.

Lemma filter_index_elem_of {A} (keep : nat -> bool) (l : list A) (k i : nat) (x : A) :
  l !! i = Some x -> keep (k + i) = true -> x ∈ filter_index keep k l.
Proof.
  revert k i. induction l as [|y l IH]; intros k i Hi Hk; [done|]. simpl.
  destruct i as [|i]; simpl in Hi.
  - injection Hi as ->. rewrite Nat.add_0_r in Hk. rewrite Hk. left.
  - assert (x ∈ filter_index keep (S k) l).
    { apply (IH (S k) i); [done|]. by replace (S k + i) with (k + S i) by lia. }
    destruct (keep k); [by right|done].
Qed.

(** A committed pair joins two events of the input at its two indices, and
    none of its values is NaN. *)
Lemma as_coded_no_nan (haversine : distance_function) (refs dets : list Event)
    (c : CriteriaArg) (m : MatchCandidate) :
  m ∈ matches (as_coded haversine refs dets c) ->
  exists i j, refs !! i = Some (referenceEvent m) /\ dets !! j = Some (detectedEvent m) /\
    referenceIndex m = i /\ detectedIndex m = j /\
    is_num (time (referenceEvent m)) /\ is_num (time (detectedEvent m)) /\
    is_num (timeDiff m) /\ is_num (distance m) /\ is_num (depthDiff m) /\
    is_num (matchScore m) /\ (forall md, magnitudeDiff m = Some md -> is_num md) /\
    depthDiff m =
      abs (JS.field_or_else (depth_km (referenceEvent m)) 10
           - JS.field_or_else (depth_km (detectedEvent m)) 10)%float /\
    magnitudeDiff m =
      match magnitude (referenceEvent m), magnitude (detectedEvent m) with
      | Some mr, Some md => Some (abs (mr - md))%float
      | _, _ => None
      end.
Proof.
  intros (i & r & j & d & Hr & Hd & -> & _ & Hwin)%partition_sound.
  apply below_infinity_is_num in Hwin. pose proof Hwin as Hs.
  apply pairing_is_num in Hwin as (? & ? & ? & ? & ? & ?).
  exists i, j. by split_and!.
Qed.

(** C4, as amended. The matcher reports no error: for every input it returns
    a result. A pair whose time difference, distance, magnitude difference,
    depth difference or score is NaN is never committed, its score being
    NaN: no committed pair has an event whose time is NaN, or two magnitudes
    one of which is NaN, and an event whose time does not parse is returned
    among the unmatched events. A depth that is NaN is no such value: it is
    read as 10.0 km, as a missing depth is, and the depth difference of a
    committed pair is taken between the depths so read. *)
Theorem C4_matcher_never_fails (haversine : distance_function)
    (referenceEvents detectedEvents : list Event) (criteria : CriteriaArg) :
  exists res,
    matchEvents haversine referenceEvents detectedEvents criteria = JS.Fulfilled res /\
    (forall m, m ∈ matches res ->
       is_nan (time (referenceEvent m)) = false /\ is_nan (time (detectedEvent m)) = false /\
       is_nan (timeDiff m) = false /\ is_nan (distance m) = false /\
       is_nan (depthDiff m) = false /\ is_nan (matchScore m) = false /\
       (forall md, magnitudeDiff m = Some md -> is_nan md = false) /\
       (forall mr md, magnitude (referenceEvent m) = Some mr ->
                      magnitude (detectedEvent m) = Some md ->
                      is_nan mr = false /\ is_nan md = false) /\
       depthDiff m =
         abs (JS.field_or_else (depth_km (referenceEvent m)) 10
              - JS.field_or_else (depth_km (detectedEvent m)) 10)%float) /\
    (forall depth, is_nan depth = true -> JS.field_or_else (Some depth) 10 = 10%float) /\
    (forall i r, referenceEvents !! i = Some r -> is_nan (time r) = true ->
       r ∈ unmatchedReference res) /\
    (forall j d, detectedEvents !! j = Some d -> is_nan (time d) = true ->
       d ∈ unmatchedDetected res).
Proof.
  eexists. split; [apply matchEvents_as_coded|]. split_and!.
  - intros m (i & j & _ & _ & _ & _ & ? & ? & ? & ? & ? & ? & Hmd & Hdepth & Hmag)%as_coded_no_nan.
    rewrite !is_nan_false. split_and!; try done.
    + intros md ?. by apply is_nan_false, Hmd.
    + intros mr md Er Ed. rewrite Er, Ed in Hmag.
      specialize (Hmd _ Hmag). apply abs_is_num, sub_is_num in Hmd as [? ?].
      by rewrite !is_nan_false.
  - intros depth Hnan. simpl. unfold JS.or_else, JS.truthy. by rewrite Hnan.
  - intros i r Hr Hnan. apply (filter_index_elem_of _ _ 0 i); [done|]. simpl.
    apply negb_true_iff, bool_decide_eq_false.
    intros (m & -> & Hm)%list_elem_of_fmap.
    apply as_coded_no_nan in Hm as (i' & j & Hi & _ & <- & _ & Hnum & _).
    rewrite Hr in Hi. injection Hi as ->. apply is_nan_false in Hnum. congruence.
  - intros j d Hd Hnan. apply (filter_index_elem_of _ _ 0 j); [done|]. simpl.
    apply negb_true_iff, bool_decide_eq_false.
    intros (m & -> & Hm)%list_elem_of_fmap.
    apply as_coded_no_nan in Hm as (i' & j' & _ & Hj & _ & <- & _ & Hnum & _).
    rewrite Hd in Hj. injection Hj as ->. apply is_nan_false in Hnum. congruence.
Qed.

(** An event whose depth is NaN is matched with an event 55 km deep, at a
    depth difference of 45 km. *)
Lemma nan_depth_example :
  map (fun m => (event_id (referenceEvent m), event_id (detectedEvent m), depthDiff m))
    (matches (as_coded same_point [undepthed] [deep] no_criteria)) =
  [("quake"%string, "quake"%string, 45%float)] /\
  matchEvents same_point [undepthed] [deep] no_criteria =
  JS.Fulfilled (as_coded same_point [undepthed] [deep] no_criteria).
Proof. split; [by vm_compute|apply matchEvents_as_coded]. Qed.

(** C4, as stated, fails: a reference event whose time is NaN is compared
    with a candidate, and the matcher, whatever the distance function,
    returns a result in which both events are unmatched. *)
Lemma C4_counterexample :
  is_nan (time unparseable) = true /\
  forall haversine : distance_function,
    matchEvents haversine [unparseable] [quake] no_criteria =
    JS.Fulfilled {|
      matches := [];
      unmatchedReference := [unparseable];
      unmatchedDetected := [quake];
      matchingCriteria := defaultCriteria;
      summary := {| totalReference := 1; totalDetected := 1; matchedPairs := 0;
                    sum_unmatchedReference := 1; sum_unmatchedDetected := 1 |}
    |}.
Proof.
  split; [done|]. intros haversine. rewrite matchEvents_as_coded.
  assert (matches (as_coded haversine [unparseable] [quake] no_criteria) = []) as E.
  { destruct (matches _) as [|m ms] eqn:E; [done|].
    assert (Hm : m ∈ matches (as_coded haversine [unparseable] [quake] no_criteria))
      by (rewrite E; left).
    apply as_coded_no_nan in Hm as (i & j & Hi & _ & _ & _ & Hnum & _).
    apply list_elem_of_lookup_2, list_elem_of_singleton in Hi. rewrite Hi in Hnum.
    by apply is_nan_false in Hnum. }
  unfold as_coded, partition in *. simpl in E. simpl. rewrite E. reflexivity.
Qed.

(** ** C5: thresholds that are not positive *)

(** C5, as amended. The matcher validates no threshold: for every criteria
    value, a threshold that is not positive included, it returns a result
    whose criteria hold each given threshold as it was given, the default
    standing in for a threshold that was left out, and every committed pair
    passes the four filters at these thresholds. *)
Theorem C5_thresholds_used_as_given (haversine : distance_function)
    (referenceEvents detectedEvents : list Event) (criteria : CriteriaArg) :
  exists res,
    matchEvents haversine referenceEvents detectedEvents criteria = JS.Fulfilled res /\
    matchingCriteria res = spread defaultCriteria criteria /\
    (forall v, arg_timeWindow criteria = Some v -> timeWindow (matchingCriteria res) = v) /\
    (forall v, arg_distanceThreshold criteria = Some v ->
       distanceThreshold (matchingCriteria res) = v) /\
    (forall v, arg_magnitudeDiffThreshold criteria = Some v ->
       magnitudeDiffThreshold (matchingCriteria res) = v) /\
    (forall v, arg_depthDiffThreshold criteria = Some v ->
       depthDiffThreshold (matchingCriteria res) = v) /\
    (forall m f, m ∈ matches res -> exceeds (matchingCriteria res) m f = false).
Proof.
  eexists. split; [apply matchEvents_as_coded|]. simpl. split_and!; try done.
  - by intros v ->.
  - by intros v ->.
  - by intros v ->.
  - by intros v ->.
  - intros m f (i & r & j & d & _ & _ & _ & Hrej & _)%partition_sound.
    by apply rejected_false.
Qed.

(** C5, as stated, fails: with a [timeWindow] of -1 the matcher, whatever the
    distance function, returns a result, in which the threshold is -1 and
    nothing is matched. *)
Lemma C5_counterexample :
  (arg_timeWindow negative_window = Some (-1)%float /\ (-1 <=? 0)%float = true) /\
  forall haversine : distance_function,
    matchEvents haversine [quake] [quake] negative_window =
    JS.Fulfilled {|
      matches := [];
      unmatchedReference := [quake];
      unmatchedDetected := [quake];
      matchingCriteria := {| timeWindow := -1; distanceThreshold := 10;
                             magnitudeDiffThreshold := 1; depthDiffThreshold := 50 |};
      summary := {| totalReference := 1; totalDetected := 1; matchedPairs := 0;
                    sum_unmatchedReference := 1; sum_unmatchedDetected := 1 |}
    |}.
Proof. split; [done|]. intros haversine. by vm_compute. Qed.

(** ** C6: the score *)

(** C6. For four absolute differences (numbers that are not negative, the
    magnitude difference possibly absent) and positive thresholds, a
    difference and its threshold not being both infinite, the score is the
    weighted sum of the differences divided by their thresholds, with weights
    0.4, 0.4, 0.15 and 0.05, the magnitude term being 0 when the magnitude
    difference is absent, and it is not negative. The scorer is a function:
    it returns a value for every input and changes no state. *)
Theorem C6_score_formula_nonnegative (timeDiff distance : JS.number)
    (magnitudeDiff : option JS.number) (depthDiff : JS.number) (criteria : MatchingCriteria) :
  measured_against timeDiff (timeWindow criteria) ->
  measured_against distance (distanceThreshold criteria) ->
  (forall md, magnitudeDiff = Some md ->
              measured_against md (magnitudeDiffThreshold criteria)) ->
  measured_against depthDiff (depthDiffThreshold criteria) ->
  calculateMatchScore timeDiff distance magnitudeDiff depthDiff criteria =
    (timeDiff / timeWindow criteria * 0.4
     + distance / distanceThreshold criteria * 0.4
     + match magnitudeDiff with
       | Some md => md / magnitudeDiffThreshold criteria * 0.15
       | None => 0
       end
     + depthDiff / depthDiffThreshold criteria * 0.05)%float /\
  (0 <=? calculateMatchScore timeDiff distance magnitudeDiff depthDiff criteria)%float = true.
Proof.
  intros Ht Hd Hm Hz. split; [done|].
  apply leb_zero_nonneg. unfold calculateMatchScore.
  repeat apply add_nonneg; try (apply mul_nonneg; [by apply div_nonneg|exact I]).
  destruct magnitudeDiff as [md|]; [|exact I].
  apply mul_nonneg; [|exact I]. apply div_nonneg. by apply Hm.
Qed.

Lemma C6_witness :
  calculateMatchScore 25 0.5 (Some 0.1%float) 0 defaultCriteria =
    (25 / 30 * 0.4 + 0.5 / 10 * 0.4 + 0.1 / 1 * 0.15 + 0 / 50 * 0.05)%float /\
  (0 <=? calculateMatchScore 25 0.5 (Some 0.1%float) 0 defaultCriteria)%float = true.
Proof.
  apply (C6_score_formula_nonnegative 25 0.5 (Some 0.1%float) 0 defaultCriteria);
    first [ by split_and!; [| |left] | intros md [= <-]; by split_and!; [| |left] ].
Defined.

(** ** C7: the residual statistics *)

Section ResidualStatistics.

Variable Math_pow : JS.number -> JS.number -> JS.number.
Variable max_arguments : nat.

(** The residual statistics that are returned for a non-empty list of
    matched pairs. *)
Lemma returned_residuals_describes (matched : list MatchCandidate) :
  matched <> [] ->
  exists block,
    returned_residuals Math_pow matched = Some block /\ residuals_of Math_pow matched block.
Proof.
  destruct matched as [|m ms]; [done|]. intros _. eexists. split; [reflexivity|].
  unfold residuals_of. cbn [res_time res_distance res_magnitude]. split_and!.
  - eexists. split; [done|]. by apply returned_stats_describes.
  - eexists. split; [done|]. by apply returned_stats_describes.
  - destruct (omap magnitudeDiff (m :: ms)) as [|g gs] eqn:E; [done|].
    eexists. split; [done|]. by apply returned_stats_describes.
Qed.

(** C7, as amended. For every matching result whose matches the engine
    takes as the arguments of a call: without a match the residual
    statistics are absent; with at least one match they hold the count, the
    mean, the population standard deviation, the root mean square, a
    minimum and a maximum of the time differences of the matched pairs and
    of their distances, and those of the magnitude differences of the pairs
    that have one, this last block being absent when no pair has one. For a
    result with more matches the calculator returns nothing: it throws a
    [RangeError]. *)
Theorem C7_residual_statistics (matchingResults : MatchResult) :
  (length (matches matchingResults) <= max_arguments ->
   exists metrics,
     calculatePerformanceMetrics Math_pow max_arguments matchingResults = JS.Normal metrics /\
     (matches matchingResults = [] -> residualStats metrics = None) /\
     (matches matchingResults <> [] ->
        exists block,
          residualStats metrics = Some block /\
          residuals_of Math_pow (matches matchingResults) block)) /\
  (max_arguments < length (matches matchingResults) ->
   calculatePerformanceMetrics Math_pow max_arguments matchingResults = JS.RangeError).
Proof.
  split; [|apply calculatePerformanceMetrics_beyond]. intros Hwithin.
  exists (returned_metrics Math_pow matchingResults).
  split; [by apply calculatePerformanceMetrics_within|].
  unfold returned_metrics. cbn [residualStats]. split.
  - by intros ->.
  - apply returned_residuals_describes.
Qed.

End ResidualStatistics.

(** C7, as stated, fails: a matching result with one match more than the
    engine takes arguments has matches, and the metrics calculator returns
    no metrics for it, so no residual statistics. *)
Lemma C7_counterexample :
  matches (many_matches (S argument_limit)) <> [] /\
  ~ exists metrics,
      calculatePerformanceMetrics square_pow argument_limit (many_matches (S argument_limit)) =
      JS.Normal metrics.
Proof.
  split.
  - unfold many_matches. cbn [matches].
    by change (replicate (S ?n) ?x) with (x :: replicate n x).
  - rewrite many_matches_throws. by intros [metrics H].
Qed.

(** The two catalogs of two events: the pairs are 10 and 28 seconds apart,
    and no pair has a magnitude difference. *)
Lemma residual_statistics_example :
  exists metrics block time,
    calculatePerformanceMetrics square_pow argument_limit
      (as_coded same_point first_catalog second_catalog no_criteria) = JS.Normal metrics /\
    residualStats metrics = Some block /\ res_time block = Some time /\
    count time = 2 /\ mean time = 19%float /\ stdDev time = 9%float /\
    min time = 10%float /\ max time = 28%float /\ res_magnitude block = None.
Proof.
  eexists _, _, _.
  split; [apply calculatePerformanceMetrics_within, Nat.leb_le; by vm_compute|].
  by vm_compute.
Qed.

(** ** C8: the thresholds are inclusive *)

(** C8. For every reference event and candidate compared under criteria, and
    for each of the four filters (time, distance, magnitude, depth): a
    difference that lies exactly on its threshold does not exceed it; a
    candidate with a difference that exceeds its threshold is rejected, the
    iteration leaving the best match as it was; and an unclaimed candidate
    none of whose differences exceeds its threshold passes the filters, its
    score being compared with the best score so far. *)
Theorem C8_threshold_boundaries (haversine : distance_function) (criteria : MatchingCriteria)
    (claimed : gset nat) (refIdx : nat) (refEvent : Event) (detIdx : nat) (detEvent : Event)
    (st : Best) (f : Filter) :
  let c := pairing haversine depth_if_falsy criteria refIdx refEvent detIdx detEvent in
  (on_boundary criteria c f -> exceeds criteria c f = false) /\
  (exceeds criteria c f = true ->
     scan_step haversine criteria claimed refIdx refEvent detIdx detEvent st = st) /\
  (detIdx ∉ claimed -> (forall f', exceeds criteria c f' = false) ->
     scan_step haversine criteria claimed refIdx refEvent detIdx detEvent st =
     keep_best st c).
Proof.
  intros c. split_and!.
  - destruct f; simpl; unfold JS.gt; try apply eqb_not_ltb.
    intros (md & -> & H). by apply eqb_not_ltb.
  - intros H. rewrite scan_step_spec. cbv zeta. fold c. destruct (bool_decide _); [done|].
    destruct (rejected criteria c) eqn:E; [done|].
    apply rejected_false with (f := f) in E. congruence.
  - intros Hj H. rewrite scan_step_spec. cbv zeta. fold c.
    rewrite bool_decide_eq_false_2 by done.
    apply rejected_false in H. by rewrite H.
Qed.

(** The boundary of the time filter on an example: a candidate 30 seconds
    after the reference event is matched under the default criteria, one 31
    seconds after it is not. *)
Lemma time_boundary_example (haversine : distance_function) :
  (haversine 35 139 35 139 = 0)%float ->
  matched_ids (as_coded haversine [after "ref"%string 0] [after "det"%string 30] no_criteria) =
    [("ref", "det")%string] /\
  matched_ids (as_coded haversine [after "ref"%string 0] [after "det"%string 31] no_criteria) = [].
Proof.
  intros H. unfold as_coded.
  rewrite !(partition_agree haversine same_point)
    by (apply agree_on_same_point; [done|repeat constructor..]).
  by vm_compute.
Qed.

(** ** C9: the two catalogs do not play the same role *)

(** C9. Matching is not commutative in the roles of the two catalogs: on two
    catalogs of two events each, all at one point, the matcher pairs A with
    X and B with Y, and with the catalogs swapped it pairs X with B only. *)
Theorem C9_matching_not_commutative (haversine : distance_function) :
  (haversine 35 139 35 139 = 0)%float ->
  exists res swapped,
    matchEvents haversine first_catalog second_catalog no_criteria = JS.Fulfilled res /\
    matchEvents haversine second_catalog first_catalog no_criteria = JS.Fulfilled swapped /\
    matched_ids res = [("A", "X"); ("B", "Y")]%string /\
    matched_ids swapped = [("X", "B")%string] /\
    ~ (forall a b, (a, b) ∈ matched_ids res <-> (b, a) ∈ matched_ids swapped).
Proof.
  intros H. do 2 eexists. rewrite !matchEvents_as_coded. unfold as_coded.
  rewrite !(partition_agree haversine same_point)
    by (apply agree_on_same_point; [done|repeat constructor..]).
  split_and!; [reflexivity..| | |].
  - by vm_compute.
  - by vm_compute.
  - intros Hsame. assert (Hin : ("X", "A")%string ∈ [("X", "B")%string]).
    { change [("X", "B")%string] with
        (matched_ids (partition same_point depth_if_falsy below_infinity
                        second_catalog first_catalog no_criteria)).
      apply Hsame. vm_compute. left. }
    by apply list_elem_of_singleton in Hin.
Qed.

Lemma C9_witness :
  exists res swapped,
    matchEvents same_point first_catalog second_catalog no_criteria = JS.Fulfilled res /\
    matchEvents same_point second_catalog first_catalog no_criteria = JS.Fulfilled swapped /\
    matched_ids res = [("A", "X"); ("B", "Y")]%string /\
    matched_ids swapped = [("X", "B")%string] /\
    ~ (forall a b, (a, b) ∈ matched_ids res <-> (b, a) ∈ matched_ids swapped).
Proof. apply (C9_matching_not_commutative same_point). reflexivity. Defined.

(** ** C10: a depth of zero *)




(** An event at the surface and an event 55 km deep are matched, at a depth
    difference of 45 km; with a depth threshold of 40 km they are not. *)
Lemma zero_depth_example :
  map depthDiff (matches (as_coded same_point [surface] [deep] no_criteria)) = [45%float] /\
  matchEvents same_point [surface] [deep] no_criteria =
    JS.Fulfilled (as_coded same_point [surface] [deep] no_criteria) /\
  matches (as_coded same_point [surface] [deep]
             {| arg_timeWindow := None; arg_distanceThreshold := None;
                arg_magnitudeDiffThreshold := None;
                arg_depthDiffThreshold := Some 40%float |}) = [].
Proof. split_and!; [by vm_compute|apply matchEvents_as_coded|by vm_compute]. Qed.

(** * Further properties of the code *)

Section Exact.

Local Open Scope Z_scope.

Lemma dyadic_unique (j n : Z) (x y : spec_float) :
  0 <= j -> dyadic j n x -> dyadic j n y -> x = y.
Proof.
  intros Hj (m & e & -> & Hd & He & Hm) (m' & e' & -> & Hd' & He' & Hm').
  apply normal_bounds in Hd as [H1 H2], Hd' as [H1' H2'].
  assert (e = e') as <-.
  { destruct (Z.lt_trichotomy e e') as [H|[H|H]]; [|done|].
    - exfalso. assert (- (e + j) = (- (e' + j)) + (e' - e)) as E by lia.
      rewrite E, Z.pow_add_r in Hm by lia.
      assert (2 <= 2 ^ (e' - e)).
      { change 2 with (2 ^ 1) at 1. apply Z.pow_le_mono_r; lia. }
      assert (0 < 2 ^ (- (e' + j))) by (apply Z.pow_pos_nonneg; lia). nia.
    - exfalso. assert (- (e' + j) = (- (e + j)) + (e - e')) as E by lia.
      rewrite E, Z.pow_add_r in Hm' by lia.
      assert (2 <= 2 ^ (e - e')).
      { change 2 with (2 ^ 1) at 1. apply Z.pow_le_mono_r; lia. }
      assert (0 < 2 ^ (- (e + j))) by (apply Z.pow_pos_nonneg; lia). nia. }
  f_equal. lia.
Qed.

Lemma shr_1_exact (m : Z) :
  0 <= m ->
  shr_1 {| shr_m := 2 * m; shr_r := false; shr_s := false |} =
  {| shr_m := m; shr_r := false; shr_s := false |}.
Proof. by destruct m as [|p|p]. Qed.

Lemma iter_pos_shr_1_exact (k : positive) (m : Z) :
  0 <= m ->
  SpecFloat.iter_pos shr_1 k {| shr_m := m * 2 ^ Z.pos k; shr_r := false; shr_s := false |} =
  {| shr_m := m; shr_r := false; shr_s := false |}.
Proof.
  revert m. induction k as [k IH|k IH|]; intros m Hm.
  - change (SpecFloat.iter_pos shr_1 k~1 ?x) with
      (SpecFloat.iter_pos shr_1 k (SpecFloat.iter_pos shr_1 k (shr_1 x))).
    assert (m * 2 ^ Z.pos k~1 = 2 * ((m * 2 ^ Z.pos k) * 2 ^ Z.pos k)) as ->.
    { rewrite (Pos2Z.inj_xI k), Z.add_1_r, Z.pow_succ_r, Z.pow_twice_r by lia. ring. }
    rewrite shr_1_exact, IH, IH; [done|lia|..].
    + assert (0 < 2 ^ Z.pos k) by (apply Z.pow_pos_nonneg; lia). nia.
    + assert (0 < 2 ^ Z.pos k) by (apply Z.pow_pos_nonneg; lia). nia.
  - change (SpecFloat.iter_pos shr_1 k~0 ?x) with
      (SpecFloat.iter_pos shr_1 k (SpecFloat.iter_pos shr_1 k x)).
    assert (m * 2 ^ Z.pos k~0 = (m * 2 ^ Z.pos k) * 2 ^ Z.pos k) as ->.
    { rewrite (Pos2Z.inj_xO k), Z.pow_twice_r. ring. }
    rewrite IH, IH; [done|lia|].
    assert (0 < 2 ^ Z.pos k) by (apply Z.pow_pos_nonneg; lia). nia.
  - change (SpecFloat.iter_pos shr_1 1 ?x) with (shr_1 x).
    rewrite Z.pow_1_r, Z.mul_comm. by apply shr_1_exact.
Qed.

(** Rounding a mantissa of at least 53 digits whose low digits are zeros is
    exact. *)
Lemma binary_round_aux_exact (m : positive) (k e : Z) :
  Z.pos (digits2_pos m) = 53 -> 0 <= k ->
  -1021 <= 53 + k + e -> 53 + k + e <= 1022 ->
  binary_round_aux prec emax false (Z.pos m * 2 ^ k) e loc_Exact =
  S754_finite false m (e + k).
Proof.
  intros Hd Hk Hlo Hhi. pose proof (normal_bounds m Hd) as [Hb1 Hb2].
  assert (0 < 2 ^ k) as HP by (apply Z.pow_pos_nonneg; lia).
  destruct (Z.pos m * 2 ^ k) as [|M|M] eqn:EM; [lia| |lia].
  assert (Z.pos (digits2_pos M) = 53 + k) as HdM.
  { apply digits2_pos_unique; [|lia]. rewrite <- EM.
    replace (53 + k - 1) with (52 + k) by lia. rewrite !Z.pow_add_r by lia. nia. }
  unfold binary_round_aux, shr_fexp. simpl Zdigits2. rewrite HdM, fexp_normal by lia.
  replace (53 + k + e - 53 - e) with k by lia.
  assert (shr (shr_record_of_loc (Z.pos M) loc_Exact) e k =
          ({| shr_m := Z.pos m; shr_r := false; shr_s := false |}, e + k)) as ->.
  { unfold shr. simpl shr_record_of_loc. destruct k as [|k|k]; [| |lia].
    - rewrite Z.pow_0_r, Z.mul_1_r in EM. rewrite Z.add_0_r. by rewrite EM.
    - rewrite <- EM. by rewrite iter_pos_shr_1_exact. }
  simpl. rewrite Hd, fexp_normal by lia.
  replace (53 + (e + k) - 53 - (e + k)) with 0 by lia. simpl.
  rewrite (proj2 (Z.leb_le _ _)); [done|]. change (emax - prec) with 971. lia.
Qed.

(** Rounding the integer mantissa of [n / 2^j], of at least 53 digits. *)
Lemma binary_round_aux_dyadic (j n : Z) (m : positive) (e : Z) :
  0 < n < 2 ^ 53 -> e + j <= 0 -> Z.pos m = n * 2 ^ (- (e + j)) ->
  53 <= Z.pos (digits2_pos m) -> -1000 <= e + j -> 0 <= j <= 60 ->
  dyadic j n (binary_round_aux prec emax false (Z.pos m) e loc_Exact).
Proof.
  intros Hn He Hm Hd Hlo Hj.
  set (d := Z.pos (digits2_pos m)) in *. set (k := d - 53).
  pose proof (digits2_pos_bounds m) as [Hb1 Hb2]. fold d in Hb1, Hb2.
  assert (0 < 2 ^ (- (e + j))) as HP by (apply Z.pow_pos_nonneg; lia).
  assert (d <= 53 - (e + j)) as Hdle.
  { apply digits2_pos_le; [lia|].
    replace (53 - (e + j)) with (53 + - (e + j)) by lia.
    rewrite Hm, Z.pow_add_r by lia. nia. }
  assert (- (e + j) = (- (e + j) - k) + k) as E by lia.
  assert (0 < 2 ^ k) as HPk by (apply Z.pow_pos_nonneg; lia).
  assert (0 < 2 ^ (- (e + j) - k)) as HPk' by (apply Z.pow_pos_nonneg; lia).
  rewrite E, Z.pow_add_r, Z.mul_assoc in Hm by lia.
  destruct (n * 2 ^ (- (e + j) - k)) as [|m'|m'] eqn:Em'; [lia| |lia].
  assert (Z.pos (digits2_pos m') = 53) as Hd'.
  { apply digits2_pos_unique; [|lia].
    assert (2 ^ (d - 1) = 2 ^ 52 * 2 ^ k) as E1.
    { rewrite <- Z.pow_add_r by lia. f_equal. lia. }
    assert (2 ^ d = 2 ^ 53 * 2 ^ k) as E2.
    { rewrite <- Z.pow_add_r by lia. f_equal. lia. }
    change (53 - 1) with 52. rewrite E1, Hm in Hb1. rewrite E2, Hm in Hb2.
    split; [by apply Z.mul_le_mono_pos_r in Hb1|by apply Z.mul_lt_mono_pos_r in Hb2]. }
  rewrite Hm, binary_round_aux_exact by (subst k; lia).
  exists m', (e + k). split_and!; [done|done|lia|].
  rewrite <- Em'. f_equal. f_equal. lia.
Qed.

(** Rounding the integer mantissa of [n / 2^j], whatever its number of
    digits. *)
Lemma binary_round_dyadic (j n : Z) (m : positive) (e : Z) :
  0 < n < 2 ^ 53 -> e + j <= 0 -> Z.pos m = n * 2 ^ (- (e + j)) ->
  -900 <= e + j -> 0 <= j <= 60 ->
  dyadic j n (binary_round prec emax false m e).
Proof.
  intros Hn He Hm Hlo Hj. unfold binary_round.
  set (d := Z.pos (digits2_pos m)).
  pose proof (digits2_pos_bounds m) as [Hb1 Hb2]. fold d in Hb1, Hb2.
  assert (0 < 2 ^ (- (e + j))) as HP by (apply Z.pow_pos_nonneg; lia).
  assert (0 < d) as Hd0 by (subst d; lia).
  assert (d <= 53 - (e + j)) as Hdle.
  { apply digits2_pos_le; [lia|].
    replace (53 - (e + j)) with (53 + - (e + j)) by lia.
    rewrite Hm, Z.pow_add_r by lia. nia. }
  rewrite fexp_normal by lia.
  destruct (Z.le_gt_cases 53 d) as [Hd|Hd].
  - rewrite shl_align_id by lia. apply binary_round_aux_dyadic; try done; lia.
  - destruct (shl_align_shift m e (d + e - 53)) as (m' & -> & Hm'); [lia|].
    destruct (Z.eq_dec (d + e - 53) e) as [?|_]; [lia|].
    replace (e - (d + e - 53)) with (53 - d) in Hm' by lia.
    assert (0 < 2 ^ (53 - d)) as HPd by (apply Z.pow_pos_nonneg; lia).
    assert (Z.pos (digits2_pos m') = 53) as Hd'.
    { apply digits2_pos_unique; [|lia]. rewrite Hm'.
      assert (2 ^ (53 - 1) = 2 ^ (d - 1) * 2 ^ (53 - d)) as ->.
      { rewrite <- Z.pow_add_r by lia. f_equal. lia. }
      assert (2 ^ 53 = 2 ^ d * 2 ^ (53 - d)) as ->.
      { rewrite <- Z.pow_add_r by lia. f_equal. lia. }
      nia. }
    apply binary_round_aux_dyadic; try done; try lia.
    rewrite Hm', Hm, <- Z.mul_assoc, <- Z.pow_add_r by lia. f_equal. f_equal. lia.
Qed.

Lemma of_Z_dyadic (n : Z) :
  0 < n < 2 ^ 53 -> dyadic 0 n (Prim2SF (JSLib.of_Z n)).
Proof.
  intros Hn. unfold JSLib.of_Z. rewrite of_uint63_spec, Uint63.of_Z_spec.
  rewrite Z.mod_small.
  - destruct n as [|p|p]; [lia| |lia]. simpl.
    apply binary_round_dyadic; lia.
  - split; [lia|]. change Uint63.wB with (2 ^ 63).
    assert (2 ^ 53 < 2 ^ 63) by (apply Z.pow_lt_mono_r; lia). lia.
Qed.

Lemma dyadic_exponent (j n : Z) (m : positive) (e : Z) :
  0 < n -> Z.pos (digits2_pos m) = 53 -> e + j <= 0 -> Z.pos m = n * 2 ^ (- (e + j)) ->
  -53 < e + j.
Proof.
  intros Hn Hd He Hm. apply normal_bounds in Hd as [_ Hd].
  destruct (Z.le_gt_cases (e + j) (-53)) as [H|H]; [|done].
  assert (2 ^ 53 <= 2 ^ (- (e + j))) by (apply Z.pow_le_mono_r; lia). nia.
Qed.

Lemma SFadd_dyadic (a b : Z) (x y : spec_float) :
  0 < a -> 0 < b -> a + b < 2 ^ 53 ->
  dyadic 0 a x -> dyadic 0 b y -> dyadic 0 (a + b) (SFadd prec emax x y).
Proof.
  intros Ha Hb Hab (mx & ex & -> & Hdx & Hex & Hmx) (my & ey & -> & Hdy & Hey & Hmy). simpl.
  pose proof (dyadic_exponent 0 a mx ex Ha Hdx Hex Hmx).
  pose proof (dyadic_exponent 0 b my ey Hb Hdy Hey Hmy).
  rewrite Z.add_0_r in *.
  set (ez := Z.min ex ey).
  destruct (shl_align_shift mx ex ez) as (ax & -> & Hax); [lia|].
  destruct (shl_align_shift my ey ez) as (ay & -> & Hay); [lia|].
  simpl fst. change (Z.pos ax + Z.pos ay) with (Z.pos (ax + ay)). simpl binary_normalize.
  apply binary_round_dyadic; try lia.
  rewrite Pos2Z.inj_add, Hax, Hay, Hmx, Hmy, Z.add_0_r.
  rewrite <- !Z.mul_assoc, <- !Z.pow_add_r by lia.
  replace (- ex + (ex - ez)) with (- ez) by lia.
  replace (- ey + (ey - ez)) with (- ez) by lia. ring.
Qed.

Lemma SFsub_dyadic (a b : Z) (x y : spec_float) :
  0 < b -> b < a -> a < 2 ^ 53 ->
  dyadic 0 a x -> dyadic 0 b y -> dyadic 0 (a - b) (SFsub prec emax x y).
Proof.
  intros Hb Hba Ha (mx & ex & -> & Hdx & Hex & Hmx) (my & ey & -> & Hdy & Hey & Hmy). simpl.
  pose proof (dyadic_exponent 0 a mx ex ltac:(lia) Hdx Hex Hmx).
  pose proof (dyadic_exponent 0 b my ey Hb Hdy Hey Hmy).
  rewrite Z.add_0_r in *.
  set (ez := Z.min ex ey).
  destruct (shl_align_shift mx ex ez) as (ax & -> & Hax); [lia|].
  destruct (shl_align_shift my ey ez) as (ay & -> & Hay); [lia|].
  simpl fst.
  assert (Z.pos ax - Z.pos ay = (a - b) * 2 ^ (- ez)) as E.
  { rewrite Hax, Hay, Hmx, Hmy.
    rewrite <- !Z.mul_assoc, <- !Z.pow_add_r by lia.
    replace (- ex + (ex - ez)) with (- ez) by lia.
    replace (- ey + (ey - ez)) with (- ez) by lia. ring. }
  assert (0 < 2 ^ (- ez)) by (apply Z.pow_pos_nonneg; lia).
  destruct (Z.pos ax - Z.pos ay) as [|p|p] eqn:Ep; [nia| |nia].
  simpl binary_normalize. apply binary_round_dyadic; try lia.
  by rewrite Z.add_0_r.
Qed.

Lemma SFsub_same (a : Z) (x y : spec_float) :
  0 < a -> dyadic 0 a x -> dyadic 0 a y -> SFsub prec emax x y = S754_zero false.
Proof.
  intros Ha Hx Hy. rewrite (dyadic_unique 0 a x y) by done.
  destruct Hy as (m & e & -> & _). simpl.
  by rewrite Z.min_id, shl_align_id, Z.sub_diag by lia.
Qed.

(** Division by 2, multiplication by 0.25 and by 0.75. *)
Lemma SFdiv_two_dyadic (j n : Z) (x : spec_float) :
  0 < n < 2 ^ 53 -> 0 <= j <= 50 ->
  dyadic j n x -> dyadic (j + 1) n (SFdiv prec emax x (Prim2SF 2)).
Proof.
  intros Hn Hj (m & e & -> & Hd & He & Hm).
  pose proof (dyadic_exponent j n m e ltac:(lia) Hd He Hm).
  change (Prim2SF 2) with (S754_finite false 4503599627370496 (-51)).
  assert (Z.pos (digits2_pos 4503599627370496) = 53) as Hd2 by done.
  assert (Z.pos 4503599627370496 = 2 ^ 52) as Hc by done.
  revert Hd2 Hc. generalize 4503599627370496%positive. intros c Hd2 Hc. simpl.
  unfold SFdiv_core_binary. simpl Zdigits2. rewrite Hd, Hd2.
  replace (53 + e - (53 + -51)) with (e - -51) by lia.
  rewrite fexp_normal, Z.min_l by lia.
  replace (e - -51 - (e - -51 - 53)) with 53 by lia. cbv iota.
  rewrite Z.shiftl_mul_pow2 by lia.
  assert (Z.div_eucl (Z.pos m * 2 ^ 53) (Z.pos c) = (Z.pos m * 2, 0)) as ->.
  { pose proof (Z_div_mod (Z.pos m * 2 ^ 53) (Z.pos c) eq_refl) as Hqr.
    destruct (Z.div_eucl (Z.pos m * 2 ^ 53) (Z.pos c)) as [q r].
    destruct Hqr as [Hq Hr]. rewrite Hc in *. change (2 ^ 53) with (2 ^ 52 * 2) in Hq.
    assert (r = 0 /\ q = Z.pos m * 2) as [-> ->]; [|done]. nia. }
  assert (new_location (Z.pos c) 0 = loc_Exact) as ->.
  { unfold new_location, new_location_even, new_location_odd.
    by destruct (Z.even (Z.pos c)); simpl; destruct (Z.pos c / 2)%Z; try done;
      destruct (_ ?= _)%Z. }
  change (Z.pos m * 2) with (Z.pos (m * 2)).
  apply binary_round_aux_dyadic; try lia.
  - rewrite Pos2Z.inj_mul, Hm.
    replace (- (e + j)) with (- (e - -51 - 53 + (j + 1)) - 1) by lia.
    set (t := - (e - -51 - 53 + (j + 1))).
    assert (2 ^ t = 2 ^ (t - 1) * 2) as ->; [|ring].
    rewrite <- (Z.pow_1_r 2) at 3. rewrite <- Z.pow_add_r by (subst t; lia).
    f_equal. lia.
  - apply (digits2_pos_ge _ 52); [lia|]. apply normal_bounds in Hd. rewrite Pos2Z.inj_mul. lia.
Qed.

Lemma SFmul_quarter_dyadic (j n : Z) (x : spec_float) :
  0 < n < 2 ^ 53 -> 0 <= j <= 50 ->
  dyadic j n x -> dyadic (j + 2) n (SFmul prec emax x (Prim2SF 0.25)).
Proof.
  intros Hn Hj (m & e & -> & Hd & He & Hm).
  pose proof (dyadic_exponent j n m e ltac:(lia) Hd He Hm).
  change (Prim2SF 0.25) with (S754_finite false 4503599627370496 (-54)).
  assert (Z.pos 4503599627370496 = 2 ^ 52) as Hc by done.
  revert Hc. generalize 4503599627370496%positive. intros c Hc. simpl.
  apply normal_bounds in Hd.
  apply binary_round_aux_dyadic; try lia.
  - rewrite Pos2Z.inj_mul, Hm, Hc, <- Z.mul_assoc. f_equal.
    rewrite <- Z.pow_add_r by lia. f_equal. lia.
  - apply (digits2_pos_ge _ 52); [lia|]. rewrite Pos2Z.inj_mul, Hc.
    assert (0 < 2 ^ 52) by done. nia.
Qed.

Lemma SFmul_three_quarters_dyadic (j n : Z) (x : spec_float) :
  0 < n -> 3 * n < 2 ^ 53 -> 0 <= j <= 50 ->
  dyadic j n x -> dyadic (j + 2) (3 * n) (SFmul prec emax x (Prim2SF 0.75)).
Proof.
  intros Hn Hn3 Hj (m & e & -> & Hd & He & Hm).
  pose proof (dyadic_exponent j n m e ltac:(lia) Hd He Hm).
  change (Prim2SF 0.75) with (S754_finite false 6755399441055744 (-53)).
  assert (Z.pos 6755399441055744 = 3 * 2 ^ 51) as Hc by done.
  revert Hc. generalize 6755399441055744%positive. intros c Hc. simpl.
  apply normal_bounds in Hd.
  apply binary_round_aux_dyadic; try lia.
  - rewrite Pos2Z.inj_mul, Hm, Hc.
    replace (- (e + -53 + (j + 2))) with (- (e + j) + 51) by lia.
    rewrite Z.pow_add_r by lia. ring.
  - apply (digits2_pos_ge _ 52); [lia|]. rewrite Pos2Z.inj_mul, Hc.
    assert (0 < 2 ^ 51) by done. nia.
Qed.

End Exact.

(** ** Array lengths as numbers, and the indices computed from them *)

Lemma of_nat_of_Z (n : nat) : JS.of_nat n = JSLib.of_Z (Z.of_nat n).
Proof. reflexivity. Qed.

Lemma of_Z_eq (n : Z) (x : float) :
  (0 < n < 2 ^ 53)%Z -> dyadic 0 n (Prim2SF x) -> x = JSLib.of_Z n.
Proof.
  intros Hn Hx. apply Prim2SF_inj.
  apply (dyadic_unique 0 n); [done|done|by apply of_Z_dyadic].
Qed.

(** The sum of two counts is the count of the sum. *)
Lemma of_nat_add (a b : nat) :
  (Z.of_nat (a + b) < 2 ^ 53)%Z -> (JS.of_nat a + JS.of_nat b)%float = JS.of_nat (a + b).
Proof.
  intros Hab.
  destruct (decide (a = 0)) as [->|Ha].
  { destruct (decide (b = 0)) as [->|Hb]; [done|].
    change (JS.of_nat 0) with 0%float.
    apply (add_zero_l (-52) 1), of_nat_normal; lia. }
  destruct (decide (b = 0)) as [->|Hb].
  { rewrite Nat.add_0_r. change (JS.of_nat 0) with 0%float.
    apply (add_zero_r (-52) 1), of_nat_normal; lia. }
  rewrite !of_nat_of_Z, Nat2Z.inj_add. apply of_Z_eq; [lia|].
  rewrite add_spec. apply SFadd_dyadic; try lia; apply of_Z_dyadic; lia.
Qed.

Lemma floor_dyadic (j n : Z) (x : float) :
  (0 < n < 2 ^ 53)%Z -> (0 <= j)%Z -> dyadic j n (Prim2SF x) ->
  JSLib.Math_floor x = JSLib.of_Z (n / 2 ^ j).
Proof.
  intros Hn Hj H. unfold JSLib.Math_floor.
  pose proof H as (m & e & E & Hd & He & Hm). rewrite E.
  destruct (Z.leb_spec 0 e) as [H0|H0].
  - assert (j = 0 /\ e = 0)%Z as [-> ->] by lia.
    rewrite Z.pow_0_r, Z.div_1_r. by apply of_Z_eq.
  - f_equal. rewrite Hm.
    assert (2 ^ (- e) = 2 ^ j * 2 ^ (- (e + j)))%Z as ->.
    { rewrite <- Z.pow_add_r by lia. f_equal. lia. }
    rewrite Z.div_mul_cancel_r; [done|..].
    + assert (0 < 2 ^ j)%Z by (apply Z.pow_pos_nonneg; lia). lia.
    + assert (0 < 2 ^ (- (e + j)))%Z by (apply Z.pow_pos_nonneg; lia). lia.
Qed.

Lemma to_index_dyadic (n : Z) (x : float) :
  (0 < n < 2 ^ 32 - 1)%Z -> dyadic 0 n (Prim2SF x) -> JSLib.to_index x = Some (Z.to_nat n).
Proof.
  intros Hn (m & e & E & Hd & He & Hm). unfold JSLib.to_index. rewrite E.
  rewrite Z.add_0_r in *. apply normal_bounds in Hd as [Hd _].
  assert (e < 0)%Z as He'.
  { destruct (Z.eq_dec e 0%Z) as [->|]; [|lia]. simpl in Hm.
    assert (2 ^ 32 < 2 ^ 52)%Z by done. lia. }
  rewrite (proj2 (Z.leb_gt _ _)) by done.
  assert (0 < 2 ^ (- e))%Z by (apply Z.pow_pos_nonneg; lia).
  rewrite Hm, Z.mod_mul, Z.div_mul by lia. simpl.
  by rewrite (proj2 (Z.ltb_lt _ _)) by lia.
Qed.

Lemma to_index_of_Z (n : Z) :
  (0 <= n < 2 ^ 32 - 1)%Z -> JSLib.to_index (JSLib.of_Z n) = Some (Z.to_nat n).
Proof.
  intros Hn. destruct (Z.eq_dec n 0%Z) as [->|]; [done|].
  assert (2 ^ 32 < 2 ^ 53)%Z by done.
  apply to_index_dyadic; [lia|]. apply of_Z_dyadic. lia.
Qed.

Lemma to_nat_div (n k : nat) : Z.to_nat (Z.of_nat n / Z.of_nat k) = n / k.
Proof. by rewrite <- Nat2Z.inj_div, Nat2Z.id. Qed.

Section Indices.

Context {A : Type}.
Implicit Types (sorted : list A) (n : nat).

(** [sorted[n - 1]] *)
Lemma at_length_minus_one sorted n :
  0 < n -> (Z.of_nat n < 2 ^ 32)%Z ->
  JSLib.at_number sorted (JS.of_nat n - 1)%float = sorted !! (n - 1).
Proof.
  intros Hn Hlt. unfold JSLib.at_number.
  assert (2 ^ 32 < 2 ^ 53)%Z as Hbig by done.
  destruct (decide (n = 1)) as [->|Hn1]; [done|].
  rewrite (to_index_dyadic (Z.of_nat n - 1)).
  - change (sorted !! Z.to_nat (Z.of_nat n - 1) = sorted !! (n - 1)). f_equal. lia.
  - lia.
  - rewrite sub_spec. apply SFsub_dyadic; try lia.
    + rewrite of_nat_of_Z. apply of_Z_dyadic. lia.
    + apply (of_Z_dyadic 1). lia.
Qed.

(** [sorted[Math.floor(n * 0.25)]] *)
Lemma at_first_quartile sorted n :
  0 < n -> (Z.of_nat n < 2 ^ 32)%Z ->
  JSLib.at_number sorted (JSLib.Math_floor (JS.of_nat n * 0.25)%float) = sorted !! (n / 4).
Proof.
  intros Hn Hlt. unfold JSLib.at_number.
  assert (2 ^ 32 < 2 ^ 53)%Z as Hbig by done.
  rewrite (floor_dyadic 2 (Z.of_nat n)); [|lia|lia|].
  - change (2 ^ 2)%Z with 4%Z. rewrite to_index_of_Z.
    + change (sorted !! Z.to_nat (Z.of_nat n / Z.of_nat 4) = sorted !! (n / 4)).
      by rewrite to_nat_div.
    + split; [apply Z.div_pos; lia|]. apply Z.div_lt_upper_bound; lia.
  - rewrite mul_spec. apply (SFmul_quarter_dyadic 0); [lia|lia|].
    rewrite of_nat_of_Z. apply of_Z_dyadic. lia.
Qed.

(** [sorted[Math.floor(n * 0.75)]] *)
Lemma at_third_quartile sorted n :
  0 < n -> (Z.of_nat n < 2 ^ 32)%Z ->
  JSLib.at_number sorted (JSLib.Math_floor (JS.of_nat n * 0.75)%float) =
  sorted !! (3 * n / 4).
Proof.
  intros Hn Hlt. unfold JSLib.at_number.
  assert (4 * 2 ^ 32 < 2 ^ 53)%Z as Hbig by done.
  rewrite (floor_dyadic 2 (3 * Z.of_nat n)); [|lia|lia|].
  - change (2 ^ 2)%Z with 4%Z. rewrite to_index_of_Z.
    + change (sorted !! Z.to_nat (Z.of_nat 3 * Z.of_nat n / Z.of_nat 4) =
              sorted !! (3 * n / 4)).
      by rewrite <- Nat2Z.inj_mul, to_nat_div.
    + split; [apply Z.div_pos; lia|]. apply Z.div_lt_upper_bound; lia.
  - rewrite mul_spec. apply (SFmul_three_quarters_dyadic 0); [lia|lia|lia|].
    rewrite of_nat_of_Z. apply of_Z_dyadic. lia.
Qed.

(** [sorted[Math.floor(n / 2)]] *)
Lemma at_floor_half sorted n :
  0 < n -> (Z.of_nat n < 2 ^ 32)%Z ->
  JSLib.at_number sorted (JSLib.Math_floor (JS.of_nat n / 2)%float) = sorted !! (n / 2).
Proof.
  intros Hn Hlt. unfold JSLib.at_number.
  assert (2 ^ 32 < 2 ^ 53)%Z as Hbig by done.
  rewrite (floor_dyadic 1 (Z.of_nat n)); [|lia|lia|].
  - change (2 ^ 1)%Z with 2%Z. rewrite to_index_of_Z.
    + change (sorted !! Z.to_nat (Z.of_nat n / Z.of_nat 2) = sorted !! (n / 2)).
      by rewrite to_nat_div.
    + split; [apply Z.div_pos; lia|]. apply Z.div_lt_upper_bound; lia.
  - rewrite div_spec. apply (SFdiv_two_dyadic 0); [lia|lia|].
    rewrite of_nat_of_Z. apply of_Z_dyadic. lia.
Qed.

(** [n / 2] for an even [n] *)
Lemma half_of_even n :
  0 < n -> (Z.of_nat n < 2 ^ 32)%Z -> Nat.even n = true ->
  (JS.of_nat n / 2)%float = JS.of_nat (n / 2).
Proof.
  intros Hn Hlt Heven.
  assert (2 ^ 32 < 2 ^ 53)%Z as Hbig by done.
  apply Nat.even_spec in Heven as [k ->].
  replace (2 * k / 2) with k by (symmetry; rewrite Nat.mul_comm; apply Nat.div_mul; lia).
  rewrite (of_nat_of_Z k). apply of_Z_eq; [lia|].
  rewrite div_spec, of_nat_of_Z. unfold SF64div.
  pose proof (SFdiv_two_dyadic 0 (Z.of_nat (2 * k))
                (Prim2SF (JSLib.of_Z (Z.of_nat (2 * k)))) ltac:(lia) ltac:(lia)
                (of_Z_dyadic (Z.of_nat (2 * k)) ltac:(lia))) as (m & e & -> & Hd & He & Hm).
  exists m, e. split_and!; [done|done|lia|].
  rewrite Hm, Nat2Z.inj_mul. change (Z.of_nat 2) with 2%Z.
  replace (- (e + (0 + 1)))%Z with (- (e + 0) - 1)%Z by lia.
  set (t := (- (e + 0))%Z).
  assert (2 ^ t = 2 ^ (t - 1) * 2)%Z as ->; [|ring].
  rewrite <- (Z.pow_1_r 2) at 3. rewrite <- Z.pow_add_r by (subst t; lia).
  f_equal. lia.
Qed.

(** [sorted[n / 2]] and [sorted[n / 2 - 1]] for an even [n] *)
Lemma at_half sorted n :
  0 < n -> (Z.of_nat n < 2 ^ 32)%Z -> Nat.even n = true ->
  JSLib.at_number sorted (JS.of_nat n / 2)%float = sorted !! (n / 2).
Proof.
  intros Hn Hlt Heven. rewrite half_of_even by done. unfold JSLib.at_number.
  rewrite of_nat_of_Z, to_index_of_Z.
  - change (sorted !! Z.to_nat (Z.of_nat (n / 2)) = sorted !! (n / 2)). by rewrite Nat2Z.id.
  - rewrite Nat2Z.inj_div. split; [apply Z.div_pos; lia|].
    apply Z.div_lt_upper_bound; lia.
Qed.

Lemma at_half_minus_one sorted n :
  0 < n -> (Z.of_nat n < 2 ^ 32)%Z -> Nat.even n = true ->
  JSLib.at_number sorted (JS.of_nat n / 2 - 1)%float = sorted !! (n / 2 - 1).
Proof.
  intros Hn Hlt Heven. rewrite half_of_even by done.
  apply at_length_minus_one.
  - apply Nat.even_spec in Heven as [k ->].
    replace (2 * k / 2) with k by (symmetry; rewrite Nat.mul_comm; apply Nat.div_mul; lia).
    lia.
  - rewrite Nat2Z.inj_div. apply Z.div_lt_upper_bound; lia.
Qed.

End Indices.

(** ** The sign of a difference *)

Section Difference.

Local Open Scope Z_scope.

Lemma finite_number_valid (x : float) : finite_number x -> finite_valid (Prim2SF x).
Proof.
  unfold finite_number. pose proof (Prim2SF_valid x) as Hv.
  destruct (Prim2SF x) as [s|s| |s m e]; try done. intros _.
  unfold SpecFloat.valid_binary, bounded, canonical_mantissa, fexp, SpecFloat.emin in Hv.
  change prec with 53 in Hv. change emax with 1024 in Hv.
  apply andb_true_iff in Hv as [Hc _]. apply Z.eqb_eq in Hc.
  pose proof (digits2_pos_bounds m) as [Hb1 Hb2]. simpl.
  assert (Z.pos (digits2_pos m) <= 53) as Hd by lia.
  split; [lia|]. split.
  - assert (2 ^ Z.pos (digits2_pos m) <= 2 ^ 53) by (apply Z.pow_le_mono_r; lia). lia.
  - destruct (Z.eq_dec e (-1074)) as [?|Hne]; [by left|right].
    assert (Z.pos (digits2_pos m) = 53) as E by lia. by rewrite E in Hb1.
Qed.

Lemma scaled_positive (m : positive) (e : Z) : -1074 <= e -> 0 < Z.pos m * 2 ^ (e + 1074).
Proof. intros He. assert (0 < 2 ^ (e + 1074)) by (apply Z.pow_pos_nonneg; lia). lia. Qed.

Lemma scaled_compare (mx my : positive) (ex ey : Z) :
  finite_valid (S754_finite false mx ex) -> finite_valid (S754_finite false my ey) ->
  match ex ?= ey with
  | Eq => Pos.compare_cont Eq mx my
  | Lt => Lt
  | Gt => Gt
  end = (Z.pos mx * 2 ^ (ex + 1074) ?= Z.pos my * 2 ^ (ey + 1074)).
Proof.
  intros (Hex & Hmx & Hnx) (Hey & Hmy & Hny).
  assert (forall m m' e e' : Z, 0 < m < 2 ^ 53 -> 2 ^ 52 <= m' -> -1074 <= e < e' ->
            m * 2 ^ (e + 1074) < m' * 2 ^ (e' + 1074)) as Hlt.
  { intros m m' e e' Hm Hm' He.
    replace (e' + 1074) with ((e + 1074) + (e' - e)) by lia.
    rewrite (Z.pow_add_r 2 (e + 1074) (e' - e)) by lia.
    assert (0 < 2 ^ (e + 1074)) by (apply Z.pow_pos_nonneg; lia).
    assert (2 <= 2 ^ (e' - e)).
    { change 2 with (2 ^ 1) at 1. apply Z.pow_le_mono_r; lia. }
    change (2 ^ 53) with (2 * 2 ^ 52) in Hm.
    apply Z.lt_le_trans with ((2 * m') * 2 ^ (e + 1074)).
    - apply Z.mul_lt_mono_pos_r; lia.
    - replace (m' * (2 ^ (e + 1074) * 2 ^ (e' - e)))
        with ((m' * 2 ^ (e' - e)) * 2 ^ (e + 1074)) by ring.
      apply Z.mul_le_mono_nonneg_r; [lia|].
      rewrite (Z.mul_comm 2 m'). apply Z.mul_le_mono_nonneg_l; lia. }
  symmetry. destruct (Z.compare_spec ex ey) as [->|H|H].
  - change (Pos.compare_cont Eq mx my) with (Z.pos mx ?= Z.pos my).
    assert (0 < 2 ^ (ey + 1074)) by (apply Z.pow_pos_nonneg; lia).
    destruct (Z.compare_spec (Z.pos mx) (Z.pos my)) as [E|E|E].
    + apply Z.compare_eq_iff. by rewrite E.
    + apply Z.compare_lt_iff. nia.
    + apply Z.compare_gt_iff. nia.
  - apply Z.compare_lt_iff. apply Hlt; lia.
  - apply Z.compare_gt_iff. apply Hlt; lia.
Qed.

(** The order of two finite values is the order of their integers. *)
Lemma SFcompare_scaled (x y : spec_float) :
  finite_valid x -> finite_valid y -> SFcompare x y = Some (scaled x ?= scaled y).
Proof.
  destruct x as [sx|sx| |sx mx ex], y as [sy|sy| |sy my ey]; try done; intros Hx Hy.
  - pose proof (scaled_positive my ey ltac:(by destruct Hy)) as Hp.
    destruct sy; cbv beta iota delta [SFcompare scaled cond_Zopp]; f_equal; symmetry;
      [apply Z.compare_gt_iff|apply Z.compare_lt_iff]; lia.
  - pose proof (scaled_positive mx ex ltac:(by destruct Hx)) as Hp.
    destruct sx; cbv beta iota delta [SFcompare scaled cond_Zopp]; f_equal; symmetry;
      [apply Z.compare_lt_iff|apply Z.compare_gt_iff]; lia.
  - pose proof (scaled_positive mx ex ltac:(by destruct Hx)) as Hpx.
    pose proof (scaled_positive my ey ltac:(by destruct Hy)) as Hpy.
    pose proof (scaled_compare mx my ex ey Hx Hy) as Hc.
    pose proof (scaled_compare my mx ey ex Hy Hx) as Hc'.
    destruct sx, sy; cbv beta iota delta [SFcompare scaled cond_Zopp]; f_equal.
    + rewrite Z.compare_opp, <- Hc', (Z.compare_antisym ex ey).
      change (Pos.compare_cont Eq mx my) with (Pos.compare mx my).
      change (Pos.compare_cont Eq my mx) with (Pos.compare my mx).
      rewrite (Pos.compare_antisym mx my). by destruct (ex ?= ey).
    + symmetry. apply Z.compare_lt_iff. lia.
    + symmetry. apply Z.compare_gt_iff. lia.
    + done.
Qed.

Lemma shr_fexp_positive (m : positive) (e : Z) (l : location) :
  -1074 <= e ->
  0 < shr_m (fst (shr_fexp prec emax (Z.pos m) e l)) /\
  -1074 <= snd (shr_fexp prec emax (Z.pos m) e l).
Proof.
  intros He. unfold shr_fexp, fexp, SpecFloat.emin. simpl Zdigits2.
  change prec with 53. change emax with 1024.
  set (d := Z.pos (digits2_pos m)).
  pose proof (digits2_pos_bounds m) as [Hb1 Hb2]. fold d in Hb1, Hb2.
  change (3 - 1024 - 53) with (-1074).
  destruct (Z.max (d + e - 53) (-1074) - e) as [|n|n] eqn:En; simpl.
  - rewrite shr_record_of_loc_m. lia.
  - rewrite iter_pos_shr_1_m, shr_record_of_loc_m by (rewrite shr_record_of_loc_m; lia).
    assert (Z.pos n = d - 53) as -> by lia.
    split; [|lia]. apply Z.div_str_pos. split; [apply Z.pow_pos_nonneg; lia|].
    assert (2 ^ (d - 53) <= 2 ^ (d - 1)) by (apply Z.pow_le_mono_r; lia). lia.
  - rewrite shr_record_of_loc_m. lia.
Qed.

(** Rounding a positive mantissa at an exponent of the format does not give
    a zero. *)
Lemma binary_round_aux_strictly (s : bool) (m : positive) (e : Z) (l : location) :
  -1074 <= e -> strictly s (binary_round_aux prec emax s (Z.pos m) e l).
Proof.
  intros He. unfold binary_round_aux.
  destruct (shr_fexp_positive m e l He) as [H1 H1'].
  destruct (shr_fexp prec emax (Z.pos m) e l) as [mrs' e']. simpl in H1, H1'.
  pose proof (round_nearest_even_bounds (shr_m mrs') (loc_of_shr_record mrs')) as [Hr _].
  destruct (round_nearest_even (shr_m mrs') (loc_of_shr_record mrs')) as [|m2|m2]; [lia| |lia].
  destruct (shr_fexp_positive m2 e' loc_Exact H1') as [H2 _].
  destruct (shr_fexp prec emax (Z.pos m2) e' loc_Exact) as [mrs'' e'']. simpl in H2.
  destruct (shr_m mrs''); [lia| |lia]. by destruct (_ <=? _).
Qed.

Lemma binary_round_strictly (s : bool) (m : positive) (e : Z) :
  -1074 <= e -> strictly s (binary_round prec emax s m e).
Proof.
  intros He. unfold binary_round.
  assert (-1074 <= fexp prec emax (Z.pos (digits2_pos m) + e)) as Hf.
  { unfold fexp, SpecFloat.emin. change prec with 53. change emax with 1024. lia. }
  unfold shl_align.
  destruct (fexp prec emax (Z.pos (digits2_pos m) + e) - e) eqn:E;
    apply binary_round_aux_strictly; lia.
Qed.

(** The sign of a difference of two finite values. *)
Lemma SFsub_sign (x y : spec_float) :
  finite_valid x -> finite_valid y ->
  match scaled x ?= scaled y with
  | Lt => strictly true (SFsub prec emax x y)
  | Eq => exists s, SFsub prec emax x y = S754_zero s
  | Gt => strictly false (SFsub prec emax x y)
  end.
Proof.
  destruct x as [sx|sx| |sx mx ex], y as [sy|sy| |sy my ey]; try done; intros Hx Hy.
  - simpl. destruct sx, sy; by eexists.
  - pose proof (scaled_positive my ey ltac:(by destruct Hy)) as Hp.
    destruct sy; cbv beta iota delta [SFsub scaled cond_Zopp negb].
    + rewrite (proj2 (Z.compare_gt_iff _ _)); [done|lia].
    + rewrite (proj2 (Z.compare_lt_iff _ _)); [done|lia].
  - pose proof (scaled_positive mx ex ltac:(by destruct Hx)) as Hp.
    destruct sx; cbv beta iota delta [SFsub scaled cond_Zopp].
    + rewrite (proj2 (Z.compare_lt_iff _ _)); [done|lia].
    + rewrite (proj2 (Z.compare_gt_iff _ _)); [done|lia].
  - destruct Hx as (Hex & _), Hy as (Hey & _).
    unfold SFsub. set (ez := Z.min ex ey).
    destruct (shl_align_shift mx ex ez) as (ax & -> & Hax); [lia|].
    destruct (shl_align_shift my ey ez) as (ay & -> & Hay); [lia|].
    cbv beta iota delta [fst].
    set (N := cond_Zopp sx (Z.pos ax) - cond_Zopp sy (Z.pos ay)).
    assert (0 < 2 ^ (ez + 1074)) as HP by (apply Z.pow_pos_nonneg; lia).
    assert (N * 2 ^ (ez + 1074) =
            scaled (S754_finite sx mx ex) - scaled (S754_finite sy my ey)) as HN.
    { subst N. cbv beta iota delta [scaled].
      assert (Z.pos ax * 2 ^ (ez + 1074) = Z.pos mx * 2 ^ (ex + 1074)) as Ex.
      { rewrite Hax, <- Z.mul_assoc, <- Z.pow_add_r by lia. f_equal. f_equal. lia. }
      assert (Z.pos ay * 2 ^ (ez + 1074) = Z.pos my * 2 ^ (ey + 1074)) as Ey.
      { rewrite Hay, <- Z.mul_assoc, <- Z.pow_add_r by lia. f_equal. f_equal. lia. }
      destruct sx, sy; cbv beta iota delta [cond_Zopp]; lia. }
    destruct (Z.compare_spec (scaled (S754_finite sx mx ex)) (scaled (S754_finite sy my ey)))
      as [E|E|E].
    + assert (N = 0) as -> by nia. by eexists.
    + destruct N as [|p|p] eqn:EN; [nia|nia|].
      cbv beta iota delta [binary_normalize]. apply binary_round_strictly. lia.
    + destruct N as [|p|p] eqn:EN; [nia| |nia].
      cbv beta iota delta [binary_normalize]. apply binary_round_strictly. lia.
Qed.

End Difference.

Lemma sub_finite_sign (x y : float) :
  finite_number x -> finite_number y ->
  is_num (x - y) /\
  (x - y <? 0)%float = (x <? y)%float /\
  (0 <? x - y)%float = (y <? x)%float /\
  (x - y =? 0)%float = (x =? y)%float.
Proof.
  intros Hx%finite_number_valid Hy%finite_number_valid.
  unfold is_num.
  rewrite !FloatAxioms.ltb_spec, !FloatAxioms.eqb_spec, sub_spec. unfold SFltb, SFeqb.
  rewrite (SFcompare_scaled _ _ Hx Hy), (SFcompare_scaled _ _ Hy Hx).
  rewrite (Z.compare_antisym (scaled (Prim2SF x)) (scaled (Prim2SF y))).
  pose proof (SFsub_sign _ _ Hx Hy) as Hs. unfold SF64sub.
  change (Prim2SF 0) with (S754_zero false).
  destruct (scaled (Prim2SF x) ?= scaled (Prim2SF y))%Z;
    destruct (SFsub prec emax (Prim2SF x) (Prim2SF y)) as [s|s| |s m e];
    simpl in *; try done; try (by destruct Hs); by subst.
Qed.

(** ** Sorting *)

Lemma number_sign (v : float) :
  is_num v ->
  ((v <? 0)%float = true /\ (v =? 0)%float = false /\ (0 <? v)%float = false) \/
  ((v <? 0)%float = false /\ (v =? 0)%float = true /\ (0 <? v)%float = false) \/
  ((v <? 0)%float = false /\ (v =? 0)%float = false /\ (0 <? v)%float = true).
Proof.
  unfold is_num. rewrite !FloatAxioms.ltb_spec, FloatAxioms.eqb_spec.
  change (Prim2SF 0) with (S754_zero false). unfold SFltb, SFeqb.
  destruct (Prim2SF v) as [[]|[]| |[] m e]; simpl; intros H; try done; tauto.
Qed.

Section Consistent.

Context {A : Type} (cmp : A -> A -> JS.number) (l : list A).
Hypothesis Hcmp : consistent_comparator cmp l.

(** [a <CF b] excludes [b <CF a]. *)
Lemma before_asym (a b : A) :
  a ∈ l -> b ∈ l -> (cmp a b <? 0)%float = true -> (cmp b a <? 0)%float = false.
Proof using Hcmp.
  intros Ha Hb Hab. destruct (cmp b a <? 0)%float eqn:Hba; [|done].
  destruct (Hcmp a b a Ha Hb Ha) as (_ & Haa & _ & _ & Hlt & _).
  specialize (Hlt Hab Hba).
  destruct (Hcmp a a a Ha Ha Ha) as (Hn & _).
  destruct (number_sign _ Hn) as [(? & ? & ?)|[(? & ? & ?)|(? & ? & ?)]]; congruence.
Qed.

(** [a <CF b] gives [b >CF a], and [a >CF b] gives [b <CF a]. *)
Lemma before_after (a b : A) :
  a ∈ l -> b ∈ l -> (cmp a b <? 0)%float = true -> (0 <? cmp b a)%float = true.
Proof using Hcmp.
  intros Ha Hb Hab.
  destruct (Hcmp b a b Hb Ha Hb) as (Hn & _ & Hsym & _).
  destruct (Hcmp a b a Ha Hb Ha) as (Hn' & _).
  pose proof (before_asym a b Ha Hb Hab) as Hba.
  destruct (number_sign _ Hn) as [(? & ? & ?)|[(? & E & ?)|(? & ? & ?)]]; try congruence.
  specialize (Hsym E).
  destruct (number_sign _ Hn') as [(? & ? & ?)|[(? & ? & ?)|(? & ? & ?)]]; congruence.
Qed.

Lemma after_before (a b : A) :
  a ∈ l -> b ∈ l -> (0 <? cmp a b)%float = true -> (cmp b a <? 0)%float = true.
Proof using Hcmp.
  intros Ha Hb Hab.
  destruct (Hcmp b a b Hb Ha Hb) as (Hn & _ & Hsym & _).
  destruct (Hcmp a b a Ha Hb Ha) as (Hn' & Haa & _ & _ & _ & Hgt).
  destruct (number_sign _ Hn) as [(? & ? & ?)|[(? & E & ?)|(? & ? & E)]]; try congruence.
  - specialize (Hsym E).
    destruct (number_sign _ Hn') as [(? & ? & ?)|[(? & ? & ?)|(? & ? & ?)]]; congruence.
  - specialize (Hgt Hab E).
    destruct (Hcmp a a a Ha Ha Ha) as (Hn'' & _).
    destruct (number_sign _ Hn'') as [(? & ? & ?)|[(? & ? & ?)|(? & ? & ?)]]; congruence.
Qed.

(** "Not after" is transitive. *)
Lemma not_after_trans (a b c : A) :
  a ∈ l -> b ∈ l -> c ∈ l ->
  (cmp b a <? 0)%float = false -> (cmp c b <? 0)%float = false ->
  (cmp c a <? 0)%float = false.
Proof using Hcmp.
  intros Ha Hb Hc Hba Hcb. destruct (cmp c a <? 0)%float eqn:Hca; [|done]. exfalso.
  destruct (Hcmp b a b Hb Ha Hb) as (Hn1 & _).
  destruct (Hcmp c b c Hc Hb Hc) as (Hn2 & _).
  destruct (Hcmp c a c Hc Ha Hc) as (Hn3 & _).
  destruct (Hcmp c b a Hc Hb Ha) as (_ & _ & _ & Heq & _ & Hgt).
  destruct (number_sign _ Hn1) as [(? & ? & ?)|[(_ & E1 & _)|(_ & _ & E1)]]; [congruence|..];
    destruct (number_sign _ Hn2) as [(? & ? & ?)|[(_ & E2 & _)|(_ & _ & E2)]]; try congruence.
  - specialize (Heq E2 E1).
    destruct (number_sign _ Hn3) as [(? & ? & ?)|[(? & ? & ?)|(? & ? & ?)]]; congruence.
  - apply after_before in E2; [|done..].
    destruct (Hcmp b c a Hb Hc Ha) as (_ & _ & _ & _ & Hlt & _).
    specialize (Hlt E2 Hca).
    destruct (number_sign _ Hn1) as [(? & ? & ?)|[(? & ? & ?)|(? & ? & ?)]]; congruence.
  - apply after_before in E1; [|done..].
    destruct (Hcmp c a b Hc Ha Hb) as (_ & _ & _ & _ & Hlt & _).
    specialize (Hlt Hca E1).
    destruct (number_sign _ Hn2) as [(? & ? & ?)|[(? & ? & ?)|(? & ? & ?)]]; congruence.
  - specialize (Hgt E2 E1).
    destruct (number_sign _ Hn3) as [(? & ? & ?)|[(? & ? & ?)|(? & ? & ?)]]; congruence.
Qed.

End Consistent.

Lemma consistent_comparator_subseteq {A : Type} (cmp : A -> A -> JS.number) (l l' : list A) :
  l' ⊆ l -> consistent_comparator cmp l -> consistent_comparator cmp l'.
Proof. intros Hsub H a b c Ha Hb Hc. apply H; by apply Hsub. Qed.

(** The insertion sort is a sort. *)
Lemma insert_permutation {A : Type} (cmp : A -> A -> JS.number) (x : A) (s : list A) :
  Insertion.insert cmp x s ≡ₚ x :: s.
Proof.
  induction s as [|y s IH]; simpl; [done|].
  destruct (cmp y x <? 0)%float; [|done]. by rewrite IH, Permutation_swap.
Qed.

Lemma insertion_sort_permutes : sort_permutes Insertion.sort.
Proof.
  intros A cmp l. induction l as [|x l IH]; simpl; [done|].
  by rewrite insert_permutation, IH.
Qed.

Lemma insert_sorted {A : Type} (cmp : A -> A -> JS.number) (l : list A) (x : A) (s : list A) :
  consistent_comparator cmp l -> x ∈ l -> s ⊆ l ->
  StronglySorted (fun a b => (cmp b a <? 0)%float = false) s ->
  StronglySorted (fun a b => (cmp b a <? 0)%float = false) (Insertion.insert cmp x s).
Proof.
  intros Hcmp Hx Hs Hsorted. induction Hsorted as [|y s Hsorted IH Hy]; simpl.
  - repeat constructor.
  - assert (y ∈ l) as Hyl by (apply Hs; left).
    assert (s ⊆ l) as Hsl by (intros z Hz; apply Hs; by right).
    destruct (cmp y x <? 0)%float eqn:E.
    + constructor; [by apply IH|].
      apply Forall_forall. intros z Hz.
      rewrite insert_permutation in Hz. apply elem_of_cons in Hz as [->|Hz].
      * by apply (before_asym cmp l Hcmp).
      * rewrite Forall_forall in Hy. by apply Hy.
    + constructor; [by constructor|].
      constructor; [done|]. apply Forall_forall. intros z Hz.
      rewrite Forall_forall in Hy.
      apply (not_after_trans cmp l Hcmp x y z); [done|done|by apply Hsl|done|by apply Hy].
Qed.

Lemma insertion_sort_orders : sort_orders Insertion.sort.
Proof.
  intros A cmp l Hcmp.
  assert (forall l', l' ⊆ l ->
            StronglySorted (fun a b => (cmp b a <? 0)%float = false) (Insertion.sort A cmp l'))
    as H; [|by apply H].
  induction l' as [|x l' IH]; intros Hsub; simpl; [constructor|].
  apply (insert_sorted cmp l); [done|apply Hsub; left| |].
  - intros z Hz. rewrite (insertion_sort_permutes A cmp l') in Hz. apply Hsub. by right.
  - apply IH. intros z Hz. apply Hsub. by right.
Qed.

(** The comparator [(a, b) => f(a) - f(b)] is consistent for elements whose
    [f] is finite. *)
Lemma difference_consistent {A : Type} (f : A -> JS.number) (l : list A) :
  (forall a, a ∈ l -> finite_number (f a)) ->
  consistent_comparator (fun a b => (f a - f b)%float) l.
Proof.
  intros Hf a b c Ha%Hf Hb%Hf Hc%Hf.
  destruct (sub_finite_sign (f a) (f b) Ha Hb) as (Hn & Hlt & Hgt & Heq).
  destruct (sub_finite_sign (f b) (f a) Hb Ha) as (_ & _ & _ & Heq').
  destruct (sub_finite_sign (f a) (f a) Ha Ha) as (_ & _ & _ & Heqa).
  destruct (sub_finite_sign (f b) (f c) Hb Hc) as (_ & Hlt' & Hgt' & Heq'').
  destruct (sub_finite_sign (f a) (f c) Ha Hc) as (_ & Hlt'' & Hgt'' & Heq''').
  rewrite Hlt, Hgt, Heq, Heq', Heqa, Hlt', Hgt', Heq'', Hlt'', Hgt'', Heq'''.
  assert (is_num (f a) /\ is_num (f b) /\ is_num (f c)) as (Na & Nb & Nc).
  { unfold is_num, finite_number in *.
    destruct (Prim2SF (f a)), (Prim2SF (f b)), (Prim2SF (f c)); try done. }
  assert (forall x y, is_num x -> is_num y ->
            (x =? y)%float = true <-> rank (Prim2SF x) = rank (Prim2SF y)) as Heqb.
  { intros x y. unfold is_num. rewrite FloatAxioms.eqb_spec. unfold SFeqb.
    destruct (Prim2SF x) as [[]|[]| |[] m e], (Prim2SF y) as [[]|[]| |[] m' e'];
      simpl; intros Hx Hy; try done;
      change (Pos.compare_cont Eq m m') with (Z.pos m ?= Z.pos m')%Z;
      destruct (Z.compare_spec e e'); try destruct (Z.compare_spec (Z.pos m) (Z.pos m'));
      simpl; split; intros; try done; try (simplify_eq; lia); try (f_equal; f_equal; lia). }
  split_and!.
  - done.
  - by apply Heqb.
  - rewrite !Heqb by done. congruence.
  - rewrite !Heqb by done. congruence.
  - apply ltb_trans.
  - intros H1 H2. by apply (ltb_trans _ (f b)).
Qed.

(** * The quality of a matching *)

Lemma finite_number_is_num (x : float) : finite_number x -> is_num x.
Proof. unfold finite_number, is_num. by destruct (Prim2SF x). Qed.

Lemma nlt_leb (a b : float) :
  is_num a -> is_num b -> (b <? a)%float = false -> (a <=? b)%float = true.
Proof.
  unfold is_num. rewrite FloatAxioms.ltb_spec, FloatAxioms.leb_spec. unfold SFltb, SFleb.
  destruct (Prim2SF a) as [[]|[]| |[] m e], (Prim2SF b) as [[]|[]| |[] m' e'];
    simpl; try done;
    change (Pos.compare_cont Eq m m') with (Pos.compare m m');
    change (Pos.compare_cont Eq m' m) with (Pos.compare m' m);
    rewrite (Z.compare_antisym e e'), (Pos.compare_antisym m m');
    by destruct (e ?= e')%Z, (m ?= m')%positive.
Qed.

Lemma leb_refl (a : float) : is_num a -> (a <=? a)%float = true.
Proof. intros H. apply nlt_leb; [done|done|apply ltb_irrefl]. Qed.

Lemma StronglySorted_lookup {A : Type} (R : A -> A -> Prop) (l : list A) (i j : nat) (x y : A) :
  StronglySorted R l -> l !! i = Some x -> l !! j = Some y -> i < j -> R x y.
Proof.
  intros Hs Hi Hj Hij. rewrite <- (take_drop j l) in Hs.
  apply (StronglySorted_app_1_elem_of _ _ _ _ _ Hs).
  - apply list_elem_of_lookup. exists i. rewrite lookup_take_lt; done.
  - apply list_elem_of_lookup. exists 0. by rewrite lookup_drop, Nat.add_0_r.
Qed.

Lemma StronglySorted_weaken {A : Type} (R R' : A -> A -> Prop) (l : list A) :
  (forall a b, a ∈ l -> b ∈ l -> R a b -> R' a b) ->
  StronglySorted R l -> StronglySorted R' l.
Proof.
  intros HR Hs. induction Hs as [|x l Hs IH Hx]; [constructor|].
  constructor.
  - apply IH. intros a b Ha Hb. apply HR; by right.
  - rewrite Forall_forall in *. intros y Hy. apply HR; [left|by right|by apply Hx].
Qed.

Section Stats.

Variable Math_pow : JS.number -> JS.number -> JS.number.
Variable Array_sort : forall A : Type, (A -> A -> JS.number) -> list A -> list A.
Variable max_arguments : nat.

(** The positions that the matcher's [calculateStats] reads in the sorted
    copy of a non-empty array. *)
Lemma calculateStats_reads (values : list JS.number) :
  sort_permutes Array_sort -> values <> [] -> array_sized values ->
  let sorted := sorted_copy Array_sort values in
  let n := length values in
  exists s, MatchQuality.calculateStats Math_pow Array_sort values = Some s /\
    MatchQuality.count s = n /\
    MatchQuality.min s = sorted !! 0 /\
    MatchQuality.max s = sorted !! (n - 1) /\
    MatchQuality.p25 s = sorted !! (n / 4) /\
    MatchQuality.p75 s = sorted !! (3 * n / 4) /\
    MatchQuality.median s =
      (if Nat.even n then middle_mean sorted else sorted !! (n / 2)).
Proof.
  intros Hperm Hne Hsize. simpl.
  destruct values as [|v values]; [done|].
  set (vs := v :: values) in *. unfold MatchQuality.calculateStats. fold vs.
  change (match vs with [] => None | _ :: _ => ?x end) with x.
  fold (sorted_copy Array_sort vs). set (sorted := sorted_copy Array_sort vs).
  assert (length sorted = length vs) as Hlen.
  { unfold sorted, sorted_copy. by rewrite (Hperm _ _ vs). }
  assert (0 < length vs) as Hpos by (simpl; lia).
  unfold array_sized in Hsize.
  eexists. split; [reflexivity|]. simpl MatchQuality.count. simpl MatchQuality.min.
  simpl MatchQuality.max. simpl MatchQuality.p25. simpl MatchQuality.p75.
  simpl MatchQuality.median. rewrite Hlen.
  rewrite at_length_minus_one, at_first_quartile, at_third_quartile by done.
  split_and!; try done.
  destruct (Nat.even (length vs)) eqn:Heven.
  - rewrite at_half, at_half_minus_one by done. unfold middle_mean. rewrite Hlen.
    assert (length vs / 2 < length vs) as H2 by (apply Nat.div_lt; lia).
    destruct (lookup_lt_is_Some_2 sorted (length vs / 2 - 1)) as [a ->]; [lia|].
    destruct (lookup_lt_is_Some_2 sorted (length vs / 2)) as [b ->]; [lia|]. done.
  - by rewrite at_floor_half.
Qed.

(** Each position read holds one of the values. *)
Lemma calculateStats_elements (values : list JS.number) :
  sort_permutes Array_sort -> values <> [] -> array_sized values ->
  let sorted := sorted_copy Array_sort values in
  let n := length values in
  exists s mn mx q1 q3 md,
    MatchQuality.calculateStats Math_pow Array_sort values = Some s /\
    MatchQuality.count s = n /\
    MatchQuality.min s = Some mn /\ sorted !! 0 = Some mn /\ mn ∈ values /\
    MatchQuality.max s = Some mx /\ sorted !! (n - 1) = Some mx /\ mx ∈ values /\
    MatchQuality.p25 s = Some q1 /\ sorted !! (n / 4) = Some q1 /\ q1 ∈ values /\
    MatchQuality.p75 s = Some q3 /\ sorted !! (3 * n / 4) = Some q3 /\ q3 ∈ values /\
    MatchQuality.median s = Some md /\
    (if Nat.even n then middle_mean sorted = Some md
     else sorted !! (n / 2) = Some md /\ md ∈ values).
Proof.
  intros Hperm Hne Hsize.
  destruct (calculateStats_reads values Hperm Hne Hsize)
    as (s & Hs & Hc & Hmin & Hmax & H25 & H75 & Hmed).
  set (sorted := sorted_copy Array_sort values) in *. set (n := length values) in *.
  assert (length sorted = n) as Hlen.
  { unfold sorted, sorted_copy. by rewrite (Hperm _ _ values). }
  assert (0 < n) as Hpos by (subst n; destruct values; [done|simpl; lia]).
  assert (forall i v, sorted !! i = Some v -> v ∈ values) as Hin.
  { intros i v Hv. apply list_elem_of_lookup_2 in Hv.
    unfold sorted, sorted_copy in Hv. by rewrite (Hperm _ _ values) in Hv. }
  assert (n / 4 < n) by (apply Nat.div_lt; lia).
  assert (n / 2 < n) by (apply Nat.div_lt; lia).
  assert (3 * n / 4 < n) by (apply Nat.Div0.div_lt_upper_bound; lia).
  destruct (lookup_lt_is_Some_2 sorted 0) as [mn Emn]; [lia|].
  destruct (lookup_lt_is_Some_2 sorted (n - 1)) as [mx Emx]; [lia|].
  destruct (lookup_lt_is_Some_2 sorted (n / 4)) as [q1 Eq1]; [lia|].
  destruct (lookup_lt_is_Some_2 sorted (3 * n / 4)) as [q3 Eq3]; [lia|].
  destruct (lookup_lt_is_Some_2 sorted (n / 2)) as [b Eb]; [lia|].
  destruct (lookup_lt_is_Some_2 sorted (n / 2 - 1)) as [a Ea]; [lia|].
  exists s, mn, mx, q1, q3.
  exists (if Nat.even n then ((a + b) / 2)%float else b).
  rewrite Hmin, Hmax, H25, H75, Hmed.
  split_and!; try done; try (by eapply Hin).
  - destruct (Nat.even n); [|done]. unfold middle_mean. by rewrite Hlen, Ea, Eb.
  - destruct (Nat.even n).
    + unfold middle_mean. by rewrite Hlen, Ea, Eb.
    + split; [done|by eapply Hin].
Qed.

(** X5. The matcher's [calculateStats] never reads outside the sorted copy:
    for a non-empty array of JavaScript length it returns the count of the
    values, the elements at positions 0, [n - 1], [n / 4] and [3 * n / 4] of
    the sorted copy as [min], [max], [p25] and [p75], each of which is one
    of the values, and as [median] the middle element or, for an even
    length, the mean of the two middle elements. For the empty array it
    returns [null]. *)
Theorem matcher_stats_within_array (values : list JS.number) :
  sort_permutes Array_sort -> values <> [] -> array_sized values ->
  let sorted := sorted_copy Array_sort values in
  let n := length values in
  MatchQuality.calculateStats Math_pow Array_sort [] = None /\
  exists s mn mx q1 q3 md,
    MatchQuality.calculateStats Math_pow Array_sort values = Some s /\
    MatchQuality.count s = n /\
    MatchQuality.min s = Some mn /\ sorted !! 0 = Some mn /\ mn ∈ values /\
    MatchQuality.max s = Some mx /\ sorted !! (n - 1) = Some mx /\ mx ∈ values /\
    MatchQuality.p25 s = Some q1 /\ sorted !! (n / 4) = Some q1 /\ q1 ∈ values /\
    MatchQuality.p75 s = Some q3 /\ sorted !! (3 * n / 4) = Some q3 /\ q3 ∈ values /\
    MatchQuality.median s = Some md /\
    (if Nat.even n then middle_mean sorted = Some md
     else sorted !! (n / 2) = Some md /\ md ∈ values).
Proof.
  intros Hperm Hne Hsize. split; [done|]. by apply calculateStats_elements.
Qed.

(** On finite values the statistics come in order. *)
Lemma calculateStats_ordered (values : list JS.number) :
  sort_permutes Array_sort -> sort_orders Array_sort ->
  values <> [] -> array_sized values -> Forall finite_number values ->
  exists s mn mx q1 q3,
    MatchQuality.calculateStats Math_pow Array_sort values = Some s /\
    MatchQuality.min s = Some mn /\ MatchQuality.max s = Some mx /\
    MatchQuality.p25 s = Some q1 /\ MatchQuality.p75 s = Some q3 /\
    (mn <=? q1)%float = true /\ (q1 <=? q3)%float = true /\ (q3 <=? mx)%float = true /\
    forall v, v ∈ values -> (mn <=? v)%float = true /\ (v <=? mx)%float = true.
Proof.
  intros Hperm Hord Hne Hsize Hfin.
  destruct (calculateStats_elements values Hperm Hne Hsize)
    as (s & mn & mx & q1 & q3 & md & Hs & Hc & Hmin & Emn & Imn & Hmax & Emx & Imx &
        H25 & Eq1 & Iq1 & H75 & Eq3 & Iq3 & _).
  set (sorted := sorted_copy Array_sort values) in *. set (n := length values) in *.
  rewrite Forall_forall in Hfin.
  assert (StronglySorted (fun a b => (b <? a)%float = false) sorted) as Hsorted.
  { pose proof (Hord _ (fun a b => (a - b)%float) values
                  (difference_consistent (fun v => v) values Hfin)) as H.
    fold (sorted_copy Array_sort values) in H. fold sorted in H.
    revert H. apply StronglySorted_weaken.
    intros a b Ha Hb. cbv beta.
    unfold sorted, sorted_copy in Ha, Hb. rewrite (Hperm _ _ values) in Ha, Hb.
    destruct (sub_finite_sign b a (Hfin _ Hb) (Hfin _ Ha)) as (_ & -> & _). done. }
  assert (forall i j x y, sorted !! i = Some x -> sorted !! j = Some y -> i <= j ->
            (x <=? y)%float = true) as Hle.
  { intros i j x y Hi Hj Hij.
    assert (is_num x /\ is_num y) as [Nx Ny].
    { split; apply finite_number_is_num, Hfin.
      - apply list_elem_of_lookup_2 in Hi. unfold sorted, sorted_copy in Hi.
        by rewrite (Hperm _ _ values) in Hi.
      - apply list_elem_of_lookup_2 in Hj. unfold sorted, sorted_copy in Hj.
        by rewrite (Hperm _ _ values) in Hj. }
    destruct (decide (i = j)) as [->|Hne'].
    - rewrite Hi in Hj. injection Hj as ->. by apply leb_refl.
    - apply nlt_leb; [done|done|].
      apply (StronglySorted_lookup _ sorted i j x y Hsorted Hi Hj). lia. }
  assert (length sorted = n) as Hlen.
  { unfold sorted, sorted_copy. by rewrite (Hperm _ _ values). }
  assert (0 < n) as Hpos by (subst n; destruct values; [done|simpl; lia]).
  exists s, mn, mx, q1, q3. split_and!; try done.
  - apply (Hle 0 (n / 4)); [done|done|lia].
  - apply (Hle (n / 4) (3 * n / 4)); [done|done|].
    apply Nat.Div0.div_le_mono. lia.
  - apply (Hle (3 * n / 4) (n - 1)); [done|done|].
    assert (3 * n / 4 < n) by (apply Nat.Div0.div_lt_upper_bound; lia). lia.
  - intros v Hv. unfold sorted_copy in *. rewrite <- (Hperm _ (fun a b => (a - b)%float) values) in Hv.
    apply list_elem_of_lookup in Hv as [i Hi].
    pose proof (lookup_lt_Some _ _ _ Hi) as Hlt. fold sorted in Hi, Hlt.
    split; [apply (Hle 0 i)|apply (Hle i (n - 1))]; try done; lia.
Qed.

(** X6. For finite values the statistics of the matcher's [calculateStats]
    are in order: [min <= p25 <= p75 <= max], and no value is below [min]
    or above [max]. *)
Theorem matcher_stats_in_order (values : list JS.number) :
  sort_permutes Array_sort -> sort_orders Array_sort ->
  values <> [] -> array_sized values -> Forall finite_number values ->
  exists s mn mx q1 q3,
    MatchQuality.calculateStats Math_pow Array_sort values = Some s /\
    MatchQuality.min s = Some mn /\ MatchQuality.max s = Some mx /\
    MatchQuality.p25 s = Some q1 /\ MatchQuality.p75 s = Some q3 /\
    (mn <=? q1)%float = true /\ (q1 <=? q3)%float = true /\ (q3 <=? mx)%float = true /\
    forall v, v ∈ values -> (mn <=? v)%float = true /\ (v <=? mx)%float = true.
Proof. apply calculateStats_ordered. Qed.

Lemma not_lt_eqb (a b : float) :
  is_num a -> is_num b -> (a <? b)%float = false -> (b <? a)%float = false ->
  (a =? b)%float = true.
Proof.
  unfold is_num. rewrite !FloatAxioms.ltb_spec, FloatAxioms.eqb_spec. unfold SFltb, SFeqb.
  destruct (Prim2SF a) as [[]|[]| |[] m e], (Prim2SF b) as [[]|[]| |[] m' e'];
    simpl; try done;
    change (Pos.compare_cont Eq m m') with (Pos.compare m m');
    change (Pos.compare_cont Eq m' m) with (Pos.compare m' m);
    rewrite (Z.compare_antisym e e'), (Pos.compare_antisym m m');
    by destruct (e ?= e')%Z, (m ?= m')%positive.
Qed.

Lemma leb_nlt (a b : float) : (a <=? b)%float = true -> (b <? a)%float = false.
Proof.
  rewrite FloatAxioms.ltb_spec, FloatAxioms.leb_spec. unfold SFltb, SFleb.
  destruct (Prim2SF a) as [[]|[]| |[] m e], (Prim2SF b) as [[]|[]| |[] m' e'];
    simpl; try done;
    change (Pos.compare_cont Eq m m') with (Pos.compare m m');
    change (Pos.compare_cont Eq m' m) with (Pos.compare m' m);
    rewrite (Z.compare_antisym e e'), (Pos.compare_antisym m m');
    by destruct (e ?= e')%Z, (m ?= m')%positive.
Qed.

(** X7. The two [calculateStats], of the matcher and of the comparison
    service, agree on finite values that the engine takes as the arguments
    of a call: the same count, mean and standard deviation, and a minimum
    and a maximum that are equal as numbers. On more values the one of the
    service throws a [RangeError], and the one of the matcher returns. *)
Theorem calculateStats_agree (values : list JS.number) :
  sort_permutes Array_sort -> sort_orders Array_sort ->
  values <> [] -> array_sized values -> Forall finite_number values ->
  (length values <= max_arguments ->
   exists s s' mn mx,
     ComparisonService.calculateStats Math_pow max_arguments values = JS.Normal (Some s) /\
     MatchQuality.calculateStats Math_pow Array_sort values = Some s' /\
     MatchQuality.count s' = ComparisonService.count s /\
     MatchQuality.mean s' = ComparisonService.mean s /\
     MatchQuality.stdDev s' = ComparisonService.stdDev s /\
     MatchQuality.min s' = Some mn /\ (mn =? ComparisonService.min s)%float = true /\
     MatchQuality.max s' = Some mx /\ (mx =? ComparisonService.max s)%float = true) /\
  (max_arguments < length values ->
   ComparisonService.calculateStats Math_pow max_arguments values = JS.RangeError /\
   exists s', MatchQuality.calculateStats Math_pow Array_sort values = Some s').
Proof.
  intros Hperm Hord Hne Hsize Hfin.
  destruct (calculateStats_ordered values Hperm Hord Hne Hsize Hfin)
    as (s' & mn & mx & q1 & q3 & Hs' & Hmin & Hmax & _ & _ & _ & _ & _ & Hall).
  split; [|intros Hbeyond; split; [by apply calculateStats_beyond|by exists s']].
  intros Hwithin.
  destruct (calculateStats_elements values Hperm Hne Hsize)
    as (s'' & mn' & mx' & _ & _ & _ & Hs'' & _ & Hmin' & _ & Imn & Hmax' & _ & Imx & _).
  rewrite Hs' in Hs''. injection Hs'' as <-.
  rewrite Hmin in Hmin'. injection Hmin' as <-. rewrite Hmax in Hmax'. injection Hmax' as <-.
  assert (Forall is_num values) as Hnum.
  { eapply Forall_impl; [exact Hfin|]. apply finite_number_is_num. }
  destruct (Math_min_spec values Hne Hnum) as [Imin Hlow].
  destruct (Math_max_spec values Hne Hnum) as [Imax Hhigh].
  rewrite Forall_forall in Hnum. unfold JS.lt in *.
  exists (returned_stats Math_pow values), s', mn, mx.
  rewrite calculateStats_within by done.
  assert (MatchQuality.count s' = length values /\
          MatchQuality.mean s' = ComparisonService.mean (returned_stats Math_pow values) /\
          MatchQuality.stdDev s' = ComparisonService.stdDev (returned_stats Math_pow values))
    as (Ec & Em & Ed).
  { destruct values as [|v values]; [done|]. set (vs := v :: values) in *.
    unfold MatchQuality.calculateStats in Hs'. fold vs in Hs'.
    change (match vs with [] => None | _ :: _ => ?x end) with x in Hs'.
    injection Hs' as <-. done. }
  split_and!; try done.
  - cbn [returned_stats ComparisonService.min]. apply not_lt_eqb;
      [by apply Hnum|by apply Hnum|by apply Hlow|].
    apply leb_nlt. by apply Hall.
  - cbn [returned_stats ComparisonService.max]. apply not_lt_eqb;
      [by apply Hnum|by apply Hnum| |by apply Hhigh].
    apply leb_nlt. by apply Hall.
Qed.

(** X8. [analyzeMatchingQuality]: without a match the average score is 0 and
    there are no statistics; with matches the statistics of the scores, of
    the time differences and of the distances are over all the matches, the
    average score is the mean of the score statistics, and the magnitude
    statistics are over the matches that have a magnitude difference, and
    absent when there is none. *)
Theorem analyzeMatchingQuality_statistics (matches : list MatchCandidate) :
  let q := MatchQuality.analyzeMatchingQuality Math_pow Array_sort matches in
  (matches = [] ->
     MatchQuality.averageScore q = 0%float /\ MatchQuality.scoreStats q = None /\
     MatchQuality.timeStats q = None /\ MatchQuality.distanceStats q = None /\
     MatchQuality.magnitudeStats q = None) /\
  (matches <> [] ->
     exists ss ts ds,
       MatchQuality.scoreStats q = Some ss /\ MatchQuality.timeStats q = Some ts /\
       MatchQuality.distanceStats q = Some ds /\
       MatchQuality.averageScore q = MatchQuality.mean ss /\
       MatchQuality.count ss = length matches /\
       MatchQuality.count ts = length matches /\
       MatchQuality.count ds = length matches /\
       (MatchQuality.magnitudeStats q = None <->
          forall m, m ∈ matches -> magnitudeDiff m = None) /\
       forall gs, MatchQuality.magnitudeStats q = Some gs ->
                  MatchQuality.count gs = length (omap magnitudeDiff matches)).
Proof.
  split; [by intros ->|]. intros Hne.
  destruct matches as [|m ms]; [done|]. set (all := m :: ms) in *.
  unfold MatchQuality.analyzeMatchingQuality. fold all.
  change (match all with [] => ?y | _ :: _ => ?x end) with x.
  assert (forall B (f : MatchCandidate -> B), map f all <> []) as Hmap by done.
  clearbody all.
  assert (forall vs, vs <> [] ->
            exists s, MatchQuality.calculateStats Math_pow Array_sort vs = Some s /\
              MatchQuality.count s = length vs /\
              MatchQuality.mean s =
                (fold_left (fun sum val => sum + val) vs 0 / JS.of_nat (length vs))%float)
    as Hstats.
  { intros [|v vs] Hvs; [done|]. eexists. split; [reflexivity|]. done. }
  destruct (Hstats (map matchScore all)) as (ss & Ess & Css & Mss); [apply Hmap|].
  destruct (Hstats (map timeDiff all)) as (ts & Ets & Cts & _); [apply Hmap|].
  destruct (Hstats (map distance all)) as (ds & Eds & Cds & _); [apply Hmap|].
  exists ss, ts, ds.
  cbn [MatchQuality.scoreStats MatchQuality.timeStats MatchQuality.distanceStats
       MatchQuality.averageScore MatchQuality.magnitudeStats].
  rewrite length_map in *. split_and!; try done.
  - destruct (omap magnitudeDiff all) as [|g gs] eqn:Eg.
    + split; [|done]. intros _ m' Hm'.
      destruct (magnitudeDiff m') as [g|] eqn:Em'; [|done].
      assert (g ∈ omap magnitudeDiff all) as Hg by (apply list_elem_of_omap; eauto).
      rewrite Eg in Hg. by apply elem_of_nil in Hg.
    + split; [done|]. intros Hall.
      assert (g ∈ omap magnitudeDiff all) as Hg by (rewrite Eg; left).
      apply list_elem_of_omap in Hg as (m' & Hm' & Em'). by rewrite (Hall m' Hm') in Em'.
  - intros gs'. destruct (omap magnitudeDiff all) as [|g gs] eqn:Eg; [done|].
    intros H. destruct (Hstats (g :: gs)) as (gs'' & Egs & Cgs & _); [done|]. congruence.
Qed.

End Stats.

(** ** [generateMatchingSummary] *)

Lemma count_ratio_unguarded (n a b : nat) :
  n = a \/ n = b -> (Z.of_nat a < 2 ^ 53)%Z -> (Z.of_nat b < 2 ^ 53)%Z -> 0 < a + b ->
  JS.or_else (JS.of_nat n / (JS.of_nat a + JS.of_nat b))%float 0 =
  (JS.of_nat n / (JS.of_nat a + JS.of_nat b))%float.
Proof.
  intros Hn Ha Hb Hab.
  destruct (ratio_of_counts n a b Hn Ha Hb) as (Hq & _). simpl in Hq. rewrite Hq.
  by rewrite (ratio_normal _ _ _ _ (sum_of_counts a b Ha Hb Hab)).
Qed.

Section Summary.

Variable Math_pow : JS.number -> JS.number -> JS.number.
Variable Array_sort : forall A : Type, (A -> A -> JS.number) -> list A -> list A.
Variable max_arguments : nat.
Variable haversine : distance_function.

(** X10. The performance block of [generateMatchingSummary] has no guard
    against an empty catalog: on the result of [matchEvents], its precision
    is NaN when the detected catalog is empty and its recall when the
    reference catalog is, and its matching rate is its recall. Where
    [calculatePerformanceMetrics] returns, as it does when the engine takes
    the matches as the arguments of a call, its precision and its recall are
    those of the summary for a catalog that is not empty, and 0 for an empty
    one; for more matches it throws a [RangeError]. *)
Theorem summary_performance_unguarded (referenceEvents detectedEvents : list Event)
    (criteria : CriteriaArg) :
  array_sized referenceEvents -> array_sized detectedEvents ->
  exists res,
    matchEvents haversine referenceEvents detectedEvents criteria = JS.Fulfilled res /\
    let perf :=
      MatchQuality.performance (MatchQuality.generateMatchingSummary Math_pow Array_sort res) in
    MatchQuality.matchingRate perf = MatchQuality.recall perf /\
    (detectedEvents = [] -> is_nan (MatchQuality.precision perf) = true) /\
    (referenceEvents = [] -> is_nan (MatchQuality.recall perf) = true) /\
    (length (matches res) <= max_arguments ->
     exists metrics,
       ComparisonService.calculatePerformanceMetrics Math_pow max_arguments res =
         JS.Normal metrics /\
       (detectedEvents <> [] ->
          MatchQuality.precision perf = ComparisonService.precision metrics) /\
       (detectedEvents = [] -> ComparisonService.precision metrics = 0%float) /\
       (referenceEvents <> [] ->
          MatchQuality.recall perf = ComparisonService.recall metrics) /\
       (referenceEvents = [] -> ComparisonService.recall metrics = 0%float)) /\
    (max_arguments < length (matches res) ->
     ComparisonService.calculatePerformanceMetrics Math_pow max_arguments res =
       JS.RangeError).
Proof.
  unfold array_sized. intros Hrefs Hdets. eexists. split; [apply matchEvents_as_coded|].
  destruct (partition_counts haversine depth_if_falsy below_infinity
              referenceEvents detectedEvents criteria) as (_ & _ & Href & Hdet).
  unfold as_coded. set (res := partition _ _ _ _ _ _) in *.
  assert (2 ^ 32 < 2 ^ 53)%Z as Hbig by done.
  cbv zeta.
  cbn [MatchQuality.performance MatchQuality.generateMatchingSummary
       MatchQuality.matchingRate MatchQuality.recall MatchQuality.precision].
  change (matchedPairs (summary res)) with (length (matches res)).
  change (sum_unmatchedDetected (summary res)) with (length (unmatchedDetected res)).
  change (sum_unmatchedReference (summary res)) with (length (unmatchedReference res)).
  change (totalReference (summary res)) with (length referenceEvents).
  set (TP := length (matches res)) in *.
  set (FP := length (unmatchedDetected res)) in *.
  set (FN := length (unmatchedReference res)) in *.
  split_and!.
  - by rewrite <- Href, of_nat_add by lia.
  - intros ->. change (length (@nil Event)) with 0 in Hdet.
    assert (TP = 0) as -> by lia. assert (FP = 0) as -> by lia. done.
  - intros ->. change (length (@nil Event)) with 0 in Href.
    assert (TP = 0) as -> by lia. assert (FN = 0) as -> by lia. done.
  - intros Hwithin. exists (returned_metrics Math_pow res).
    split; [by apply calculatePerformanceMetrics_within|].
    unfold returned_metrics.
    cbn [ComparisonService.precision ComparisonService.recall].
    fold TP FP FN. split_and!.
    + intros Hne. rewrite count_ratio_unguarded; [done|by left|lia|lia|].
      destruct detectedEvents; [done|]. rewrite length_cons in Hdet. lia.
    + intros ->. change (length (@nil Event)) with 0 in Hdet.
      assert (TP = 0) as -> by lia. assert (FP = 0) as -> by lia. done.
    + intros Hne. rewrite count_ratio_unguarded; [done|by left|lia|lia|].
      destruct referenceEvents; [done|]. rewrite length_cons in Href. lia.
    + intros ->. change (length (@nil Event)) with 0 in Href.
      assert (TP = 0) as -> by lia. assert (FN = 0) as -> by lia. done.
  - apply calculatePerformanceMetrics_beyond.
Qed.

End Summary.

(** * [findMultipleMatches] *)

Lemma indexed_from_length {A : Type} (k : nat) (l : list A) :
  length (indexed_from k l) = length l.
Proof. revert k. induction l as [|x l IH]; intros k; simpl; [done|]. by rewrite IH. Qed.

Section MultipleMatches.

Variable haversine : distance_function.
Variable Array_sort : forall A : Type, (A -> A -> JS.number) -> list A -> list A.

Implicit Types (crit : MatchingCriteria) (ref d : EventObject)
  (c : MultipleMatches.CandidateMatch).

Lemma candidate_index crit ref j d c :
  MultipleMatches.candidate haversine crit ref j d = Some c ->
  MultipleMatches.detectedIndex c = j /\ MultipleMatches.detectedEvent c = d /\
  within crit c.
Proof.
  unfold MultipleMatches.candidate, within.
  destruct (JS.gt _ (timeWindow crit)) eqn:E1; [done|].
  destruct (JS.gt _ (distanceThreshold crit)) eqn:E2; [done|].
  destruct (MultipleMatches.not_null _ && MultipleMatches.not_null _).
  - destruct (JS.gt _ (magnitudeDiffThreshold crit)) eqn:E3; [done|].
    destruct (JS.gt _ (depthDiffThreshold crit)) eqn:E4; [done|].
    intros [= <-]. simpl. split_and!; try done. by intros md [= <-].
  - destruct (JS.gt _ (depthDiffThreshold crit)) eqn:E4; [done|].
    intros [= <-]. simpl. split_and!; done.
Qed.

Lemma collect_candidates crit ref j dets acc :
  MultipleMatches.collect haversine crit ref j dets acc =
  acc ++ candidates_from haversine crit ref j dets.
Proof.
  unfold candidates_from. revert j acc. induction dets as [|d dets IH]; intros j acc.
  - simpl. by rewrite app_nil_r.
  - simpl. rewrite IH.
    destruct (MultipleMatches.candidate haversine crit ref j d); simpl; [|done].
    by rewrite <- app_assoc.
Qed.

Lemma candidates_from_elem_of crit ref k dets c :
  c ∈ candidates_from haversine crit ref k dets <->
  exists j d, k <= j /\ dets !! (j - k) = Some d /\
    MultipleMatches.candidate haversine crit ref j d = Some c.
Proof.
  unfold candidates_from. rewrite list_elem_of_omap. split.
  - intros ([j d] & Hjd & Hc). apply indexed_from_elem_of in Hjd as [Hk Hd]. by exists j, d.
  - intros (j & d & Hk & Hd & Hc). exists (j, d). split; [|done].
    by apply indexed_from_elem_of.
Qed.

Lemma candidates_from_NoDup crit ref k dets :
  NoDup (map MultipleMatches.detectedIndex (candidates_from haversine crit ref k dets)).
Proof.
  revert k. induction dets as [|d dets IH]; intros k; [constructor|].
  unfold candidates_from. simpl.
  destruct (MultipleMatches.candidate haversine crit ref k d) as [c|] eqn:E;
    [|apply IH].
  simpl. constructor; [|apply IH].
  intros (c' & Hi & Hc')%list_elem_of_fmap.
  apply candidates_from_elem_of in Hc' as (j & d' & Hj & _ & Hc').
  apply candidate_index in E as [E _]. apply candidate_index in Hc' as [E' _]. lia.
Qed.

Lemma findMultipleMatches_unfold ref dets (criteria : option CriteriaArg)
    (maxMatches : option nat) :
  MultipleMatches.findMultipleMatches haversine Array_sort ref dets criteria maxMatches =
  take (default 3 maxMatches)
    (Array_sort _ (fun a b => (MultipleMatches.matchScore a - MultipleMatches.matchScore b)%float)
       (candidates_from haversine (criteria_used criteria) ref 0 dets)).
Proof.
  unfold MultipleMatches.findMultipleMatches. by rewrite collect_candidates.
Qed.

(** What is returned is built by the loop, and all that the loop builds is
    returned when [maxMatches] covers the detected events. *)
Lemma findMultipleMatches_elem_of ref dets (criteria : option CriteriaArg)
    (maxMatches : option nat) :
  sort_permutes Array_sort ->
  let found :=
    MultipleMatches.findMultipleMatches haversine Array_sort ref dets criteria maxMatches in
  (forall c, c ∈ found ->
     exists d, dets !! MultipleMatches.detectedIndex c = Some d /\
       MultipleMatches.candidate haversine (criteria_used criteria) ref
         (MultipleMatches.detectedIndex c) d = Some c /\
       within (criteria_used criteria) c) /\
  (length dets <= default 3 maxMatches ->
   forall j d c, dets !! j = Some d ->
     MultipleMatches.candidate haversine (criteria_used criteria) ref j d = Some c ->
     c ∈ found).
Proof.
  intros Hperm. cbv zeta. rewrite findMultipleMatches_unfold.
  set (cands := candidates_from haversine (criteria_used criteria) ref 0 dets).
  set (sorted := Array_sort _ _ cands).
  assert (sorted ≡ₚ cands) as Hs by apply Hperm.
  split.
  - intros c Hc%subseteq_take. rewrite Hs in Hc.
    apply candidates_from_elem_of in Hc as (j & d & _ & Hd & Hc).
    rewrite Nat.sub_0_r in Hd. pose proof (candidate_index _ _ _ _ _ Hc) as (<- & _ & Hw).
    by exists d.
  - intros Hlen j d c Hd Hc.
    assert (c ∈ cands) as Hin.
    { apply candidates_from_elem_of. exists j, d. rewrite Nat.sub_0_r. split; [lia|done]. }
    rewrite take_ge; [by rewrite Hs|].
    rewrite Hs. unfold cands, candidates_from.
    etrans; [apply omap_length_le|]. by rewrite indexed_from_length.
Qed.

(** X1. The candidates that [findMultipleMatches] returns: at most
    [maxMatches] (3 when it is left out), for distinct detected events; each
    is the candidate that the loop builds for the detected event at its
    index, no difference of which exceeds its threshold; and when
    [maxMatches] covers the detected events, every such candidate is
    returned. *)
Theorem findMultipleMatches_candidates ref dets (criteria : option CriteriaArg)
    (maxMatches : option nat) :
  sort_permutes Array_sort ->
  let found :=
    MultipleMatches.findMultipleMatches haversine Array_sort ref dets criteria maxMatches in
  length found <= default 3 maxMatches /\
  NoDup (map MultipleMatches.detectedIndex found) /\
  (forall c, c ∈ found ->
     exists d, dets !! MultipleMatches.detectedIndex c = Some d /\
       MultipleMatches.candidate haversine (criteria_used criteria) ref
         (MultipleMatches.detectedIndex c) d = Some c /\
       within (criteria_used criteria) c) /\
  (length dets <= default 3 maxMatches ->
   forall j d c, dets !! j = Some d ->
     MultipleMatches.candidate haversine (criteria_used criteria) ref j d = Some c ->
     c ∈ found).
Proof.
  intros Hperm. cbv zeta.
  destruct (findMultipleMatches_elem_of ref dets criteria maxMatches Hperm) as [Hin Hall].
  split_and!; [| |exact Hin|exact Hall].
  - rewrite findMultipleMatches_unfold, length_take. lia.
  - rewrite findMultipleMatches_unfold.
    set (cands := candidates_from haversine (criteria_used criteria) ref 0 dets).
    set (sorted := Array_sort _ _ cands).
    assert (sorted ≡ₚ cands) as Hs by apply Hperm.
    change (map MultipleMatches.detectedIndex (take (default 3 maxMatches) sorted))
      with (MultipleMatches.detectedIndex <$> take (default 3 maxMatches) sorted).
    rewrite fmap_take. eapply sublist_NoDup; [|apply sublist_take].
    rewrite Hs. apply candidates_from_NoDup.
Qed.

(** X2. With finite scores, the candidates come best first: the returned
    candidates are in ascending order of score, and a candidate that is left
    out scores no less than any returned one. *)
Theorem findMultipleMatches_best_first ref dets (criteria : option CriteriaArg)
    (maxMatches : option nat) :
  sort_permutes Array_sort -> sort_orders Array_sort ->
  (forall j d c, dets !! j = Some d ->
     MultipleMatches.candidate haversine (criteria_used criteria) ref j d = Some c ->
     finite_number (MultipleMatches.matchScore c)) ->
  let found :=
    MultipleMatches.findMultipleMatches haversine Array_sort ref dets criteria maxMatches in
  StronglySorted
    (fun a b => (MultipleMatches.matchScore a <=? MultipleMatches.matchScore b)%float = true)
    found /\
  forall c j d c', c ∈ found -> dets !! j = Some d ->
    MultipleMatches.candidate haversine (criteria_used criteria) ref j d = Some c' ->
    c' ∉ found ->
    (MultipleMatches.matchScore c <=? MultipleMatches.matchScore c')%float = true.
Proof.
  intros Hperm Hord Hfin. cbv zeta. rewrite findMultipleMatches_unfold.
  set (cands := candidates_from haversine (criteria_used criteria) ref 0 dets).
  set (cmp := fun a b => (MultipleMatches.matchScore a - MultipleMatches.matchScore b)%float).
  set (sorted := Array_sort _ cmp cands).
  assert (sorted ≡ₚ cands) as Hs by apply Hperm.
  assert (forall c, c ∈ cands -> finite_number (MultipleMatches.matchScore c)) as Hfin'.
  { intros c (j & d & _ & Hd & Hc)%candidates_from_elem_of.
    rewrite Nat.sub_0_r in Hd. by eapply Hfin. }
  assert (StronglySorted
            (fun a b => (MultipleMatches.matchScore a <=? MultipleMatches.matchScore b)%float = true)
            sorted) as Hsorted.
  { pose proof (Hord _ cmp cands (difference_consistent MultipleMatches.matchScore cands Hfin'))
      as H. fold sorted in H. revert H. apply StronglySorted_weaken.
    intros a b Ha Hb. rewrite Hs in Ha, Hb. unfold cmp.
    destruct (sub_finite_sign _ _ (Hfin' _ Hb) (Hfin' _ Ha)) as (_ & -> & _).
    apply nlt_leb; apply finite_number_is_num; by apply Hfin'. }
  rewrite <- (take_drop (default 3 maxMatches) sorted) in Hsorted.
  split.
  - by apply StronglySorted_app_1_l in Hsorted.
  - intros c j d c' Hc Hd Hc' Hout.
    apply (StronglySorted_app_1_elem_of _ _ _ _ _ Hsorted Hc).
    assert (c' ∈ sorted) as Hin.
    { rewrite Hs. apply candidates_from_elem_of. exists j, d.
      rewrite Nat.sub_0_r. split; [lia|done]. }
    rewrite <- (take_drop (default 3 maxMatches) sorted) in Hin.
    by apply elem_of_app in Hin as [Hin|Hin].
Qed.

(** A number that is NaN makes NaN of the operations it enters. *)
Lemma nan_sub_l (x y : float) : is_nan x = true -> is_nan (x - y) = true.
Proof. rewrite !is_nan_spec, sub_spec. by intros ->. Qed.

Lemma nan_sub_r (x y : float) : is_nan y = true -> is_nan (x - y) = true.
Proof. rewrite !is_nan_spec, sub_spec. intros ->. by destruct (Prim2SF x). Qed.

Lemma nan_abs (x : float) : is_nan x = true -> is_nan (abs x) = true.
Proof. rewrite !is_nan_spec, abs_spec. by intros ->. Qed.

Lemma nan_div_l (x y : float) : is_nan x = true -> is_nan (x / y) = true.
Proof. rewrite !is_nan_spec, div_spec. by intros ->. Qed.

Lemma nan_mul_l (x y : float) : is_nan x = true -> is_nan (x * y) = true.
Proof. rewrite !is_nan_spec, mul_spec. by intros ->. Qed.

Lemma nan_add_l (x y : float) : is_nan x = true -> is_nan (x + y) = true.
Proof. rewrite !is_nan_spec, add_spec. by intros ->. Qed.

Lemma nan_add_r (x y : float) : is_nan y = true -> is_nan (x + y) = true.
Proof. rewrite !is_nan_spec, add_spec. intros ->. by destruct (Prim2SF x). Qed.

Lemma nan_not_gt (x y : float) : is_nan x = true -> JS.gt x y = false.
Proof.
  rewrite is_nan_spec. unfold JS.gt. rewrite FloatAxioms.ltb_spec. intros ->.
  unfold SFltb. by destruct (Prim2SF y).
Qed.

(** X3. [findMultipleMatches] reads a missing [magnitude] as a number: a
    candidate returned for a reference event without the property, against
    a detected event whose magnitude is not [null], has a magnitude
    difference and a score that are NaN. *)
Theorem findMultipleMatches_missing_magnitude ref dets (criteria : option CriteriaArg)
    (maxMatches : option nat) c :
  sort_permutes Array_sort ->
  obj_magnitude ref = Undefined ->
  c ∈ MultipleMatches.findMultipleMatches haversine Array_sort ref dets criteria maxMatches ->
  obj_magnitude (MultipleMatches.detectedEvent c) <> Null ->
  (exists md, MultipleMatches.magnitudeDiff c = Some md /\ is_nan md = true) /\
  is_nan (MultipleMatches.matchScore c) = true.
Proof.
  intros Hperm Href Hc Hnull.
  destruct (findMultipleMatches_elem_of ref dets criteria maxMatches Hperm)
    as (Hin & _).
  destruct (Hin c Hc) as (d & Hd & Hcand & _).
  pose proof (candidate_index _ _ _ _ _ Hcand) as (_ & Hev & _). rewrite Hev in Hnull.
  unfold MultipleMatches.candidate in Hcand. rewrite Href in Hcand.
  destruct (JS.gt _ (timeWindow _)); [done|].
  destruct (JS.gt _ (distanceThreshold _)); [done|].
  assert (MultipleMatches.not_null (obj_magnitude d) = true) as Hnn
    by (by destruct (obj_magnitude d)).
  rewrite Hnn in Hcand. cbn [MultipleMatches.not_null andb MultipleMatches.to_number] in Hcand.
  set (md := abs (nan - MultipleMatches.to_number (obj_magnitude d))) in *.
  assert (is_nan md = true) as Hmd by (apply nan_abs, nan_sub_l; reflexivity).
  rewrite (nan_not_gt md _ Hmd) in Hcand.
  destruct (JS.gt _ (depthDiffThreshold _)); [done|].
  injection Hcand as <-. cbn [MultipleMatches.magnitudeDiff MultipleMatches.matchScore].
  split; [by exists md|]. unfold calculateMatchScore.
  apply nan_add_l, nan_add_r, nan_mul_l, nan_div_l, Hmd.
Qed.

End MultipleMatches.

(** ** [findMultipleMatches] and [matchEvents] *)

Section BothMatchers.

Variable haversine : distance_function.
Variable Array_sort : forall A : Type, (A -> A -> JS.number) -> list A -> list A.

(** On events whose magnitude is a number or [null], the loop of
    [findMultipleMatches] builds the pairing of [matchEvents] when no filter
    rejects it. *)
Lemma candidate_pairing (criteria : MatchingCriteria) (i : nat) (r : Event) (j : nat) (d : Event) :
  MultipleMatches.candidate haversine criteria (as_object r) j (as_object d) =
  let m := pairing haversine depth_if_falsy criteria i r j d in
  if rejected criteria m then None else Some (as_candidate m).
Proof.
  unfold MultipleMatches.candidate, rejected, all_filters, pairing, depth_if_falsy,
    calculateDistance. cbn [existsb exceeds as_object obj_time obj_latitude obj_longitude
                            obj_depth_km obj_magnitude timeDiff distance magnitudeDiff depthDiff orb].
  destruct (JS.gt _ (timeWindow criteria)); [done|].
  destruct (JS.gt _ (distanceThreshold criteria)); [done|].
  destruct (magnitude r) as [mr|], (magnitude d) as [md|];
    cbn [MultipleMatches.not_null andb MultipleMatches.to_number orb].
  - destruct (JS.gt _ (magnitudeDiffThreshold criteria)); [done|].
    by destruct (JS.gt _ (depthDiffThreshold criteria)).
  - by destruct (JS.gt _ (depthDiffThreshold criteria)).
  - by destruct (JS.gt _ (depthDiffThreshold criteria)).
  - by destruct (JS.gt _ (depthDiffThreshold criteria)).
Qed.

(** X4. For a reference catalog of one event, whose magnitudes like those of the
    detected events are numbers or [null]: the match that [matchEvents]
    commits is one of the candidates that [findMultipleMatches] returns when
    [maxMatches] covers the detected events, with the same differences and
    score, and no candidate scores lower; and when [matchEvents] commits no
    match, no candidate scores below [+Infinity]. *)
Theorem matchEvents_commits_a_candidate (referenceEvent : Event) (detectedEvents : list Event)
    (criteria : CriteriaArg) (maxMatches : option nat) :
  sort_permutes Array_sort -> length detectedEvents <= default 3 maxMatches ->
  let found :=
    MultipleMatches.findMultipleMatches haversine Array_sort (as_object referenceEvent)
      (map as_object detectedEvents) (Some criteria) maxMatches in
  exists res,
    matchEvents haversine [referenceEvent] detectedEvents criteria = JS.Fulfilled res /\
    (forall m, m ∈ matches res ->
       as_candidate m ∈ found /\
       forall c, c ∈ found ->
         JS.lt (MultipleMatches.matchScore c) (matchScore m) = false) /\
    (matches res = [] ->
     forall c, c ∈ found -> JS.lt (MultipleMatches.matchScore c) infinity = false).
Proof.
  intros Hperm Hlen. cbv zeta. eexists. split; [apply matchEvents_as_coded|].
  set (crit := spread defaultCriteria criteria).
  destruct (findMultipleMatches_elem_of haversine Array_sort (as_object referenceEvent)
              (map as_object detectedEvents) (Some criteria) maxMatches Hperm)
    as (Hin & Hall).
  rewrite length_map in Hall. specialize (Hall Hlen).
  cbn [criteria_used] in Hin, Hall. fold crit in Hin, Hall.
  set (found := MultipleMatches.findMultipleMatches _ _ _ _ _ _) in *.
  set (survive := survivors haversine depth_if_falsy below_infinity crit detectedEvents [] 0
                    referenceEvent).
  assert (matches (as_coded haversine [referenceEvent] detectedEvents criteria) =
          match select survive with Some c => [c] | None => [] end) as Hm.
  { unfold as_coded, partition. cbn [matches greedy map]. fold crit. fold survive.
    by destruct (select survive). }
  rewrite Hm.
  assert (forall c, c ∈ found ->
            exists j d, detectedEvents !! j = Some d /\
              rejected crit (pairing haversine depth_if_falsy crit 0 referenceEvent j d) = false /\
              c = as_candidate (pairing haversine depth_if_falsy crit 0 referenceEvent j d))
    as Hfound.
  { intros c Hc. destruct (Hin c Hc) as (d' & Hd' & Hcand & _).
    rewrite list_lookup_fmap in Hd'.
    destruct (detectedEvents !! MultipleMatches.detectedIndex c) as [d|] eqn:Ed; [|done].
    injection Hd' as <-. rewrite (candidate_pairing crit 0) in Hcand. cbv zeta in Hcand.
    destruct (rejected crit _) eqn:Er; [done|]. injection Hcand as <-.
    by exists (MultipleMatches.detectedIndex c), d. }
  split.
  - intros m Hmm. destruct (select survive) as [m'|] eqn:Es; [|by apply elem_of_nil in Hmm].
    apply list_elem_of_singleton in Hmm as ->.
    pose proof (select_elem_of _ _ Es) as Hsurv.
    apply survivors_elem_of in Hsurv as (j & d & Hd & _ & Epair & Hrej & Hwin).
    split.
    + apply (Hall j (as_object d)); [by rewrite list_lookup_fmap, Hd|].
      rewrite (candidate_pairing crit 0). cbv zeta. by rewrite <- Epair, Hrej.
    + intros c (j' & d' & Hd' & Hrej' & ->)%Hfound. cbn [as_candidate MultipleMatches.matchScore].
      set (p' := pairing haversine depth_if_falsy crit 0 referenceEvent j' d') in *.
      destruct (below_infinity (matchScore p')) eqn:Eb.
      * assert (p' ∈ survive) as Hp'.
        { apply survivors_elem_of. exists j', d'. split_and!; try done. apply not_elem_of_nil. }
        unfold select in Es. 
        assert (m' ∈ List.filter (is_minimum survive) survive) as Hmin.
        { destruct (List.filter (is_minimum survive) survive); [done|].
          injection Es as ->. left. }
        apply list_elem_of_In, filter_In in Hmin as [_ Hmin].
        rewrite is_minimum_true in Hmin. by apply Hmin.
      * unfold below_infinity, JS.lt in *. by apply not_below_infinity.
  - intros Hnone c (j' & d' & Hd' & Hrej' & ->)%Hfound.
    cbn [as_candidate MultipleMatches.matchScore].
    set (p' := pairing haversine depth_if_falsy crit 0 referenceEvent j' d') in *.
    destruct (JS.lt (matchScore p') infinity) eqn:Eb; [|done]. exfalso.
    assert (p' ∈ survive) as Hp'.
    { apply survivors_elem_of. exists j', d'. split_and!; try done. apply not_elem_of_nil. }
    destruct (select_is_Some survive) as [m' Es].
    + intros E. rewrite E in Hp'. by apply elem_of_nil in Hp'.
    + eapply Forall_impl; [apply survivors_below|]. intros x Hx.
      by apply below_infinity_is_num.
    + by rewrite Es in Hnone.
Qed.

End BothMatchers.

(** * [filterMatchesByQuality] *)

Lemma leb_trans (x a b : float) :
  (x <=? a)%float = true -> (a <=? b)%float = true -> (x <=? b)%float = true.
Proof.
  intros Hxa Hab.
  assert (is_num x /\ is_num a /\ is_num b) as (Nx & Na & Nb).
  { revert Hxa Hab. unfold is_num. rewrite !FloatAxioms.leb_spec. unfold SFleb.
    by destruct (Prim2SF x), (Prim2SF a), (Prim2SF b). }
  apply nlt_leb; [done|done|].
  destruct (b <? x)%float eqn:E; [|done].
  apply leb_nlt in Hxa, Hab.
  by rewrite (ltb_nlt_trans b x a E Hxa Na) in Hab.
Qed.

Lemma leb_is_num (x y : float) : (x <=? y)%float = true -> is_num x /\ is_num y.
Proof.
  unfold is_num. rewrite FloatAxioms.leb_spec. unfold SFleb.
  by destruct (Prim2SF x), (Prim2SF y).
Qed.

(** X9. [filterMatchesByQuality] keeps, in their order, the matches whose score
    is a number not above the bound (1.0 when it is left out): a match whose
    score is NaN is never kept, a bound that is NaN keeps nothing, and
    filtering with a bound and then with a smaller one is filtering with the
    smaller one. *)
Theorem filterMatchesByQuality_bounds (matches : list MatchCandidate)
    (maxScore : option JS.number) :
  let bound := default 1.0%float maxScore in
  let kept := MatchQuality.filterMatchesByQuality matches maxScore in
  kept `sublist_of` matches /\
  (forall m, m ∈ kept <-> m ∈ matches /\ (matchScore m <=? bound)%float = true) /\
  (forall m, m ∈ kept -> is_nan (matchScore m) = false) /\
  (is_nan bound = true -> kept = []) /\
  (forall smaller, (smaller <=? bound)%float = true ->
     MatchQuality.filterMatchesByQuality kept (Some smaller) =
     MatchQuality.filterMatchesByQuality matches (Some smaller)).
Proof.
  cbv zeta. unfold MatchQuality.filterMatchesByQuality.
  set (bound := default 1.0%float maxScore). split_and!.
  - induction matches as [|m ms IH]; simpl; [constructor|].
    destruct (matchScore m <=? bound)%float; by constructor.
  - intros m. by rewrite list_elem_of_In, filter_In, <- list_elem_of_In.
  - intros m Hm. apply list_elem_of_In, filter_In in Hm as [_ Hm].
    apply is_nan_false. by apply leb_is_num in Hm as [? _].
  - intros Hnan. apply filter_none. intros m _.
    destruct (matchScore m <=? bound)%float eqn:E; [|done].
    apply leb_is_num in E as [_ E]. apply is_nan_false in E. congruence.
  - intros smaller Hle. change (default 1.0%float (Some smaller)) with smaller.
    induction matches as [|m ms IH]; simpl; [done|].
    destruct (matchScore m <=? bound)%float eqn:E; simpl.
    + by rewrite IH.
    + destruct (matchScore m <=? smaller)%float eqn:E'; [|done].
      by rewrite (leb_trans _ _ _ E' Hle) in E.
Qed.

(** * The [match_events] tool *)

Lemma field_or_else_truthy (x : option JS.number) (d : JS.number) :
  JS.truthy d = true -> JS.truthy (JS.field_or_else x d) = true.
Proof.
  intros Hd. destruct x as [x|]; [|done]. simpl. unfold JS.or_else.
  by destruct (JS.truthy x) eqn:E.
Qed.

Lemma negative_truthy (x : float) : (x <? 0)%float = true -> JS.truthy x = true.
Proof.
  unfold JS.truthy. intros H.
  assert (is_nan x = false) as -> by (apply is_nan_false; by apply ltb_is_num in H as [? _]).
  assert (is_zero x = false) as ->; [|done].
  revert H. unfold is_zero. rewrite FloatAxioms.ltb_spec, FloatAxioms.eqb_spec.
  change (Prim2SF 0) with (S754_zero false). unfold SFltb, SFeqb.
  by destruct (Prim2SF x) as [[]|[]| |[] ? ?].
Qed.

(** X11. Through the [match_events] tool no threshold of the matcher is zero or
    NaN: a [time_window], [distance_threshold] or
    [magnitude_diff_threshold] that is left out, zero or NaN is replaced by
    its default (30, 10 and 1), and the depth threshold is always 50. A
    negative threshold is used as given. *)
Theorem match_events_tool_thresholds (haversine : distance_function)
    (referenceEvents detectedEvents : list Event) (args : Server.MatchEventsArgs) :
  exists res,
    Server.handleMatchEvents_matching haversine referenceEvents detectedEvents args =
      JS.Fulfilled res /\
    let used := matchingCriteria res in
    timeWindow used = JS.field_or_else (Server.time_window args) 30 /\
    distanceThreshold used = JS.field_or_else (Server.distance_threshold args) 10 /\
    magnitudeDiffThreshold used = JS.field_or_else (Server.magnitude_diff_threshold args) 1 /\
    depthDiffThreshold used = 50%float /\
    JS.truthy (timeWindow used) = true /\ JS.truthy (distanceThreshold used) = true /\
    JS.truthy (magnitudeDiffThreshold used) = true /\
    (forall x, Server.time_window args = Some x -> (x <? 0)%float = true ->
               timeWindow used = x) /\
    (forall x, Server.distance_threshold args = Some x -> (x <? 0)%float = true ->
               distanceThreshold used = x) /\
    (forall x, Server.magnitude_diff_threshold args = Some x -> (x <? 0)%float = true ->
               magnitudeDiffThreshold used = x).
Proof.
  eexists. split; [reflexivity|]. cbv zeta.
  cbn [matchingCriteria spread Server.criteria_of arg_timeWindow arg_distanceThreshold
       arg_magnitudeDiffThreshold arg_depthDiffThreshold default timeWindow
       distanceThreshold magnitudeDiffThreshold depthDiffThreshold defaultCriteria].
  split_and!; try done; try (by apply field_or_else_truthy).
  - intros x -> Hx. simpl. unfold JS.or_else. by rewrite negative_truthy.
  - intros x -> Hx. simpl. unfold JS.or_else. by rewrite negative_truthy.
  - intros x -> Hx. simpl. unfold JS.or_else. by rewrite negative_truthy.
Qed.

Lemma matcher_stats_within_array_witness :
  let values := Samples.five_values in
  let sorted := sorted_copy Insertion.sort values in
  let n := length values in
  MatchQuality.calculateStats square_pow Insertion.sort [] = None /\
  exists s mn mx q1 q3 md,
    MatchQuality.calculateStats square_pow Insertion.sort values = Some s /\
    MatchQuality.count s = n /\
    MatchQuality.min s = Some mn /\ sorted !! 0 = Some mn /\ mn ∈ values /\
    MatchQuality.max s = Some mx /\ sorted !! (n - 1) = Some mx /\ mx ∈ values /\
    MatchQuality.p25 s = Some q1 /\ sorted !! (n / 4) = Some q1 /\ q1 ∈ values /\
    MatchQuality.p75 s = Some q3 /\ sorted !! (3 * n / 4) = Some q3 /\ q3 ∈ values /\
    MatchQuality.median s = Some md /\
    (if Nat.even n then middle_mean sorted = Some md
     else sorted !! (n / 2) = Some md /\ md ∈ values).
Proof.
  apply (matcher_stats_within_array square_pow Insertion.sort Samples.five_values);
    [apply insertion_sort_permutes|done|reflexivity].
Defined.

Lemma matcher_stats_in_order_witness :
  exists s mn mx q1 q3,
    MatchQuality.calculateStats square_pow Insertion.sort Samples.five_values = Some s /\
    MatchQuality.min s = Some mn /\ MatchQuality.max s = Some mx /\
    MatchQuality.p25 s = Some q1 /\ MatchQuality.p75 s = Some q3 /\
    (mn <=? q1)%float = true /\ (q1 <=? q3)%float = true /\ (q3 <=? mx)%float = true /\
    forall v, v ∈ Samples.five_values -> (mn <=? v)%float = true /\ (v <=? mx)%float = true.
Proof.
  apply (matcher_stats_in_order square_pow Insertion.sort Samples.five_values);
    [apply insertion_sort_permutes|apply insertion_sort_orders|done|reflexivity|].
  repeat constructor.
Defined.

Lemma calculateStats_agree_witness :
  exists s s' mn mx,
    ComparisonService.calculateStats square_pow argument_limit Samples.five_values =
      JS.Normal (Some s) /\
    MatchQuality.calculateStats square_pow Insertion.sort Samples.five_values = Some s' /\
    MatchQuality.count s' = ComparisonService.count s /\
    MatchQuality.mean s' = ComparisonService.mean s /\
    MatchQuality.stdDev s' = ComparisonService.stdDev s /\
    MatchQuality.min s' = Some mn /\ (mn =? ComparisonService.min s)%float = true /\
    MatchQuality.max s' = Some mx /\ (mx =? ComparisonService.max s)%float = true.
Proof.
  assert (Forall finite_number Samples.five_values) as Hfin by repeat constructor.
  assert (Samples.five_values <> []) as Hne by done.
  assert (array_sized Samples.five_values) as Hsize by reflexivity.
  destruct (calculateStats_agree square_pow Insertion.sort argument_limit Samples.five_values
              insertion_sort_permutes insertion_sort_orders Hne Hsize Hfin) as [Hwithin _].
  apply Hwithin, Nat.leb_le. by vm_compute.
Defined.

Lemma summary_performance_unguarded_witness :
  exists res,
    matchEvents same_point two_references three_candidates no_criteria = JS.Fulfilled res /\
    let perf :=
      MatchQuality.performance
        (MatchQuality.generateMatchingSummary square_pow Insertion.sort res) in
    MatchQuality.matchingRate perf = MatchQuality.recall perf /\
    (three_candidates = [] -> is_nan (MatchQuality.precision perf) = true) /\
    (two_references = [] -> is_nan (MatchQuality.recall perf) = true) /\
    (length (matches res) <= argument_limit ->
     exists metrics,
       ComparisonService.calculatePerformanceMetrics square_pow argument_limit res =
         JS.Normal metrics /\
       (three_candidates <> [] ->
          MatchQuality.precision perf = ComparisonService.precision metrics) /\
       (three_candidates = [] -> ComparisonService.precision metrics = 0%float) /\
       (two_references <> [] ->
          MatchQuality.recall perf = ComparisonService.recall metrics) /\
       (two_references = [] -> ComparisonService.recall metrics = 0%float)) /\
    (argument_limit < length (matches res) ->
     ComparisonService.calculatePerformanceMetrics square_pow argument_limit res =
       JS.RangeError).
Proof.
  apply (summary_performance_unguarded square_pow Insertion.sort argument_limit same_point
           two_references three_candidates no_criteria); reflexivity.
Defined.

Lemma findMultipleMatches_candidates_witness :
  let ref := as_object (after "A" 0) in
  let dets := map as_object three_candidates in
  let found :=
    MultipleMatches.findMultipleMatches same_point Insertion.sort ref dets None (Some 1) in
  length found <= 1 /\
  NoDup (map MultipleMatches.detectedIndex found) /\
  (forall c, c ∈ found ->
     exists d, dets !! MultipleMatches.detectedIndex c = Some d /\
       MultipleMatches.candidate same_point (criteria_used None) ref
         (MultipleMatches.detectedIndex c) d = Some c /\
       within (criteria_used None) c) /\
  (length dets <= 1 ->
   forall j d c, dets !! j = Some d ->
     MultipleMatches.candidate same_point (criteria_used None) ref j d = Some c ->
     c ∈ found).
Proof.
  apply (findMultipleMatches_candidates same_point Insertion.sort
           (as_object (after "A" 0)) (map as_object three_candidates) None (Some 1)).
  apply insertion_sort_permutes.
Defined.

Lemma findMultipleMatches_best_first_witness :
  let ref := as_object (after "A" 0) in
  let dets := map as_object three_candidates in
  let found :=
    MultipleMatches.findMultipleMatches same_point Insertion.sort ref dets None (Some 1) in
  StronglySorted
    (fun a b => (MultipleMatches.matchScore a <=? MultipleMatches.matchScore b)%float = true)
    found /\
  forall c j d c', c ∈ found -> dets !! j = Some d ->
    MultipleMatches.candidate same_point (criteria_used None) ref j d = Some c' ->
    c' ∉ found ->
    (MultipleMatches.matchScore c <=? MultipleMatches.matchScore c')%float = true.
Proof.
  apply (findMultipleMatches_best_first same_point Insertion.sort
           (as_object (after "A" 0)) (map as_object three_candidates) None (Some 1));
    [apply insertion_sort_permutes|apply insertion_sort_orders|].
  intros [|[|[|j]]] d c [= <-]; vm_compute; by intros [= <-].
Defined.

Lemma findMultipleMatches_missing_magnitude_witness :
  (exists md, MultipleMatches.magnitudeDiff Samples.nan_candidate = Some md /\
              is_nan md = true) /\
  is_nan (MultipleMatches.matchScore Samples.nan_candidate) = true.
Proof.
  apply (findMultipleMatches_missing_magnitude same_point Insertion.sort
           Samples.no_magnitude [as_object quake] None None Samples.nan_candidate);
    [apply insertion_sort_permutes|reflexivity| |done].
  vm_compute. left.
Defined.

Lemma matchEvents_commits_a_candidate_witness :
  let found :=
    MultipleMatches.findMultipleMatches same_point Insertion.sort (as_object (after "A" 0))
      (map as_object second_catalog) (Some no_criteria) None in
  exists res,
    matchEvents same_point [after "A" 0] second_catalog no_criteria = JS.Fulfilled res /\
    (forall m, m ∈ matches res ->
       as_candidate m ∈ found /\
       forall c, c ∈ found ->
         JS.lt (MultipleMatches.matchScore c) (matchScore m) = false) /\
    (matches res = [] ->
     forall c, c ∈ found -> JS.lt (MultipleMatches.matchScore c) infinity = false).
Proof.
  apply (matchEvents_commits_a_candidate same_point Insertion.sort (after "A" 0)
           second_catalog no_criteria None);
    [apply insertion_sort_permutes|simpl; lia].
Defined.

(** Three candidates around a reference event: the one 1000 seconds away is
    rejected, and of the other two the nearer in time comes first. *)
Lemma findMultipleMatches_example :
  map (fun c => (MultipleMatches.detectedIndex c, MultipleMatches.timeDiff c))
    (MultipleMatches.findMultipleMatches same_point Insertion.sort (as_object (after "A" 20))
       (map as_object [after "X" 0; after "Y" 10; after "Z" 1000]) None None) =
  [(1, 10%float); (0, 20%float)].
Proof. by vm_compute. Qed.

(** * What [matchEvents] commits *)

Lemma abs_nonneg (x : float) : is_num (abs x) -> nonneg (Prim2SF (abs x)).
Proof. unfold is_num. rewrite abs_spec. by destruct (Prim2SF x). Qed.

Lemma not_negative_nonneg (x : float) :
  is_num x -> (x <? 0)%float = false -> nonneg (Prim2SF x).
Proof.
  unfold is_num. rewrite FloatAxioms.ltb_spec. change (Prim2SF 0) with (S754_zero false).
  unfold SFltb. by destruct (Prim2SF x) as [[]|[]| |[] ? ?].
Qed.

(** A difference that is not negative, does not exceed its threshold and
    has a quotient by it that is a number: the threshold is positive, the
    difference is finite and the quotient is not negative. *)
Lemma quotient_within (x t : float) :
  nonneg (Prim2SF x) -> is_num (x / t) -> JS.gt x t = false ->
  (0 <? t)%float = true /\ finite_nonneg (Prim2SF x) /\ nonneg (Prim2SF (x / t)).
Proof.
  unfold is_num, JS.gt. rewrite !FloatAxioms.ltb_spec, div_spec.
  change (Prim2SF 0) with (S754_zero false). unfold SFltb.
  intros Hx Hn Hgt.
  assert (is_positive (Prim2SF t) /\ finite_nonneg (Prim2SF x)) as [Ht Hf].
  { destruct (Prim2SF x) as [[]|[]| |[] m e], (Prim2SF t) as [[]|[]| |[] m' e']; try done. }
  split_and!.
  - by destruct (Prim2SF t) as [[]|[]| |[] m' e'].
  - done.
  - apply SFdiv_nonneg; [done|done|by left].
Qed.

Lemma nonneg_sum_finite (x y : float) :
  nonneg (Prim2SF x) -> nonneg (Prim2SF y) -> finite_nonneg (Prim2SF (x + y)) ->
  finite_nonneg (Prim2SF x) /\ finite_nonneg (Prim2SF y).
Proof.
  rewrite add_spec.
  by destruct (Prim2SF x) as [[]|[]| |[] m e], (Prim2SF y) as [[]|[]| |[] m' e'].
Qed.

Lemma nonneg_below_infinity (x : float) :
  nonneg (Prim2SF x) -> (x <? infinity)%float = true -> finite_nonneg (Prim2SF x).
Proof. intros. by apply ltb_infinity_finite. Qed.

Lemma finite_nonneg_number (x : float) :
  finite_nonneg (Prim2SF x) -> finite_number x /\ (0 <=? x)%float = true.
Proof.
  intros H. split.
  - unfold finite_number. by destruct (Prim2SF x) as [[]|[]| |[] ? ?].
  - apply leb_zero_nonneg. by destruct (Prim2SF x) as [[]|[]| |[] ? ?].
Qed.

Section Committed.

Variable haversine : distance_function.

(** A pairing that no filter rejects and whose score is below [+Infinity]. *)
Lemma committed_pairing (criteria : MatchingCriteria) (i : nat) (r : Event) (j : nat) (d : Event) :
  let m := pairing haversine depth_if_falsy criteria i r j d in
  rejected criteria m = false -> below_infinity (matchScore m) = true ->
  (0 <? timeWindow criteria)%float = true /\
  (0 <? depthDiffThreshold criteria)%float = true /\
  (forall md, magnitudeDiff m = Some md ->
     (0 <? magnitudeDiffThreshold criteria)%float = true /\ finite_nonneg (Prim2SF md)) /\
  finite_nonneg (Prim2SF (timeDiff m)) /\ finite_nonneg (Prim2SF (depthDiff m)) /\
  (never_negative haversine ->
   (0 <? distanceThreshold criteria)%float = true /\
   finite_nonneg (Prim2SF (distance m)) /\ finite_nonneg (Prim2SF (matchScore m))).
Proof.
  intros m Hrej Hbelow. rewrite rejected_false in Hrej.
  pose proof (Hrej TimeFilter) as Htime. pose proof (Hrej DistanceFilter) as Hdist.
  pose proof (Hrej MagnitudeFilter) as Hmag. pose proof (Hrej DepthFilter) as Hdepth.
  pose proof (below_infinity_is_num _ Hbelow) as Hnum.
  unfold below_infinity, JS.lt in Hbelow.
  subst m. unfold pairing in *.
  cbn [exceeds timeDiff distance magnitudeDiff depthDiff matchScore] in *.
  set (td := (abs (time r - time d) / 1000)%float) in *.
  set (dist := haversine (latitude r) (longitude r) (latitude d) (longitude d)) in *.
  set (mdiff := match magnitude r, magnitude d with
                | Some mr, Some md => Some (abs (mr - md))%float
                | _, _ => None
                end) in *.
  set (dd := abs (depth_if_falsy r - depth_if_falsy d)%float) in *.
  unfold calculateMatchScore in Hnum, Hbelow.
  pose proof Hnum as Hnum'.
  apply add_is_num in Hnum' as [Hn3 Hnd]. apply add_is_num in Hn3 as [Hn2 Hnm].
  apply add_is_num in Hn2 as [Hnt Hndist].
  apply mul_is_num in Hnt as [Hnt _]. apply mul_is_num in Hndist as [Hndist _].
  apply mul_is_num in Hnd as [Hnd _].
  assert (nonneg (Prim2SF td)) as Htd.
  { pose proof (div_is_num _ _ Hnt) as [Hn _]. subst td.
    pose proof (div_is_num _ _ Hn) as [Ha _]. apply abs_nonneg in Ha.
    rewrite div_spec. apply SFdiv_nonneg; [done|done|by right]. }
  assert (nonneg (Prim2SF dd)) as Hdd.
  { pose proof (div_is_num _ _ Hnd) as [Hn _]. by apply abs_nonneg. }
  destruct (quotient_within td _ Htd Hnt Htime) as (Ptw & Ftd & Qtd).
  destruct (quotient_within dd _ Hdd Hnd Hdepth) as (Pdd & Fdd & Qdd).
  assert (forall md, mdiff = Some md ->
            (0 <? magnitudeDiffThreshold criteria)%float = true /\
            finite_nonneg (Prim2SF md) /\
            nonneg (Prim2SF (md / magnitudeDiffThreshold criteria))) as Hmd.
  { intros md E. rewrite E in Hmag, Hnm. apply mul_is_num in Hnm as [Hnm _].
    assert (nonneg (Prim2SF md)) as Hmd.
    { pose proof (div_is_num _ _ Hnm) as [Hn _]. subst mdiff.
      destruct (magnitude r), (magnitude d); try done. injection E as <-.
      by apply abs_nonneg. }
    by apply quotient_within. }
  split_and!; try done.
  - intros md E. by destruct (Hmd md E) as (? & ? & _).
  - intros Hhav.
    assert (nonneg (Prim2SF dist)) as Hd.
    { apply not_negative_nonneg; [by apply div_is_num in Hndist as [? _]|apply Hhav]. }
    destruct (quotient_within dist _ Hd Hndist Hdist) as (Pd & Fd & Qd).
    split_and!; try done.
    apply nonneg_below_infinity; [|done].
    repeat apply add_nonneg; try (apply mul_nonneg; [done|exact I]).
    destruct mdiff as [md|]; [|exact I].
    apply mul_nonneg; [|exact I]. by destruct (Hmd md eq_refl) as (_ & _ & ?).
Qed.

(** The thresholds and the differences of a committed match. *)
Lemma committed_matches_finite (referenceEvents detectedEvents : list Event)
    (criteria : CriteriaArg) :
  exists res,
    matchEvents haversine referenceEvents detectedEvents criteria = JS.Fulfilled res /\
    forall m, m ∈ matches res ->
      let used := matchingCriteria res in
      (0 <? timeWindow used)%float = true /\
      (0 <? depthDiffThreshold used)%float = true /\
      (forall md, magnitudeDiff m = Some md ->
         (0 <? magnitudeDiffThreshold used)%float = true /\
         finite_number md /\ (0 <=? md)%float = true) /\
      finite_number (timeDiff m) /\ (0 <=? timeDiff m)%float = true /\
      finite_number (depthDiff m) /\ (0 <=? depthDiff m)%float = true /\
      (never_negative haversine ->
       (0 <? distanceThreshold used)%float = true /\
       finite_number (distance m) /\ (0 <=? distance m)%float = true /\
       finite_number (matchScore m) /\ (0 <=? matchScore m)%float = true).
Proof.
  eexists. split; [apply matchEvents_as_coded|]. intros m Hm. cbv zeta.
  apply partition_sound in Hm as (i & r & j & d & _ & _ & -> & Hrej & Hwin).
  change (matchingCriteria (as_coded haversine referenceEvents detectedEvents criteria))
    with (spread defaultCriteria criteria).
  destruct (committed_pairing _ i r j d Hrej Hwin)
    as (Ptw & Pdd & Hmd & [? ?]%finite_nonneg_number & [? ?]%finite_nonneg_number & Hhav).
  split_and!; try done.
  - intros md E. destruct (Hmd md E) as [? [? ?]%finite_nonneg_number]. by split_and!.
  - intros Hn.
    destruct (Hhav Hn) as (? & [? ?]%finite_nonneg_number & [? ?]%finite_nonneg_number).
    by split_and!.
Qed.

(** X12. Every match that [matchEvents] commits is made under a positive
    time window and a positive depth threshold (and a positive magnitude
    threshold when it has a magnitude difference), and its time, depth and
    magnitude differences are finite and not negative; when the distance
    function returns no negative number, the distance threshold is
    positive as well and the distance and the score are finite and not
    negative. *)
Theorem committed_matches_are_finite (referenceEvents detectedEvents : list Event)
    (criteria : CriteriaArg) :
  exists res,
    matchEvents haversine referenceEvents detectedEvents criteria = JS.Fulfilled res /\
    forall m, m ∈ matches res ->
      let used := matchingCriteria res in
      (0 <? timeWindow used)%float = true /\
      (0 <? depthDiffThreshold used)%float = true /\
      (forall md, magnitudeDiff m = Some md ->
         (0 <? magnitudeDiffThreshold used)%float = true /\
         finite_number md /\ (0 <=? md)%float = true) /\
      finite_number (timeDiff m) /\ (0 <=? timeDiff m)%float = true /\
      finite_number (depthDiff m) /\ (0 <=? depthDiff m)%float = true /\
      (never_negative haversine ->
       (0 <? distanceThreshold used)%float = true /\
       finite_number (distance m) /\ (0 <=? distance m)%float = true /\
       finite_number (matchScore m) /\ (0 <=? matchScore m)%float = true).
Proof. apply committed_matches_finite. Qed.

(** X13. Under a time window, or a depth threshold, that is not positive
    [matchEvents] matches nothing, and likewise under a distance threshold
    that is not positive when the distance function returns no negative
    number: every event is returned unmatched. *)
Theorem nonpositive_threshold_matches_nothing (referenceEvents detectedEvents : list Event)
    (criteria : CriteriaArg) :
  exists res,
    matchEvents haversine referenceEvents detectedEvents criteria = JS.Fulfilled res /\
    let used := matchingCriteria res in
    ((0 <? timeWindow used)%float = false \/ (0 <? depthDiffThreshold used)%float = false \/
     (never_negative haversine /\ (0 <? distanceThreshold used)%float = false) ->
     matches res = [] /\ unmatchedReference res = referenceEvents /\
     unmatchedDetected res = detectedEvents).
Proof.
  eexists. split; [apply matchEvents_as_coded|]. cbv zeta. intros Hnon.
  assert (matches (as_coded haversine referenceEvents detectedEvents criteria) = []) as Hnil.
  { destruct (matches _) as [|m ms] eqn:E; [done|]. exfalso.
    assert (m ∈ matches (as_coded haversine referenceEvents detectedEvents criteria)) as Hm
      by (rewrite E; left).
    apply partition_sound in Hm as (i & r & j & d & _ & _ & Em & Hrej & Hwin).
    rewrite Em in Hrej, Hwin.
    change (matchingCriteria (as_coded haversine referenceEvents detectedEvents criteria))
      with (spread defaultCriteria criteria) in Hnon.
    destruct (committed_pairing _ i r j d Hrej Hwin) as (Ptw & Pdd & _ & _ & _ & Hhav).
    destruct Hnon as [H|[H|[Hn H]]]; [congruence|congruence|].
    destruct (Hhav Hn) as (? & _). congruence. }
  split; [done|]. revert Hnil. unfold as_coded, partition. cbn [matches unmatchedReference
    unmatchedDetected]. intros ->. cbn [map].
  assert (forall (l : list Event) k, filter_index (fun i => negb (bool_decide (i ∈ @nil nat))) k l = l)
    as Hall.
  { induction l as [|x l IH]; intros k; simpl; [done|]. by rewrite IH. }
  by rewrite !Hall.
Qed.

End Committed.

Lemma fold_left_add_nonneg (values : list JS.number) (start : JS.number) :
  nonneg (Prim2SF start) -> Forall (fun v => nonneg (Prim2SF v)) values ->
  nonneg (Prim2SF (fold_left (fun sum val => sum + val)%float values start)).
Proof.
  revert start. induction values as [|v values IH]; intros start Hs Hv; [done|].
  apply Forall_cons in Hv as [Hv Hvs]. simpl. apply IH; [|done]. by apply add_nonneg.
Qed.

Section Average.

Variable haversine : distance_function.
Variable Math_pow : JS.number -> JS.number -> JS.number.
Variable Array_sort : forall A : Type, (A -> A -> JS.number) -> list A -> list A.

(** X14. The average score that [analyzeMatchingQuality] reports for the matches
    of [matchEvents] is never NaN and never negative, when the distance
    function returns no negative number. *)
Theorem average_score_of_a_matching (referenceEvents detectedEvents : list Event)
    (criteria : CriteriaArg) :
  never_negative haversine -> array_sized referenceEvents ->
  exists res,
    matchEvents haversine referenceEvents detectedEvents criteria = JS.Fulfilled res /\
    (0 <=? MatchQuality.averageScore
             (MatchQuality.analyzeMatchingQuality Math_pow Array_sort (matches res)))%float
    = true.
Proof.
  intros Hhav Hsize.
  destruct (committed_matches_finite haversine referenceEvents detectedEvents criteria)
    as (res & Hres & Hall).
  exists res. split; [done|].
  assert (length (matches res) <= length referenceEvents) as Hlen.
  { rewrite matchEvents_as_coded in Hres. injection Hres as <-.
    destruct (partition_counts haversine depth_if_falsy below_infinity
                referenceEvents detectedEvents criteria) as (_ & _ & Href & _).
    unfold as_coded. lia. }
  destruct (matches res) as [|m ms] eqn:E; [done|].
  rewrite <- E in *. unfold MatchQuality.analyzeMatchingQuality.
  rewrite E at 1. cbn [MatchQuality.averageScore]. rewrite length_map.
  apply leb_zero_nonneg. rewrite div_spec. apply SFdiv_nonneg.
  - apply fold_left_add_nonneg; [done|]. apply Forall_forall.
    intros v (m' & -> & Hm')%list_elem_of_fmap.
    destruct (Hall m' Hm') as (_ & _ & _ & _ & _ & _ & _ & Hd).
    destruct (Hd Hhav) as (_ & _ & _ & _ & Hs). by apply leb_zero_nonneg.
  - unfold array_sized in Hsize. assert (2 ^ 32 < 2 ^ 53)%Z by done.
    destruct (of_nat_normal (length (matches res))) as (m' & e' & -> & _);
      [rewrite E; simpl; lia|lia|done].
  - right. unfold array_sized in Hsize. assert (2 ^ 32 < 2 ^ 53)%Z by done.
    destruct (of_nat_normal (length (matches res))) as (m' & e' & -> & _);
      [rewrite E; simpl; lia|lia|done].
Qed.

End Average.

Lemma average_score_of_a_matching_witness :
  exists res,
    matchEvents same_point first_catalog second_catalog no_criteria = JS.Fulfilled res /\
    (0 <=? MatchQuality.averageScore
             (MatchQuality.analyzeMatchingQuality square_pow Insertion.sort (matches res)))%float
    = true.
Proof.
  apply (average_score_of_a_matching same_point square_pow Insertion.sort
           first_catalog second_catalog no_criteria); [|reflexivity].
  intros ? ? ? ?. reflexivity.
Defined.

(** * The CSV loader *)

(** ** Strings *)

Section Strings.

Import Text.

Implicit Types (s t : JSString) (c separator : N).

Lemma split_not_nil separator s : split separator s <> [].
Proof.
  destruct s as [|c s]; [done|]. simpl.
  destruct (c =? separator)%N; [done|]. by destruct (split separator s).
Qed.

Lemma split_without separator s : separator ∉ s -> split separator s = [s].
Proof.
  induction s as [|c s IH]; [done|]. intros Hn. simpl.
  apply not_elem_of_cons in Hn as [Hc Hs].
  destruct (N.eqb_spec c separator) as [->|_]; [done|]. by rewrite IH.
Qed.

Lemma split_with separator s : separator ∈ s -> 2 <= length (split separator s).
Proof.
  induction s as [|c s IH]; intros Hin; [by apply elem_of_nil in Hin|]. simpl.
  destruct (N.eqb_spec c separator) as [->|Hne].
  - pose proof (split_not_nil separator s). destruct (split separator s); [done|simpl; lia].
  - apply elem_of_cons in Hin as [->|Hin]; [done|]. specialize (IH Hin).
    destruct (split separator s); simpl in *; lia.
Qed.

(** A code unit appended to a string is appended to a piece of it. *)
Lemma split_snoc separator s c :
  c <> separator ->
  Forall2 (fun v' v => v' = v \/ v' = v ++ [c]) (split separator (s ++ [c])) (split separator s).
Proof.
  intros Hc. induction s as [|a s IH]; simpl.
  - destruct (N.eqb_spec c separator); [done|]. constructor; [by right|constructor].
  - destruct (N.eqb_spec a separator) as [_|_]; [constructor; [by left|done]|].
    destruct IH as [|v' v vs' vs Hv Hvs]; [by constructor; [left|]|].
    constructor; [|done]. destruct Hv as [->| ->]; [by left|by right].
Qed.

Lemma trimStart_white w s :
  Forall (fun c => is_white_space c = true) w -> trimStart (w ++ s) = trimStart s.
Proof. induction 1 as [|c w Hc _ IH]; [done|]. simpl. by rewrite Hc. Qed.

Lemma trimStart_all_white w :
  Forall (fun c => is_white_space c = true) w -> trimStart w = [].
Proof. intros H. rewrite <- (app_nil_r w). by rewrite trimStart_white. Qed.

Lemma trim_all_white w : Forall (fun c => is_white_space c = true) w -> trim w = [].
Proof. intros H. unfold trim. by rewrite (trimStart_all_white w). Qed.

Lemma trimStart_snoc s c :
  trimStart (s ++ [c]) =
  match trimStart s with
  | [] => trimStart [c]
  | _ :: _ => trimStart s ++ [c]
  end.
Proof.
  induction s as [|a s IH]; [done|]. simpl. by destruct (is_white_space a).
Qed.

(** White space at the end of a string is stripped. *)
Lemma trim_snoc_white s c : is_white_space c = true -> trim (s ++ [c]) = trim s.
Proof.
  intros Hc. unfold trim. rewrite trimStart_snoc.
  destruct (trimStart s) as [|a r] eqn:E.
  - simpl. by rewrite Hc.
  - rewrite reverse_app. simpl. change (reverse [c]) with [c]. simpl. by rewrite Hc.
Qed.

Lemma reverse_flat_map (f : N -> list N) s :
  reverse (flat_map f s) = flat_map (fun c => reverse (f c)) (reverse s).
Proof.
  induction s as [|c s IH]; [done|].
  rewrite reverse_cons, flat_map_app. simpl flat_map.
  by rewrite reverse_app, IH, app_nil_r.
Qed.

Lemma trimStart_flat_map (f : N -> list N) s :
  keeps_white f -> trimStart (flat_map f s) = flat_map f (trimStart s).
Proof.
  intros Hf. induction s as [|c s IH]; [done|]. simpl.
  specialize (Hf c). destruct (is_white_space c) eqn:E.
  - by rewrite trimStart_white.
  - rewrite Hf. simpl. by rewrite E, Hf.
Qed.

Lemma keeps_white_reverse (f : N -> list N) :
  keeps_white f -> keeps_white (fun c => reverse (f c)).
Proof.
  intros Hf c. specialize (Hf c). destruct (is_white_space c).
  - rewrite Forall_forall in *. intros c' Hc'. apply Hf. by apply elem_of_reverse.
  - by rewrite Hf.
Qed.

Lemma trim_flat_map (f : N -> list N) s :
  keeps_white f -> trim (flat_map f s) = flat_map f (trim s).
Proof.
  intros Hf. unfold trim.
  rewrite trimStart_flat_map, reverse_flat_map by done.
  rewrite trimStart_flat_map by by apply keeps_white_reverse.
  rewrite reverse_flat_map. apply flat_map_ext. intros c. apply reverse_involutive.
Qed.

Lemma trim_with_carriage_returns s :
  trim (with_carriage_returns s) = with_carriage_returns (trim s).
Proof.
  apply trim_flat_map. intros c.
  destruct (N.eqb_spec c line_feed) as [->|Hc]; [by repeat constructor|].
  destruct (is_white_space c) eqn:E; [|done]. by repeat constructor.
Qed.

(** The lines of a string with carriage returns are those of the string,
    with or without a carriage return at the end. *)
Lemma split_with_carriage_returns s :
  Forall2 (fun l' l => l' = l \/ l' = l ++ [carriage_return])
    (split line_feed (with_carriage_returns s)) (split line_feed s).
Proof.
  induction s as [|c s IH]; [by constructor; [left|]|].
  destruct (N.eqb_spec c line_feed) as [->|Hc].
  - change (split line_feed (with_carriage_returns (line_feed :: s)))
      with ([carriage_return] :: split line_feed (with_carriage_returns s)).
    change (split line_feed (line_feed :: s)) with ([] :: split line_feed s).
    constructor; [by right|done].
  - apply N.eqb_neq in Hc.
    assert (with_carriage_returns (c :: s) = c :: with_carriage_returns s) as ->.
    { unfold with_carriage_returns. simpl. by rewrite Hc. }
    cbn [split]. rewrite Hc.
    destruct IH as [|l' l ls' ls Hl Hls]; [by constructor; [left|]|].
    constructor; [|done]. destruct Hl as [->| ->]; [by left|by right].
Qed.

End Strings.

(** ** Rows *)

Section Rows.

Import Text Loader.

Implicit Types (headers values names : list JSString) (name line : JSString) (row : Row).

Lemma set_property_other header value row name :
  name <> header -> set_property header value row !! name = row !! name.
Proof.
  intros Hn. unfold set_property. destruct (bool_decide _); [done|].
  by rewrite lookup_partial_alter_ne.
Qed.

Lemma set_columns_other values index headers row name :
  name ∉ headers -> set_columns values index headers row !! name = row !! name.
Proof.
  revert index row. induction headers as [|h hs IH]; intros index row Hn; [done|].
  apply not_elem_of_cons in Hn as [Hh Hhs]. cbn [set_columns]. rewrite IH by done.
  by apply set_property_other.
Qed.

Lemma set_columns_prototype values index headers row :
  row !! lit "__proto__" = None ->
  set_columns values index headers row !! lit "__proto__" = None.
Proof.
  revert index row. induction headers as [|h hs IH]; intros index row Hrow; [done|].
  cbn [set_columns]. apply IH. unfold set_property.
  destruct (bool_decide (h = lit "__proto__")) eqn:E; [done|].
  apply bool_decide_eq_false in E. by rewrite lookup_partial_alter_ne.
Qed.

Lemma set_columns_last values index headers row name k :
  name <> lit "__proto__" ->
  headers !! k = Some name -> (forall j, k < j -> headers !! j <> Some name) ->
  set_columns values index headers row !! name = values !! (index + k).
Proof.
  intros Hproto.
  revert index row k. induction headers as [|h hs IH]; intros index row k Hk Hlast; [done|].
  destruct k as [|k]; cbn [set_columns]; simpl in Hk.
  - injection Hk as ->. rewrite set_columns_other.
    + unfold set_property. rewrite bool_decide_eq_false_2 by done.
      by rewrite lookup_partial_alter_eq, Nat.add_0_r.
    + intros [j Hj]%list_elem_of_lookup. by apply (Hlast (S j)); [lia|].
  - rewrite (IH (S index) _ k Hk).
    + f_equal. lia.
    + intros j Hj. apply (Hlast (S j)). lia.
Qed.

(** X18. The row of a line has, for a header name, the cell in the last
    column of that name as its property, which is [undefined] when the line
    has fewer cells; it has no property of its own for a name that is not a
    header, so that the cells beyond the headers are not read, and none of
    the name [__proto__]. *)
Theorem row_reads_last_column headers line name :
  (name ∉ headers -> row_of headers line !! name = None) /\
  row_of headers line !! lit "__proto__" = None /\
  (name <> lit "__proto__" ->
   forall k, headers !! k = Some name -> (forall j, k < j -> headers !! j <> Some name) ->
     row_of headers line !! name = cells line !! k).
Proof.
  unfold row_of. split_and!.
  - intros Hn. by rewrite set_columns_other.
  - by apply set_columns_prototype.
  - intros Hproto k Hk Hlast. by rewrite (set_columns_last _ _ _ _ _ k).
Qed.

Lemma has_column_false headers names :
  has_column headers names = false -> forall name, name ∈ names -> name ∉ headers.
Proof.
  unfold has_column. induction names as [|n names IH]; intros H name Hin.
  - by apply elem_of_nil in Hin.
  - simpl in H. apply orb_false_iff in H as [Hn H].
    apply elem_of_cons in Hin as [->|Hin]; [|by apply IH].
    by apply bool_decide_eq_false in Hn.
Qed.

Lemma first_given_absent row names :
  (forall name, name ∈ names -> row !! name = None) -> first_given row names = None.
Proof.
  induction names as [|n names IH]; intros H; [done|]. simpl.
  rewrite (H n) by left. apply IH. intros name Hin. apply H. by right.
Qed.

Lemma column_absent headers line standardName :
  has_column headers (columnMapping standardName) = false ->
  first_given (row_of headers line) (columnMapping standardName) = None.
Proof.
  intros H. apply first_given_absent. intros name Hin. unfold row_of.
  rewrite set_columns_other; [done|]. by eapply has_column_false.
Qed.

Lemma omap_nil {A B : Type} (f : A -> option B) (l : list A) :
  (forall x, x ∈ l -> f x = None) -> omap f l = [].
Proof.
  induction l as [|x l IH]; intros H; [done|].
  change (omap f (x :: l)) with
    (match f x with Some y => y :: omap f l | None => omap f l end).
  rewrite (H x) by left. apply IH. intros y Hy. apply H. by right.
Qed.

(** The cells of a line do not change with a carriage return at its end. *)
Lemma cells_carriage_return line : cells (line ++ [carriage_return]) = cells line.
Proof.
  unfold cells.
  assert (carriage_return <> comma) as Hc by done.
  pose proof (split_snoc comma line carriage_return Hc) as H.
  induction H as [|v' v vs' vs Hv _ IH]; [done|]. simpl. f_equal; [|done].
  destruct Hv as [->| ->]; [done|]. by apply trim_snoc_white.
Qed.

End Rows.

(** ** [loadFromCSV] *)

Section LoadFromCSV.

Import Text Loader.

Variable parseFloat : JSString -> JS.number.
Variable Date_parse : JSString -> JS.number.
Variable toISOString : JS.number -> JSString.

(** X15. [loadFromCSV] fails exactly when the file cannot be read or its
    content, without the white space around it, has no line feed, as for an
    empty or blank file and for a file of a header line only; the message
    of the error is the one of the cause after the words "Error reading CSV
    file: ". Otherwise it returns at most one event for each line after the
    first. *)
Theorem loadFromCSV_too_short (content : JSString) :
  let short :=
    JS.Rejected
      "Error reading CSV file: CSV file must have at least a header and one data row" in
  (line_feed ∉ trim content -> Loader.loadFromCSV parseFloat Date_parse toISOString (JS.Fulfilled content) = short) /\
  (Forall (fun c => is_white_space c = true) content ->
     Loader.loadFromCSV parseFloat Date_parse toISOString (JS.Fulfilled content) = short) /\
  (line_feed ∈ trim content ->
     exists events, Loader.loadFromCSV parseFloat Date_parse toISOString (JS.Fulfilled content) = JS.Fulfilled events /\
       length events < length (split line_feed (trim content))) /\
  forall message,
    Loader.loadFromCSV parseFloat Date_parse toISOString (JS.Rejected message) =
    JS.Rejected (String.append "Error reading CSV file: " message).
Proof.
  cbv zeta. unfold Loader.loadFromCSV. split_and!.
  - intros Hn. by rewrite split_without.
  - intros Hw. by rewrite trim_all_white.
  - intros Hin. pose proof (split_with _ _ Hin) as Hlen.
    destruct (split line_feed (trim content)) as [|header lines]; [simpl in Hlen; lia|].
    rewrite length_cons in *. destruct (S (length lines) <? 2) eqn:E.
    { apply Nat.ltb_lt in E. lia. }
    eexists. split; [reflexivity|]. simpl tail.
    pose proof (omap_length_le (fun line => Loader.standardizeEvent parseFloat Date_parse toISOString (row_of (cells (hd [] (header :: lines))) line)) lines).
    lia.
  - done.
Qed.

(** X16. Columns that the header line does not name: without a column for
    the time, the latitude or the longitude under one of their names,
    [loadFromCSV] returns no event at all, and no error; without a column
    for the depth every event has the depth 10, without one for the
    magnitude the magnitude [null], and without one for the identifier no
    [event_id]. *)
Theorem loadFromCSV_missing_columns (content : JSString) (events : list StandardEvent) :
  Loader.loadFromCSV parseFloat Date_parse toISOString (JS.Fulfilled content) = JS.Fulfilled events ->
  let named := fun standardName => has_column (headers_of content) (columnMapping standardName) in
  (named Time && named Latitude && named Longitude = false -> events = []) /\
  (named Depth_km = false -> forall e, e ∈ events -> depth_km e = 10%float) /\
  (named Magnitude = false -> forall e, e ∈ events -> magnitude e = None) /\
  (named Event_id = false -> forall e, e ∈ events -> event_id e = None).
Proof.
  unfold Loader.loadFromCSV, headers_of.
  destruct (length _ <? 2); [done|]. intros [= <-]. cbv zeta.
  set (headers := cells (hd [] (split line_feed (trim content)))).
  set (lines := tail (split line_feed (trim content))).
  assert (forall e, e ∈ omap (fun line => Loader.standardizeEvent parseFloat Date_parse toISOString (row_of headers line)) lines ->
            exists line, Loader.standardizeEvent parseFloat Date_parse toISOString (row_of headers line) = Some e) as Hev.
  { intros e (line & _ & He)%list_elem_of_omap. by exists line. }
  split_and!.
  - intros Hno. apply omap_nil. intros line _. unfold Loader.standardizeEvent.
    apply andb_false_iff in Hno as [[Hno|Hno]%andb_false_iff|Hno];
      rewrite (column_absent _ line _ Hno); [done| |].
    + by destruct (first_given (row_of headers line) (columnMapping Time)).
    + by destruct (first_given (row_of headers line) (columnMapping Time)),
                  (first_given (row_of headers line) (columnMapping Latitude)).
  - intros Hno e [line He]%Hev. unfold Loader.standardizeEvent in He.
    rewrite (column_absent _ line _ Hno) in He.
    destruct (first_given (row_of headers line) (columnMapping Time)); [|done].
    destruct (first_given (row_of headers line) (columnMapping Latitude)); [|done].
    destruct (first_given (row_of headers line) (columnMapping Longitude)); [|done]. by injection He as <-.
  - intros Hno e [line He]%Hev. unfold Loader.standardizeEvent in He.
    rewrite (column_absent _ line _ Hno) in He.
    destruct (first_given (row_of headers line) (columnMapping Time)); [|done].
    destruct (first_given (row_of headers line) (columnMapping Latitude)); [|done].
    destruct (first_given (row_of headers line) (columnMapping Longitude)); [|done]. by injection He as <-.
  - intros Hno e [line He]%Hev. unfold Loader.standardizeEvent in He.
    rewrite (column_absent _ line _ Hno) in He.
    destruct (first_given (row_of headers line) (columnMapping Time)); [|done].
    destruct (first_given (row_of headers line) (columnMapping Latitude)); [|done].
    destruct (first_given (row_of headers line) (columnMapping Longitude)); [|done]. by injection He as <-.
Qed.

(** X17. Windows line endings make no difference: [loadFromCSV] settles in
    the same way, with the same events, on a content and on the content
    with a carriage return before every line feed. *)
Theorem loadFromCSV_line_endings (content : JSString) :
  Loader.loadFromCSV parseFloat Date_parse toISOString (JS.Fulfilled (with_carriage_returns content)) =
  Loader.loadFromCSV parseFloat Date_parse toISOString (JS.Fulfilled content).
Proof.
  unfold Loader.loadFromCSV. rewrite trim_with_carriage_returns.
  pose proof (split_with_carriage_returns (trim content)) as H.
  rewrite (Forall2_length _ _ _ H).
  destruct (length (split line_feed (trim content)) <? 2); [done|]. f_equal.
  destruct H as [|l' l ls' ls Hl Hls]; [done|]. simpl hd. simpl tail.
  assert (cells l' = cells l) as ->.
  { destruct Hl as [->| ->]; [done|apply cells_carriage_return]. }
  induction Hls as [|x y xs ys Hxy _ IH]; [done|].
  change (omap ?f (x :: xs)) with
    (match f x with Some e => e :: omap f xs | None => omap f xs end).
  change (omap ?f (y :: ys)) with
    (match f y with Some e => e :: omap f ys | None => omap f ys end).
  cbv beta.
  assert (row_of (cells l) x = row_of (cells l) y) as ->.
  { unfold row_of. destruct Hxy as [->| ->]; [done|by rewrite cells_carriage_return]. }
  by rewrite IH.
Qed.

End LoadFromCSV.

Lemma loadFromCSV_missing_columns_witness :
  let named := fun standardName =>
    has_column (headers_of CsvSamples.three_columns) (Loader.columnMapping standardName) in
  (named Loader.Time && named Loader.Latitude && named Loader.Longitude = false ->
     CsvSamples.three_columns_events = []) /\
  (named Loader.Depth_km = false ->
     forall e, e ∈ CsvSamples.three_columns_events -> Loader.depth_km e = 10%float) /\
  (named Loader.Magnitude = false ->
     forall e, e ∈ CsvSamples.three_columns_events -> Loader.magnitude e = None) /\
  (named Loader.Event_id = false ->
     forall e, e ∈ CsvSamples.three_columns_events -> Loader.event_id e = None).
Proof.
  apply (loadFromCSV_missing_columns CsvSamples.parse_digits CsvSamples.no_date
           CsvSamples.epoch_string CsvSamples.three_columns CsvSamples.three_columns_events).
  by vm_compute.
Defined.

(** A file with Windows line endings, and a file of a header line only. *)
Lemma loadFromCSV_example :
  Loader.loadFromCSV CsvSamples.parse_digits CsvSamples.no_date CsvSamples.epoch_string
    (JS.Fulfilled (with_carriage_returns CsvSamples.three_columns)) =
    JS.Fulfilled CsvSamples.three_columns_events /\
  Loader.loadFromCSV CsvSamples.parse_digits CsvSamples.no_date CsvSamples.epoch_string
    (JS.Fulfilled (Text.lit "time,lat,lon" ++ [Text.line_feed])) =
    JS.Rejected "Error reading CSV file: CSV file must have at least a header and one data row".
Proof. by vm_compute. Qed.

(** * The catalog downloader *)

Section ParseGeoJson.

Import Text Catalog.

Variable toISOString : JS.number -> JSString.

Lemma event_of_returns (feature : Feature) (event : CatalogEvent) :
  event_of toISOString feature = Returns event ->
  exists coords props,
    feature_coordinates feature = Some coords /\ feature_properties feature = Some props /\
    timed props /\
    latitude event = coordinate coords 1 /\ longitude event = coordinate coords 0 /\
    depth_km event = coordinate coords 2 /\ magnitude event = props_mag props /\
    source event = lit "USGS" /\
    iso_string toISOString (props_time props) = Returns (time event).
Proof.
  unfold event_of. destruct (feature_coordinates feature) as [coords|]; [|done].
  destruct (feature_properties feature) as [props|]; [|done].
  destruct (iso_string toISOString (props_time props)) as [t|] eqn:Et; [|done].
  intros [= <-]. exists coords, props. split_and!; try done.
  unfold timed. unfold iso_string in Et.
  destruct (props_time props) as [| |t']; [done|done|]. by destruct (date_valid t').
Qed.

Lemma event_of_throws (feature : Feature) (thrown : Thrown) :
  event_of toISOString feature = Throws thrown ->
  ~ well_formed_feature feature /\
  match thrown with
  | Error _ => False
  | TypeError => feature_coordinates feature = None \/ feature_properties feature = None
  | RangeError =>
      exists props, feature_properties feature = Some props /\ ~ timed props
  end.
Proof.
  unfold event_of, well_formed_feature.
  destruct (feature_coordinates feature) as [coords|].
  2:{ intros [= <-]. split; [intros [H _]; by apply H|by left]. }
  destruct (feature_properties feature) as [props|].
  2:{ intros [= <-]. split; [by intros (_ & ? & ? & _)|by right]. }
  unfold iso_string, timed.
  destruct (props_time props) as [| |t] eqn:Et.
  - intros [= <-]. split.
    + intros (_ & props' & [= <-] & H). by rewrite Et in H.
    + exists props. rewrite Et. split; [done|tauto].
  - done.
  - destruct (date_valid t) eqn:Ev; [done|]. intros [= <-]. split.
    + intros (_ & props' & [= <-] & H). rewrite Et in H. congruence.
    + exists props. rewrite Et. split; [done|congruence].
Qed.

Lemma event_of_well_formed (feature : Feature) :
  well_formed_feature feature -> exists event, event_of toISOString feature = Returns event.
Proof.
  intros Hw. destruct (event_of toISOString feature) as [event|thrown] eqn:E; [by exists event|].
  by apply event_of_throws in E as [? _].
Qed.

Lemma map_features_returns (fs : list Feature) (events : list CatalogEvent) :
  map_features toISOString fs = Returns events ->
  Forall2 (fun feature event => event_of toISOString feature = Returns event) fs events.
Proof.
  revert events. induction fs as [|f fs IH]; intros events; simpl.
  - intros [= <-]. constructor.
  - destruct (event_of toISOString f) as [e|] eqn:E; [|done].
    destruct (map_features toISOString fs) as [es|]; [|done].
    intros [= <-]. constructor; [done|by apply IH].
Qed.

Lemma map_features_throws (fs : list Feature) (thrown : Thrown) :
  map_features toISOString fs = Throws thrown ->
  exists i feature, fs !! i = Some feature /\ event_of toISOString feature = Throws thrown /\
    forall j earlier, j < i -> fs !! j = Some earlier -> well_formed_feature earlier.
Proof.
  induction fs as [|f fs IH]; simpl; [done|].
  destruct (event_of toISOString f) as [e|t] eqn:E.
  - destruct (map_features toISOString fs) as [es|t]; [done|].
    intros [= <-]. destruct (IH eq_refl) as (i & feature & Hi & Hf & Hbefore).
    exists (S i), feature. split_and!; try done.
    intros [|j] earlier Hj Hearlier.
    + injection Hearlier as <-.
      apply event_of_returns in E as (coords & props & Hc & Hp & Ht & _).
      split; [by rewrite Hc|by exists props].
    + apply (Hbefore j); [lia|done].
  - intros [= <-]. exists 0, f. split_and!; try done. intros j earlier Hj. lia.
Qed.

(** X19. The events that [parseGeoJsonEvents] returns have a latitude, a
    longitude and a magnitude that are numbers other than 0 and NaN, and
    come from the features in their order; the event of a feature is
    dropped when its latitude, longitude or magnitude is 0, [null] or
    missing, as for an earthquake on the equator or of magnitude 0, and kept
    otherwise when its time string is not empty. *)
Theorem parseGeoJsonEvents_keeps_nonzero (data : GeoJson) (events : list CatalogEvent) :
  parseGeoJsonEvents toISOString data = Returns events ->
  exists fs all,
    features data = Some fs /\
    Forall2 (fun feature event => event_of toISOString feature = Returns event) fs all /\
    events `sublist_of` all /\
    forall event, event ∈ all ->
      (event ∈ events ->
         nonzero_number (latitude event) /\ nonzero_number (longitude event) /\
         nonzero_number (magnitude event)) /\
      (nonzero_number (latitude event) -> nonzero_number (longitude event) ->
       nonzero_number (magnitude event) -> time event <> [] -> event ∈ events).
Proof.
  unfold parseGeoJsonEvents. destruct (features data) as [fs|]; [|done].
  destruct (map_features toISOString fs) as [all|] eqn:E; [|done].
  intros [= <-]. exists fs, all. split_and!; [done|by apply map_features_returns| |].
  - clear E. induction all as [|e all IH]; simpl; [constructor|].
    destruct (located e); by constructor.
  - assert (forall x, number_truthy x = true <-> nonzero_number x) as Hnz.
    { intros [| |v]; simpl; split; try done; try (by intros (? & ? & _)).
      - intros H. by exists v.
      - by intros (? & [= <-] & ?). }
    intros event Hin. split.
    + intros [_ Hl]%list_elem_of_In%filter_In. unfold located in Hl.
      apply andb_true_iff in Hl as [[[Hlat Hlon]%andb_true_iff _]%andb_true_iff Hmag].
      by rewrite <- !Hnz.
    + intros Hlat Hlon Hmag Ht. apply list_elem_of_In, filter_In.
      split; [by apply list_elem_of_In|]. unfold located.
      apply Hnz in Hlat, Hlon, Hmag. rewrite Hlat, Hlon, Hmag.
      by destruct (time event).
Qed.

(** X20. [parseGeoJsonEvents] returns exactly when the features are an array
    and each of them has a geometry and properties whose time makes a valid
    date. Otherwise it throws: an [Error] when the features are no array,
    and else what the first feature at fault throws, a [TypeError] without
    geometry or properties and a [RangeError] for the time; one such
    feature is enough, whatever its magnitude and its coordinates. *)
Theorem parseGeoJsonEvents_throws (data : GeoJson) :
  match parseGeoJsonEvents toISOString data with
  | Returns _ =>
      exists fs, features data = Some fs /\ Forall well_formed_feature fs
  | Throws thrown =>
      match features data with
      | None => thrown = Error "Invalid GeoJSON format: missing features array"
      | Some fs =>
          exists i feature,
            fs !! i = Some feature /\ ~ well_formed_feature feature /\
            (forall j earlier, j < i -> fs !! j = Some earlier -> well_formed_feature earlier) /\
            match thrown with
            | Error _ => False
            | TypeError =>
                feature_coordinates feature = None \/ feature_properties feature = None
            | RangeError =>
                exists props, feature_properties feature = Some props /\ ~ timed props
            end
      end
  end.
Proof.
  unfold parseGeoJsonEvents. destruct (features data) as [fs|]; [|done].
  destruct (map_features toISOString fs) as [all|thrown] eqn:E.
  - exists fs. split; [done|]. apply map_features_returns in E.
    induction E as [|f e fs' all' He _ IH]; constructor; [|done].
    apply event_of_returns in He as (coords & props & Hc & Hp & Ht & _).
    split; [by rewrite Hc|by exists props].
  - apply map_features_throws in E as (i & feature & Hi & Hf & Hbefore).
    apply event_of_throws in Hf as [Hnot Hkind]. by exists i, feature.
Qed.

End ParseGeoJson.

Lemma parseGeoJsonEvents_keeps_nonzero_witness :
  exists fs all,
    Catalog.features GeoSamples.feed = Some fs /\
    Forall2 (fun feature event => Catalog.event_of CsvSamples.epoch_string feature =
                                  Catalog.Returns event) fs all /\
    GeoSamples.feed_events `sublist_of` all /\
    forall event, event ∈ all ->
      (event ∈ GeoSamples.feed_events ->
         nonzero_number (Catalog.latitude event) /\ nonzero_number (Catalog.longitude event) /\
         nonzero_number (Catalog.magnitude event)) /\
      (nonzero_number (Catalog.latitude event) -> nonzero_number (Catalog.longitude event) ->
       nonzero_number (Catalog.magnitude event) -> Catalog.time event <> [] ->
       event ∈ GeoSamples.feed_events).
Proof.
  apply (parseGeoJsonEvents_keeps_nonzero CsvSamples.epoch_string GeoSamples.feed
           GeoSamples.feed_events).
  reflexivity.
Defined.

(** One feature without time fails a feed, although the filter would drop
    the event for its magnitude. *)
Lemma parseGeoJsonEvents_example :
  Catalog.parseGeoJsonEvents CsvSamples.epoch_string
    {| Catalog.features :=
         Some [GeoSamples.quake_at 139 35 (Value 4.5%float); GeoSamples.untimed] |} =
  Catalog.Throws Catalog.RangeError.
Proof. reflexivity. Qed.
